(** * Paraphrase detection over WMT19 paraphrases: inference and caching

    A shallow embedding of
    [src/evaluate_paraphrase_detection_wmt19_paraphrases_de_en.py]:
    [prepare_prediction_data], [predict] and the three nested loops of
    [main] (model checkpoints, input files, directions), together with the
    properties of the cache of source-direction predictions.

    Python values are modelled as follows.
    - [str] is [string]; [x in s] on strings is [str_in].
    - A [dict] is an association list in insertion order (keys are unique
      in Python; [dict_set] keeps that).
    - A raised exception is [Raise e]; nothing in the script catches
      exceptions, so a raise ends the run.
    - Lists returned by [predict(...).tolist()] live in a store of list
      objects ([calls]); the variables [preds], [ar_source_cache] and
      [wmt_source_cache] hold references into it. *)

From Stdlib Require Import String Ascii List ZArith Lia Bool Arith.
From Stdlib Require Import Reals Lra.
Import ListNotations.
Local Open Scope string_scope.
Local Open Scope list_scope.

Set Implicit Arguments.
Set Warnings "-register-all".

(** ** Exceptions and results *)

Inductive exn : Type :=
| NameError            (* read of an unbound local variable *)
| IndexError
| KeyError (k : string)
| TypeError
| AttributeError
| ValueError
| OSError
| JSONDecodeError
| LoadError.           (* [from_pretrained] failed *)

Inductive result (A : Type) : Type :=
| Ok (a : A)
| Raise (e : exn).

Arguments Ok {A} a.
Arguments Raise {A} e.

Definition rbind {A B} (r : result A) (k : A -> result B) : result B :=
  match r with
  | Ok a => k a
  | Raise e => Raise e
  end.

Notation "x <- r ;; k" := (rbind r (fun x => k))
  (at level 61, r at next level, right associativity).

Definition is_ok {A} (r : result A) : bool :=
  match r with Ok _ => true | Raise _ => false end.

(** [mapM f l]: apply [f] from left to right, stop at the first raise. *)
Fixpoint mapM {A B} (f : A -> result B) (l : list A) : result (list B) :=
  match l with
  | [] => Ok []
  | x :: l' => y <- f x ;; ys <- mapM f l' ;; Ok (y :: ys)
  end.

(** ** Strings *)

(** Python [needle in hay]. *)
Fixpoint str_in (needle hay : string) : bool :=
  if prefix needle hay then true
  else match hay with
       | EmptyString => false
       | String _ hay' => str_in needle hay'
       end.

(** [split_last_slash p] cuts [p] after its last ["/"]:
    [p[:i]] and [p[i:]] for [i = p.rfind("/") + 1], when there is one. *)
Fixpoint split_last_slash (p : string) : option (string * string) :=
  match p with
  | EmptyString => None
  | String c r =>
      match split_last_slash r with
      | Some (h, t) => Some (String c h, t)
      | None => if Ascii.eqb c "/" then Some (String c EmptyString, r)
                else None
      end
  end.

(** [s.rstrip("/")]. *)
Fixpoint rstrip_slash (s : string) : string :=
  match s with
  | EmptyString => EmptyString
  | String c r =>
      match rstrip_slash r with
      | EmptyString => if Ascii.eqb c "/" then EmptyString
                       else String c EmptyString
      | r' => String c r'
      end
  end.

(** [os.path.basename] (posixpath). *)
Definition basename (p : string) : string :=
  match split_last_slash p with
  | Some (_, t) => t
  | None => p
  end.

(** [os.path.dirname] (posixpath): the head is stripped of its trailing
    slashes unless it consists of slashes only. *)
Definition dirname (p : string) : string :=
  match split_last_slash p with
  | Some (h, _) =>
      match rstrip_slash h with
      | EmptyString => h
      | h' => h'
      end
  | None => EmptyString
  end.

(** ** The sequence length in a checkpoint directory name

    Line 183 searches the name for the regular expression made of the
    group ML followed by the group of zero or more digits 0-9, and passes
    the second group to [int]. *)

Definition is_digit (c : ascii) : bool :=
  let n := nat_of_ascii c in (48 <=? n)%nat && (n <=? 57)%nat.

(** The longest run of digits at the start of [s] (the second group). *)
Fixpoint take_digits (s : string) : string :=
  match s with
  | String c r => if is_digit c then String c (take_digits r)
                  else EmptyString
  | EmptyString => EmptyString
  end.

(** [re.search] for that expression: the match starts at the leftmost
    ML; the result is the second group, [None] when there is no match. *)
Fixpoint re_search_ML (s : string) : option string :=
  match s with
  | EmptyString => None
  | String c r =>
      match r with
      | String c2 rest =>
          if (Ascii.eqb c "M" && Ascii.eqb c2 "L")%bool
          then Some (take_digits rest)
          else re_search_ML r
      | EmptyString => None
      end
  end.

Definition digit_value (c : ascii) : Z := Z.of_nat (nat_of_ascii c - 48).

Fixpoint int_of_digits_acc (acc : Z) (s : string) : Z :=
  match s with
  | EmptyString => acc
  | String c r => int_of_digits_acc (10 * acc + digit_value c) r
  end.

(** Python [int(s)] on a string of ASCII digits; [int("")] raises. *)
Definition py_int (s : string) : result Z :=
  match s with
  | EmptyString => Raise ValueError
  | _ => Ok (int_of_digits_acc 0 s)
  end.

(** Line 183.  [None.groups()] is an [AttributeError]. *)
Definition infer_max_seq_length (metadata : string) : result Z :=
  match re_search_ML metadata with
  | None => Raise AttributeError
  | Some digits => py_int digits
  end.

(** Lines 178-181. *)
Definition infer_model_type (metadata : string) : string :=
  if str_in "xlm-roberta" metadata then "xlmr" else "bert".

(** The spec's pattern: ML followed by at least one digit. *)
Fixpoint has_ML_digits (s : string) : bool :=
  match s with
  | EmptyString => false
  | String c r =>
      match r with
      | String c2 (String d _) =>
          if (Ascii.eqb c "M" && Ascii.eqb c2 "L" && is_digit d)%bool
          then true
          else has_ML_digits r
      | _ => has_ML_digits r
      end
  end.

(** ** Dictionaries *)

Fixpoint dict_get {V} (k : string) (d : list (string * V)) : option V :=
  match d with
  | [] => None
  | (k', v) :: d' => if String.eqb k k' then Some v else dict_get k d'
  end.

(** [d[k] = v]: an existing key keeps its place, a new one goes last. *)
Fixpoint dict_set {V} (k : string) (v : V) (d : list (string * V))
  : list (string * V) :=
  match d with
  | [] => [(k, v)]
  | (k', v') :: d' =>
      if String.eqb k k' then (k, v) :: d' else (k', v') :: dict_set k v d'
  end.

Definition dict_keys {V} (d : list (string * V)) : list string := map fst d.

Definition dict_has {V} (k : string) (d : list (string * V)) : bool :=
  match dict_get k d with Some _ => true | None => false end.

(** ** Tensors, datasets and batches *)

Inductive tensor : Type :=
| Tensor1 (v : list Z)
| Tensor2 (m : list (list Z)).

(** [TensorDataset(all_input_ids, all_attention_mask, all_token_type_ids,
    all_labels)]: four tensors with one row per feature. *)
Record TensorDataset : Type := mkTensorDataset {
  all_input_ids : list (list Z);
  all_attention_mask : list (list Z);
  all_token_type_ids : list (list Z);
  all_labels : list Z
}.

Definition dataset_len (ds : TensorDataset) : nat :=
  List.length (all_input_ids ds).

(** A batch is the tuple [(batch[0], batch[1], batch[2], batch[3])]. *)
Record Batch : Type := mkBatch {
  batch0 : list (list Z);
  batch1 : list (list Z);
  batch2 : list (list Z);
  batch3 : list Z
}.

Definition take_batch (n : nat) (ds : TensorDataset) : Batch :=
  mkBatch (firstn n (all_input_ids ds)) (firstn n (all_attention_mask ds))
          (firstn n (all_token_type_ids ds)) (firstn n (all_labels ds)).

Definition drop_batch (n : nat) (ds : TensorDataset) : TensorDataset :=
  mkTensorDataset (skipn n (all_input_ids ds)) (skipn n (all_attention_mask ds))
                  (skipn n (all_token_type_ids ds)) (skipn n (all_labels ds)).

(** The batches of a [SequentialSampler]: rows [0..bs-1], [bs..2bs-1], ...
    in order, the last one possibly shorter.  [fuel] bounds their number. *)
Fixpoint sequential_batches (fuel bs : nat) (ds : TensorDataset) : list Batch :=
  match fuel with
  | O => []
  | S fuel' =>
      match dataset_len ds with
      | O => []
      | S _ => take_batch bs ds :: sequential_batches fuel' bs (drop_batch bs ds)
      end
  end.

(** [DataLoader(eval_dataset, sampler=SequentialSampler(eval_dataset),
    batch_size=args.batch_size)], lines 206-209; a batch size that is not
    positive is refused. *)
Definition DataLoader (ds : TensorDataset) (batch_size : Z)
  : result (list Batch) :=
  if (batch_size <=? 0)%Z then Raise ValueError
  else Ok (sequential_batches (dataset_len ds) (Z.to_nat batch_size) ds).

(** [torch.tensor(rows, dtype=torch.long)] needs rows of one length. *)
Definition rectangular (rows : list (list Z)) : bool :=
  match rows with
  | [] => true
  | r :: rs => forallb (fun r' => List.length r' =? List.length r)%nat rs
  end.

Definition torch_tensor (rows : list (list Z)) : result (list (list Z)) :=
  if rectangular rows then Ok rows else Raise ValueError.

(** The keyword arguments of the model call, lines 127-135.  A value
    [None] is Python's [None]; a key that is not bound is absent. *)
Definition build_inputs (model_type : string) (batch : Batch)
  : list (string * option tensor) :=
  let inputs := [("input_ids", Some (Tensor2 (batch0 batch)));
                 ("attention_mask", Some (Tensor2 (batch1 batch)));
                 ("labels", Some (Tensor1 (batch3 batch)))] in
  if negb (String.eqb model_type "distilbert") then
    dict_set "token_type_ids"
             (if existsb (String.eqb model_type) ["bert"]
              then Some (Tensor2 (batch2 batch)) else None)
             inputs
  else inputs.

Record InputFeatures : Type := mkInputFeatures {
  input_ids : list Z;
  attention_mask : list Z;
  token_type_ids : list Z;
  f_label : Z
}.

(** ** JSON values: the content of a corpus file after [json.load] *)

Section Json.

(** Floating-point numbers (logits and probabilities). *)
Variable num : Type.

Inductive json : Type :=
| JNull
| JBool (b : bool)
| JInt (z : Z)
| JFloat (x : num)
| JStr (s : string)
| JList (l : list json)
| JDict (d : list (string * json)).

(** [j[k]] for a string key. *)
Definition getitem (j : json) (k : string) : result json :=
  match j with
  | JDict d =>
      match dict_get k d with
      | Some v => Ok v
      | None => Raise (KeyError k)
      end
  | _ => Raise TypeError
  end.

(** [j.keys()]. *)
Definition json_keys (j : json) : result (list string) :=
  match j with
  | JDict d => Ok (dict_keys d)
  | _ => Raise AttributeError
  end.

Record InputExample : Type := mkInputExample {
  guid : string;
  text_a : json;
  text_b : json;
  language : string;
  label : string
}.

End Json.

Arguments JNull {num}.
Arguments JBool {num} b.
Arguments JInt {num} z.
Arguments JStr {num} s.
Arguments JList {num} l.
Arguments JDict {num} d.

(** ** What the script takes from elsewhere *)

Class Externals : Type := {
  (** floating-point numbers *)
  num : Type;
  Tokenizer : Type;
  Model : Type;
  (** Python's [str] on a JSON value *)
  py_str : json num -> string;
  (** the tokenization of one example to [max_length] ids (the label list,
      the padding side and the padding ids are fixed by the call at lines
      81-90) *)
  convert_example : Tokenizer -> Z -> InputExample num -> result InputFeatures;
  (** [model( **inputs)[1]]: the logits, one row per row of the batch *)
  forward : Model -> list (string * option tensor) -> list (list num);
  (** [scipy.special.softmax] on one row (the call is along axis 1) *)
  softmax : list num -> list num;
  (** [tokenizer_class.from_pretrained(model_path, do_lower_case=...)] and
      [model_class.from_pretrained(model_path)], for the classes that
      [MODEL_CLASSES] gives for a model type *)
  tokenizer_from_pretrained : string -> string -> bool -> result Tokenizer;
  model_from_pretrained : string -> string -> result Model;
  (** [json.dump(store, f, ensure_ascii=False)]: the exception that
      writing a value to the file raises, if it raises one *)
  json_dump_error : json num -> option exn
}.

Section Pipeline.

Context {E : Externals}.

(** Modelled from the spec: [convert_examples_to_features] lives in
    [paws_x/utils.py], which is not among the sources; by section 4.1 of
    the spec it encodes each example on its own and keeps their order. *)
Definition convert_examples_to_features (examples : list (InputExample num))
    (tokenizer : Tokenizer) (max_length : Z) : result (list InputFeatures) :=
  mapM (convert_example tokenizer max_length) examples.

(** ** [prepare_prediction_data] *)

(** One [InputExample(...)] of lines 66-78, its arguments read in order. *)
Definition input_example (store : json num) (key side lang : string)
  : result (InputExample num) :=
  r1 <- getitem store key ;;
  so <- getitem r1 "sentence_original" ;;
  a <- getitem so side ;;
  r2 <- getitem store key ;;
  sp <- getitem r2 "sentence_paraphrase" ;;
  b <- getitem sp side ;;
  r3 <- getitem store key ;;
  gl <- getitem r3 "gold_label" ;;
  Ok (mkInputExample key a b lang (py_str gl)).

(** Lines 91-102. *)
Definition build_dataset (features : list InputFeatures) : result TensorDataset :=
  ids <- torch_tensor (map input_ids features) ;;
  mask <- torch_tensor (map attention_mask features) ;;
  segs <- torch_tensor (map token_type_ids features) ;;
  Ok (mkTensorDataset ids mask segs (map f_label features)).

Definition prepare_prediction_data (store : json num) (tokenizer : Tokenizer)
    (max_seq_length : Z) : result (list TensorDataset) :=
  keys <- json_keys store ;;
  both <- mapM (fun key =>
                  s <- input_example store key "source" "de" ;;
                  t <- input_example store key "target" "en" ;;
                  Ok (s, t)) keys ;;
  let examples_source := map fst both in
  let examples_target := map snd both in
  mapM (fun examples =>
          features <- convert_examples_to_features examples tokenizer
                                                   max_seq_length ;;
          build_dataset features)
       [examples_source; examples_target].

(** ** [predict] *)

(** The loop of lines 123-141; [preds] is [None] until the first batch. *)
Fixpoint predict_loop (model : Model) (model_type : string)
    (batches : list Batch) (preds : option (list (list num)))
  : option (list (list num)) :=
  match batches with
  | [] => preds
  | batch :: rest =>
      let logits := forward model (build_inputs model_type batch) in
      predict_loop model model_type rest
        (match preds with
         | None => Some logits
         | Some p => Some (p ++ logits)
         end)
  end.

(** [softmax(preds, axis=1)[:, 1]], line 142: [softmax] of [None] raises;
    column 1 of a row that has no second entry is an [IndexError]. *)
Definition softmax_column1 (preds : option (list (list num)))
  : result (list num) :=
  match preds with
  | None => Raise ValueError
  | Some rows =>
      mapM (fun row => match nth_error (softmax row) 1 with
                       | Some x => Ok x
                       | None => Raise IndexError
                       end) rows
  end.

Definition predict (model : Model) (eval_dataloader : list Batch)
    (model_type : string) : result (list num) :=
  softmax_column1 (predict_loop model model_type eval_dataloader None).

(** ** The state of [main]

    Every [predict(...).tolist()] makes a new list object.  [calls] holds
    them in the order of their creation, each with the place of the call:
    the positions of the checkpoint in [model_paths] and of the file in
    [input_files], and the direction.  A reference is a position in
    [calls].  [uses] records, for each direction of each file, the list
    that [preds] refers to when the results are written (lines 225-226).
    Both are bookkeeping: no step reads the place of a call or [uses]. *)

Record call : Type := mkCall {
  c_ckpt : nat;
  c_file : nat;
  c_dir : nat;
  c_result : list num
}.

Record use : Type := mkUse {
  u_ckpt : nat;
  u_file : nat;
  u_dir : nat;
  u_ref : nat
}.

(** [fs] maps a path to the JSON value in the file, [None] for a file that
    [json.load] cannot parse. *)
Record world : Type := mkWorld {
  fs : list (string * option (json num));
  calls : list call;
  uses : list use
}.

(** The local variables of [main] that live across iterations.  [preds]
    is [None] while unbound; a cache is [None] when it is Python's
    [None]. *)
Record locals : Type := mkLocals {
  preds : option (option nat);
  wmt_source_cache : option nat;
  ar_source_cache : option nat
}.

Record arguments : Type := mkArguments {
  batch_size : Z;
  do_lower_case : bool
}.

(** What lines 175-190 fix for one checkpoint, with its position. *)
Record checkpoint : Type := mkCheckpoint {
  ck_index : nat;
  metadata : string;
  model_type : string;
  max_seq_length : Z;
  tokenizer : Tokenizer;
  model : Model
}.

Definition is_none {A} (o : option A) : bool :=
  match o with None => true | Some _ => false end.

Definition add_call (w : world) (cl : call) : world :=
  mkWorld (fs w) (calls w ++ [cl]) (uses w).

Definition add_use (w : world) (u : use) : world :=
  mkWorld (fs w) (calls w) (uses w ++ [u]).

Definition set_preds (l : locals) (v : option nat) : locals :=
  mkLocals (Some v) (wmt_source_cache l) (ar_source_cache l).

Definition set_ar_source_cache (l : locals) (v : option nat) : locals :=
  mkLocals (preds l) (wmt_source_cache l) v.

Definition set_wmt_source_cache (l : locals) (v : option nat) : locals :=
  mkLocals (preds l) v (ar_source_cache l).

(** ** One direction of one file, lines 201-226 *)

(** The condition of lines 203-204. *)
Definition should_compute (i : nat) (filename : string) (l : locals) : bool :=
  (i =? 1)%nat
  || (str_in "arp" filename && is_none (ar_source_cache l))
  || (str_in "wmtp" filename && is_none (wmt_source_cache l)).

(** Lines 206-210. *)
Definition run_engine (args : arguments) (ck : checkpoint)
    (eval_dataset : TensorDataset) : result (list num) :=
  eval_dataloader <- DataLoader eval_dataset (batch_size args) ;;
  predict (model ck) eval_dataloader (model_type ck).

(** Lines 211-215: the new list, at reference [a], goes into the cache
    of the tag of the file name when the direction is the source. *)
Definition store_in_cache (i : nat) (filename : string) (a : nat)
    (l : locals) : locals :=
  if (i =? 0)%nat then
    if str_in "arp" filename then set_ar_source_cache l (Some a)
    else if str_in "wmtp" filename then set_wmt_source_cache l (Some a)
         else l
  else l.

(** Lines 218-221. *)
Definition take_from_cache (filename : string) (l : locals) : locals :=
  if str_in "arp" filename then set_preds l (ar_source_cache l)
  else if str_in "wmtp" filename then set_preds l (wmt_source_cache l)
       else l.

(** Lines 203-221: [preds] and the caches after the choice between the
    engine and the cache. *)
Definition obtain_preds (args : arguments) (ck : checkpoint) (k : nat)
    (filename : string) (i : nat) (eval_dataset : TensorDataset)
    (l : locals) (w : world) : world * result locals :=
  if should_compute i filename l then
    match run_engine args ck eval_dataset with
    | Raise e => (w, Raise e)
    | Ok v =>
        let a := List.length (calls w) in
        (add_call w (mkCall (ck_index ck) k i v),
         Ok (store_in_cache i filename a (set_preds l (Some a))))
    end
  else (w, Ok (take_from_cache filename l)).

(** [v[j]] for a list [v]. *)
Definition list_item (v : list num) (j : nat) : result num :=
  match nth_error v j with
  | Some x => Ok x
  | None => Raise IndexError
  end.

(** [preds[j]]. *)
Definition preds_item (w : world) (l : locals) (j : nat) : result num :=
  match preds l with
  | None => Raise NameError
  | Some None => Raise TypeError
  | Some (Some a) =>
      match nth_error (calls w) a with
      | None => Raise NameError
      | Some cl => list_item (c_result cl) j
      end
  end.

(** Lines 225-226, [store[key].update({entry: preds[j]})] for the [j]-th
    key: the entries of the dictionary are visited in order (its keys are
    unique, so [store[key]] is the entry at hand). *)
Fixpoint merge_rows (entry : string) (item : nat -> result num) (j : nat)
    (d : list (string * json num)) : result (list (string * json num)) :=
  match d with
  | [] => Ok []
  | (key, JDict fields) :: d' =>
      x <- item j ;;
      rest <- merge_rows entry item (S j) d' ;;
      Ok ((key, JDict (dict_set entry (JFloat x) fields)) :: rest)
  | (key, _) :: _ => Raise AttributeError
  end.

Definition merge_results (entry : string) (item : nat -> result num)
    (store : json num) : result (json num) :=
  match store with
  | JDict d => d' <- merge_rows entry item 0 d ;; Ok (JDict d')
  | _ => Raise AttributeError
  end.

(** Lines 223-224. *)
Definition entry_name (metadata : string) (i : nat) : string :=
  metadata ++ "_" ++ (if (i =? 0)%nat then "source" else "target").

Definition log_use (ck : checkpoint) (k i : nat) (l : locals) (w : world)
  : world :=
  match preds l with
  | Some (Some a) => add_use w (mkUse (ck_index ck) k i a)
  | _ => w
  end.

(** [for k, x in enumerate(items)] from position [k], over a state [s];
    a raise leaves the loop. *)
Fixpoint for_enumerate {A St : Type}
    (body : nat -> A -> St -> world -> world * result St)
    (k : nat) (items : list A) (s : St) (w : world) : world * result St :=
  match items with
  | [] => (w, Ok s)
  | x :: rest =>
      match body k x s w with
      | (w', Raise e) => (w', Raise e)
      | (w', Ok s') => for_enumerate body (S k) rest s' w'
      end
  end.

(** The body of the loop of line 201; its state is the local variables
    and the dictionary [store]. *)
Definition direction_step (args : arguments) (ck : checkpoint) (k : nat)
    (filename : string) (i : nat) (eval_dataset : TensorDataset)
    (s : locals * json num) (w : world)
  : world * result (locals * json num) :=
  match obtain_preds args ck k filename i eval_dataset (fst s) w with
  | (w1, Raise e) => (w1, Raise e)
  | (w1, Ok l1) =>
      let w2 := log_use ck k i l1 w1 in
      match merge_results (entry_name (metadata ck) i) (preds_item w2 l1)
                          (snd s) with
      | Raise e => (w2, Raise e)
      | Ok store' => (w2, Ok (l1, store'))
      end
  end.

(** ** One input file, lines 195-228 *)

(** [open(input_file, "r")] and [json.load]. *)
Definition read_json (input_file : string) (w : world) : result (json num) :=
  match dict_get input_file (fs w) with
  | None => Raise OSError
  | Some None => Raise JSONDecodeError
  | Some (Some j) => Ok j
  end.

(** [open(input_file, "w")] and a [json.dump] that returns. *)
Definition write_json (input_file : string) (store : json num) (w : world)
  : world :=
  mkWorld (dict_set input_file (Some store) (fs w)) (calls w) (uses w).

(** [open(input_file, "w")] and a [json.dump] that raises: opening has
    emptied the file, and what is left of it does not parse. *)
Definition spoil_file (input_file : string) (w : world) : world :=
  mkWorld (dict_set input_file None (fs w)) (calls w) (uses w).

Definition file_step (args : arguments) (ck : checkpoint) (k : nat)
    (input_file : string) (l : locals) (w : world) : world * result locals :=
  let filename := basename input_file in
  match (store <- read_json input_file w ;;
         eval_datasets <- prepare_prediction_data store (tokenizer ck)
                                                  (max_seq_length ck) ;;
         Ok (store, eval_datasets)) with
  | Raise e => (w, Raise e)
  | Ok (store, eval_datasets) =>
      match for_enumerate (direction_step args ck k filename) 0 eval_datasets
                          (l, store) w with
      | (w', Raise e) => (w', Raise e)
      | (w', Ok (l', store')) =>
          match json_dump_error store' with
          | None => (write_json input_file store' w', Ok l')
          | Some e => (spoil_file input_file w', Raise e)
          end
      end
  end.

(** ** One checkpoint, lines 175-228 *)

(** Lines 175-190. *)
Definition load_checkpoint (args : arguments) (c : nat) (model_path : string)
  : result checkpoint :=
  let metadata := basename (dirname model_path) in
  let model_type := infer_model_type metadata in
  max_seq_length <- infer_max_seq_length metadata ;;
  tokenizer <- tokenizer_from_pretrained model_type model_path
                                         (do_lower_case args) ;;
  model <- model_from_pretrained model_type model_path ;;
  Ok (mkCheckpoint c metadata model_type max_seq_length tokenizer model).

(** Lines 192-193. *)
Definition reset_caches (l : locals) : locals :=
  mkLocals (preds l) None None.

(** The body of the loop of line 174; [c] is the position of
    [model_path] in [model_paths], [k] that of a file in [input_files]. *)
Definition checkpoint_step (args : arguments) (input_files : list string)
    (c : nat) (model_path : string) (l : locals) (w : world)
  : world * result locals :=
  match load_checkpoint args c model_path with
  | Raise e => (w, Raise e)
  | Ok ck => for_enumerate (file_step args ck) 0 input_files (reset_caches l) w
  end.

(** ** [main]

    [input_files] and [model_paths] are what the two [glob] calls return
    and [fs0] is the content of the files.  [preds] is unbound when the
    loop starts; the caches are assigned (lines 192-193) before they are
    read. *)
Definition initial_locals : locals := mkLocals None None None.

Definition main (args : arguments) (input_files model_paths : list string)
    (fs0 : list (string * option (json num))) : world * result locals :=
  for_enumerate (checkpoint_step args input_files) 0 model_paths
                initial_locals (mkWorld fs0 [] []).

(** ** Notions used to state the properties *)

Definition has_tag (filename : string) : bool :=
  str_in "arp" filename || str_in "wmtp" filename.

Definition wmtp_only (filename : string) : bool :=
  str_in "wmtp" filename && negb (str_in "arp" filename).

(** The call was made under checkpoint [c] for direction [i] of file [k]. *)
Definition call_at (c k i : nat) (cl : call) : Prop :=
  c_ckpt cl = c /\ c_file cl = k /\ c_dir cl = i.

(** The engine ran for direction [i] of file [k] under checkpoint [c]. *)
Definition engine_invoked_for (w : world) (c k i : nat) : Prop :=
  exists cl, In cl (calls w) /\ call_at c k i cl.

(** The list at reference [a] was computed under checkpoint [c]. *)
Definition from_checkpoint (c : nat) (w : world) (a : nat) : Prop :=
  exists cl, nth_error (calls w) a = Some cl /\ c_ckpt cl = c.

(** What is written for direction [i] of file [k] under checkpoint [c] is
    the result of the engine's own run for it. *)
Definition computed_fresh (w : world) (c k i : nat) : Prop :=
  forall a, In (mkUse c k i a) (uses w) ->
            exists cl, nth_error (calls w) a = Some cl /\ call_at c k i cl.

(** Under checkpoint [c], what is written for the source direction of file
    [k2] is the list written for the source direction of file [k1], and
    the engine does not run for the source direction of [k2]. *)
Definition source_served_from (w : world) (c k1 k2 : nat) : Prop :=
  (forall a, In (mkUse c k2 0 a) (uses w) -> In (mkUse c k1 0 a) (uses w))
  /\ ~ engine_invoked_for w c k2 0.

(** No list is used under another checkpoint than the one it was computed
    under. *)
Definition checkpoints_isolated (w : world) : Prop :=
  forall u, In u (uses w) -> from_checkpoint (u_ckpt u) w (u_ref u).

(** The lists that the caches, and [preds], refer to were computed under
    checkpoint [c]. *)
Definition caches_from (c : nat) (w : world) (l : locals) : Prop :=
  (forall a, ar_source_cache l = Some a -> from_checkpoint c w a)
  /\ (forall a, wmt_source_cache l = Some a -> from_checkpoint c w a).

Definition preds_from (c : nat) (w : world) (l : locals) : Prop :=
  forall a, preds l = Some (Some a) -> from_checkpoint c w a.

(** The first input file, if there is one, has a tag in its name. *)
Definition first_tagged (input_files : list string) : bool :=
  match input_files with
  | [] => true
  | f :: _ => has_tag (basename f)
  end.

(** Under checkpoint [c], every file before position [k] that has the
    tag wmtp only has left in the wmtp cache the list written for its
    source direction. *)
Definition wmtp_cached (input_files : list string) (c k : nat) (l : locals)
    (w : world) : Prop :=
  forall k1 f1, (k1 < k)%nat -> nth_error input_files k1 = Some f1 ->
    wmtp_only (basename f1) = true ->
    exists a, wmt_source_cache l = Some a /\ In (mkUse c k1 0 a) (uses w).

(** [preds] is unbound or refers to a list. *)
Definition preds_usable (l : locals) : Prop :=
  preds l = None \/ exists a, preds l = Some (Some a).

(** The reuse between any two files with the tag wmtp only. *)
Definition wmtp_reuse (input_files : list string) (w : world) : Prop :=
  forall c k1 k2 f1 f2, (k1 < k2)%nat ->
    nth_error input_files k1 = Some f1 -> nth_error input_files k2 = Some f2 ->
    wmtp_only (basename f1) = true -> wmtp_only (basename f2) = true ->
    source_served_from w c k1 k2.

(** The feature of the pair of one key in one direction. *)
Definition feature_of (store : json num) (tok : Tokenizer) (max_length : Z)
    (side lang key : string) : result InputFeatures :=
  ex <- input_example store key side lang ;;
  convert_example tok max_length ex.

Definition dataset_of (features : list InputFeatures) : TensorDataset :=
  mkTensorDataset (map input_ids features) (map attention_mask features)
                  (map token_type_ids features) (map f_label features).

Definition features_rectangular (features : list InputFeatures) : bool :=
  rectangular (map input_ids features)
  && rectangular (map attention_mask features)
  && rectangular (map token_type_ids features).

(** The fields of a record before and after the results of one checkpoint
    are merged into it: the two fields of the checkpoint hold numbers,
    every field of another name is as before, and a record that had
    neither of the two has them appended. *)
Definition merged_record (metadata : string)
    (fields fields' : list (string * json num)) : Prop :=
  let src := entry_name metadata 0 in
  let tgt := entry_name metadata 1 in
  exists xs xt,
    (forall name, name <> src -> name <> tgt ->
                  dict_get name fields' = dict_get name fields)
    /\ dict_get src fields' = Some (JFloat xs)
    /\ dict_get tgt fields' = Some (JFloat xt)
    /\ (dict_has src fields = false -> dict_has tgt fields = false ->
        fields' = fields ++ [(src, JFloat xs); (tgt, JFloat xt)]).

(** The merge as the spec words it: every field is as before and there
    are exactly two more. *)
Definition purely_additive (fields fields' : list (string * json num)) : Prop :=
  (forall name v, dict_get name fields = Some v ->
                  dict_get name fields' = Some v)
  /\ List.length fields' = (List.length fields + 2)%nat.

(** The guarantee of the engine as the spec words its length part: a
    vector with one entry per row of the group. *)
Definition engine_returns_vector (args : arguments) (ck : checkpoint)
    (ds : TensorDataset) : Prop :=
  exists v, run_engine args ck ds = Ok v /\ List.length v = dataset_len ds.

(** ** Further notions *)

(** Every record of the dictionary is itself a dictionary. *)
Definition all_dicts (d : list (string * json num)) : bool :=
  forallb (fun kv => match snd kv with JDict _ => true | _ => false end) d.






(** Every record of the file at path [p] has both result fields of the
    checkpoint with metadata [m]. *)
Definition file_has_results (w : world) (p m : string) : Prop :=
  exists d,
    dict_get p (fs w) = Some (Some (JDict d))
    /\ Forall (fun kv => exists fields,
                  snd kv = JDict fields
                  /\ dict_has (entry_name m 0) fields = true
                  /\ dict_has (entry_name m 1) fields = true) d.

(** What the records of the file at path [p] hold in the field [entry],
    key by key. *)
Definition stored_column (w : world) (p entry : string)
  : option (list (option (json num))) :=
  match dict_get p (fs w) with
  | Some (Some (JDict d)) =>
      Some (map (fun kv => match snd kv with
                           | JDict fields => dict_get entry fields
                           | _ => None
                           end) d)
  | _ => None
  end.

(** Line 175. *)
Definition metadata_of (model_path : string) : string :=
  basename (dirname model_path).

(** In the corpus of the file at path [p], the record of the [j]-th key
    holds, in the field of metadata [m] and direction [i], the [j]-th
    entry of the list [v], for every key. *)
Definition field_holds (w : world) (p m : string) (i : nat) (v : list num)
  : Prop :=
  exists d,
    dict_get p (fs w) = Some (Some (JDict d))
    /\ forall j kv, nth_error d j = Some kv ->
         exists fields x,
           snd kv = JDict fields /\ nth_error v j = Some x
           /\ dict_get (entry_name m i) fields = Some (JFloat x).

(** Every use recorded so far is of a checkpoint before [c], or of
    checkpoint [c] and a file before position [k]; and for every recorded
    use, the file of that position holds the list of the use in the field
    of that checkpoint and direction. *)
Definition uses_written (input_files model_paths : list string) (c k : nat)
    (w : world) : Prop :=
  (forall u, In u (uses w) ->
     (u_ckpt u < c)%nat \/ (u_ckpt u = c /\ (u_file u < k)%nat))
  /\ forall c' model_path k' f i a,
       nth_error model_paths c' = Some model_path ->
       nth_error input_files k' = Some f ->
       In (mkUse c' k' i a) (uses w) ->
       exists cl, nth_error (calls w) a = Some cl
                  /\ field_holds w f (metadata_of model_path) i (c_result cl).

(** The list at reference [a] is the result of the engine's run, under
    checkpoint [c], for the source direction of a file with the tag wmtp
    only at a position up to [k]. *)
Definition wmtp_origin (input_files : list string) (c k : nat) (w : world)
    (a : nat) : Prop :=
  exists cl k0 f0,
    nth_error (calls w) a = Some cl /\ call_at c k0 0 cl /\ (k0 <= k)%nat
    /\ nth_error input_files k0 = Some f0
    /\ wmtp_only (basename f0) = true.

(** Every list used for the source direction of a file with the tag wmtp
    only has such an origin. *)
Definition wmtp_sources_traced (input_files : list string) (w : world)
  : Prop :=
  forall c k f a,
    nth_error input_files k = Some f -> wmtp_only (basename f) = true ->
    In (mkUse c k 0 a) (uses w) -> wmtp_origin input_files c k w a.

(** The list in the wmtp cache has such an origin. *)
Definition wmtp_cache_traced (input_files : list string) (c k : nat)
    (l : locals) (w : world) : Prop :=
  forall a, wmt_source_cache l = Some a -> wmtp_origin input_files c k w a.

(** What is written for the source direction of a file without a tag
    that is not the first is the list computed for the target direction
    of the file before it, and the engine does not run for it. *)
Definition untagged_stale (input_files : list string) (w : world) : Prop :=
  forall c k f, nth_error input_files (S k) = Some f ->
    has_tag (basename f) = false ->
    (forall a, In (mkUse c (S k) 0 a) (uses w) ->
               exists cl, nth_error (calls w) a = Some cl /\ call_at c k 1 cl)
    /\ ~ engine_invoked_for w c (S k) 0.

(** [preds] refers to the list computed for direction [i] of file [k]
    under checkpoint [c]. *)
Definition preds_at (c k i : nat) (l : locals) (w : world) : Prop :=
  exists a cl, preds l = Some (Some a)
               /\ nth_error (calls w) a = Some cl /\ call_at c k i cl.

End Pipeline.

(** ** A small instance to run the definitions on

    Numbers are integers; the tokenizer encodes a sentence pair by the
    lengths of its two sentences; the classifier returns for a row the
    logits [0] and its own number plus the sum of the row; [softmax] is
    left out. *)

Definition sentence_length (j : json Z) : Z :=
  match j with
  | JStr s => Z.of_nat (String.length s)
  | _ => 0%Z
  end.

Definition sample_forward (m : Z) (inputs : list (string * option tensor))
  : list (list Z) :=
  match dict_get "input_ids" inputs with
  | Some (Some (Tensor2 rows)) =>
      map (fun r => [0%Z; fold_left Z.add r m]) rows
  | _ => []
  end.

Definition sample_externals : Externals := {|
  num := Z;
  Tokenizer := unit;
  Model := Z;
  py_str := fun _ => "1";
  convert_example := fun _ _ ex =>
    Ok (mkInputFeatures [sentence_length (text_a ex); sentence_length (text_b ex)]
                        [1%Z; 1%Z] [0%Z; 1%Z] 1%Z);
  forward := sample_forward;
  softmax := fun row => row;
  tokenizer_from_pretrained := fun _ _ _ => Ok tt;
  model_from_pretrained := fun _ path =>
    Ok (fold_right (fun ch acc => Z.of_nat (nat_of_ascii ch) + acc)%Z 0%Z
                   (list_ascii_of_string path));
  json_dump_error := fun _ => None
|}.

Definition sample_record (s1 s2 t1 t2 : string) : json Z :=
  JDict [("sentence_original", JDict [("source", JStr s1); ("target", JStr t1)]);
         ("sentence_paraphrase", JDict [("source", JStr s2); ("target", JStr t2)]);
         ("gold_label", JInt 1)].

Definition sample_store_a : json Z :=
  JDict [("0", sample_record "ab" "abc" "x" "xy");
         ("1", sample_record "abcd" "ab" "xyz" "xyzw")].

(** The same source sentences, other target sentences. *)
Definition sample_store_b : json Z :=
  JDict [("0", sample_record "ab" "abc" "xyzwv" "x");
         ("1", sample_record "abcd" "ab" "xyzwvu" "xy")].

Definition sample_args : arguments := mkArguments 1 false.

Definition sample_main (input_files model_paths : list string)
    (fs0 : list (string * option (json Z))) :=
  @main sample_externals sample_args input_files model_paths fs0.

(** A file without a tag after a file with the tag wmtp. *)
Definition untagged_run :=
  sample_main ["d/wmtp_a.json"; "d/plain.json"] ["m/bert_ML8/ckpt"]
              [("d/wmtp_a.json", Some sample_store_a);
               ("d/plain.json", Some sample_store_b)].

(** A file without a tag alone. *)
Definition untagged_alone_run :=
  sample_main ["d/plain.json"] ["m/bert_ML8/ckpt"]
              [("d/plain.json", Some sample_store_b)].

(** Two files with the tag wmtp only. *)
Definition wmtp_run :=
  sample_main ["d/wmtp_a.json"; "d/wmtp_b.json"] ["m/bert_ML8/ckpt"]
              [("d/wmtp_a.json", Some sample_store_a);
               ("d/wmtp_b.json", Some sample_store_b)].

(** Two files with the tag wmtp, the first with the tag arp as well. *)
Definition both_tags_run :=
  sample_main ["d/arp_wmtp_a.json"; "d/wmtp_b.json"] ["m/bert_ML8/ckpt"]
              [("d/arp_wmtp_a.json", Some sample_store_a);
               ("d/wmtp_b.json", Some sample_store_b)].

(** A file with the tag arp, a file with the tag wmtp, and a file with
    both tags; the first has other source sentences. *)
Definition sample_store_c : json Z :=
  JDict [("0", sample_record "abcdefgh" "abc" "x" "xy");
         ("1", sample_record "abcdefghij" "ab" "xyz" "xyzw")].

Definition arp_first_run :=
  sample_main ["d/arp_x.json"; "d/wmtp_a.json"; "d/arp_wmtp_b.json"]
              ["m/bert_ML8/ckpt"]
              [("d/arp_x.json", Some sample_store_c);
               ("d/wmtp_a.json", Some sample_store_a);
               ("d/arp_wmtp_b.json", Some sample_store_b)].

(** Two files with the tag wmtp only, under two checkpoints. *)
Definition two_checkpoint_run :=
  sample_main ["d/wmtp_a.json"; "d/wmtp_b.json"]
              ["m/bert_ML8/ckpt"; "m/bert_ML9/ckpt"]
              [("d/wmtp_a.json", Some sample_store_a);
               ("d/wmtp_b.json", Some sample_store_b)].

(** A checkpoint whose directory name has no sequence length, before a
    well-named one. *)
Definition malformed_run :=
  sample_main ["d/wmtp_a.json"] ["m/bert-base/ckpt"; "m/bert_ML8/ckpt"]
              [("d/wmtp_a.json", Some sample_store_a)].

Definition sample_checkpoint : @checkpoint sample_externals :=
  @mkCheckpoint sample_externals 0 "bert_ML8" "bert" 8%Z tt 0%Z.

Definition sample_world (store : json Z) : @world sample_externals :=
  @mkWorld sample_externals [("d/wmtp_a.json", Some store)] [] [].

Definition sample_batch : Batch :=
  mkBatch [[2; 3]; [4; 1]]%Z [[1; 1]; [1; 1]]%Z [[0; 1]; [0; 1]]%Z [1; 1]%Z.

(** A record that already has a source result of checkpoint [bert_ML8]. *)
Definition sample_store_rerun : json Z :=
  JDict [("0", JDict [("sentence_original",
                       JDict [("source", JStr "ab"); ("target", JStr "x")]);
                      ("sentence_paraphrase",
                       JDict [("source", JStr "abc"); ("target", JStr "xy")]);
                      ("gold_label", JInt 1);
                      ("bert_ML8_source", JFloat 7%Z)])].

(** ** The softmax over the reals

    [scipy.special.softmax] shifts a row by its maximum, exponentiates
    and divides by the sum.  Here it is over the real numbers: rounding,
    infinities and NaN are not part of the model. *)

Definition Rsum (l : list R) : R := fold_right Rplus 0%R l.

Definition Rmax_list (l : list R) : R :=
  match l with
  | [] => 0%R
  | x :: l' => fold_right Rmax x l'
  end.

Definition softmax_R (row : list R) : list R :=
  let x_max := Rmax_list row in
  let exp_x_shifted := map (fun x => exp (x - x_max)) row in
  map (fun e => (e / Rsum exp_x_shifted)%R) exp_x_shifted.

(** The externals with real logits and this softmax. *)
Definition real_externals (Tok Mod : Type)
    (str : json R -> string)
    (conv : Tok -> Z -> InputExample R -> result InputFeatures)
    (fwd : Mod -> list (string * option tensor) -> list (list R))
    (load_tok : string -> string -> bool -> result Tok)
    (load_mod : string -> string -> result Mod)
    (dump_error : json R -> option exn) : Externals := {|
  num := R;
  Tokenizer := Tok;
  Model := Mod;
  py_str := str;
  convert_example := conv;
  forward := fwd;
  softmax := softmax_R;
  tokenizer_from_pretrained := load_tok;
  model_from_pretrained := load_mod;
  json_dump_error := dump_error
|}.

(** * Properties *)

Unset Implicit Arguments.

(** ** Strings and names *)

Lemma prefix_app needle b : prefix needle (needle ++ b)%string = true.
Proof.
  induction needle as [|n needle IH]; simpl; [now destruct b|].
  rewrite IH. now destruct (ascii_dec n n).
Qed.

Lemma prefix_split needle s :
  prefix needle s = true -> exists b, s = (needle ++ b)%string.
Proof.
  revert s. induction needle as [|n needle IH]; intros s Hp.
  - now exists s.
  - destruct s as [|c s]; simpl in Hp; [discriminate|].
    destruct (ascii_dec n c) as [->|]; [|discriminate].
    destruct (IH s Hp) as (b & ->). now exists b.
Qed.

Lemma str_in_correct needle hay :
  str_in needle hay = true <-> exists a b, hay = (a ++ needle ++ b)%string.
Proof.
  induction hay as [|c hay IH].
  - unfold str_in. destruct (prefix needle "") eqn:Hp.
    + split; [intros _|reflexivity].
      destruct (prefix_split _ _ Hp) as (b & Hb). now exists "", b.
    + split; [discriminate|].
      intros (a & b & H). destruct a; [|discriminate].
      simpl in H. rewrite H, prefix_app in Hp. discriminate.
  - change (str_in needle (String c hay))
      with (if prefix needle (String c hay) then true else str_in needle hay).
    destruct (prefix needle (String c hay)) eqn:Hp.
    + split; [intros _|reflexivity].
      destruct (prefix_split _ _ Hp) as (b & Hb). now exists "", b.
    + rewrite IH. split.
      * intros (a & b & ->). now exists (String c a), b.
      * intros (a & b & H). destruct a as [|c' a]; simpl in H.
        -- rewrite H, prefix_app in Hp. discriminate.
        -- injection H as -> ->. now exists a, b.
Qed.

Lemma take_digits_nondigit s :
  match s with String d _ => is_digit d = false | EmptyString => True end ->
  take_digits s = "".
Proof. destruct s as [|d s]; simpl; [reflexivity|]. now intros ->. Qed.

Lemma search_without_pattern s :
  has_ML_digits s = false ->
  re_search_ML s = None \/ re_search_ML s = Some "".
Proof.
  induction s as [|c r IH]; simpl; [now left|].
  destruct r as [|c2 rest]; [now left|].
  destruct (Ascii.eqb c "M" && Ascii.eqb c2 "L")%bool eqn:HML.
  - intros H. right. f_equal. apply take_digits_nondigit.
    destruct rest as [|d rest']; [exact I|].
    simpl in H. destruct (is_digit d); [discriminate|reflexivity].
  - intros H. apply IH.
    destruct rest as [|d rest']; [exact H|].
    simpl in H. exact H.
Qed.

(** [has_ML_digits] says what it should: the name contains ML followed
    by a digit. *)
Lemma has_ML_digits_correct s :
  has_ML_digits s = true <->
  exists a d b, s = (a ++ "ML" ++ String d b)%string /\ is_digit d = true.
Proof.
  induction s as [|c r IH].
  - split; [discriminate|]. intros (a & d & b & H & _).
    destruct a; discriminate.
  - cbn [has_ML_digits].
    assert (Hrest : has_ML_digits r = true ->
                    exists a d b, String c r = (a ++ "ML" ++ String d b)%string
                                  /\ is_digit d = true).
    { intros H. apply IH in H as (a & d & b & -> & Hd).
      now exists (String c a), d, b. }
    assert (Hback : forall a d b,
               String c r = (a ++ "ML" ++ String d b)%string ->
               is_digit d = true ->
               (a = "" /\ c = "M"%char /\ r = String "L" (String d b))
               \/ has_ML_digits r = true).
    { intros a d b H Hd. destruct a as [|c' a]; cbn in H.
      - injection H as -> ->. now left.
      - injection H as -> ->. right. apply IH. now exists a, d, b. }
    destruct r as [|c2 [|d0 r']].
    + split; [intros H; now apply Hrest|].
      intros (a & d & b & H & Hd).
      destruct (Hback a d b H Hd) as [(_ & _ & ?)|?]; [discriminate|assumption].
    + split; [intros H; now apply Hrest|].
      intros (a & d & b & H & Hd).
      destruct (Hback a d b H Hd) as [(_ & _ & ?)|?]; [discriminate|assumption].
    + destruct (Ascii.eqb c "M" && Ascii.eqb c2 "L" && is_digit d0)%bool eqn:Hm.
      * split; [intros _|reflexivity].
        apply andb_true_iff in Hm as [Hm Hd].
        apply andb_true_iff in Hm as [Hc Hc2].
        apply Ascii.eqb_eq in Hc, Hc2. subst.
        now exists "", d0, r'.
      * split; [intros H; now apply Hrest|].
        intros (a & d & b & H & Hd).
        destruct (Hback a d b H Hd) as [(_ & -> & [= -> -> ->])|?];
          [|assumption].
        cbn in Hm. rewrite Hd in Hm. discriminate.
Qed.

Lemma no_pattern_raises metadata :
  has_ML_digits metadata = false ->
  exists e, infer_max_seq_length metadata = Raise e.
Proof.
  intros H. unfold infer_max_seq_length.
  destruct (search_without_pattern metadata H) as [-> | ->].
  - now exists AttributeError.
  - now exists ValueError.
Qed.

(** ** Results and [mapM] *)

Lemma mapM_ok_length {A B} (f : A -> result B) l r :
  mapM f l = Ok r -> List.length r = List.length l.
Proof.
  revert r. induction l as [|x l IH]; simpl; intros r H.
  - now injection H as <-.
  - destruct (f x); [|discriminate]. simpl in H.
    destruct (mapM f l) as [ys|]; [|discriminate]. simpl in H.
    injection H as <-. simpl. f_equal. now apply IH.
Qed.

Lemma mapM_ok_nth {A B} (f : A -> result B) l r j x :
  mapM f l = Ok r -> nth_error l j = Some x ->
  exists y, nth_error r j = Some y /\ f x = Ok y.
Proof.
  revert r j. induction l as [|x0 l IH]; simpl; intros r j H Hj.
  - destruct j; discriminate.
  - destruct (f x0) as [y0|] eqn:Hf; [|discriminate]. simpl in H.
    destruct (mapM f l) as [ys|]; [|discriminate]. simpl in H.
    injection H as <-. destruct j as [|j]; simpl in *.
    + injection Hj as <-. now exists y0.
    + now apply IH.
Qed.

Lemma mapM_map {A B C} (f : B -> result C) (g : A -> B) l :
  mapM f (map g l) = mapM (fun x => f (g x)) l.
Proof. induction l as [|x l IH]; simpl; [reflexivity|]. now rewrite IH. Qed.

Lemma mapM_ext {A B} (f g : A -> result B) l :
  (forall x, In x l -> f x = g x) -> mapM f l = mapM g l.
Proof.
  induction l as [|x l IH]; simpl; intros H; [reflexivity|].
  rewrite H by now left. rewrite IH; [reflexivity|].
  intros y Hy. apply H. now right.
Qed.

(** ** Dictionaries *)

Lemma dict_get_set_same {V} k (v : V) d : dict_get k (dict_set k v d) = Some v.
Proof.
  induction d as [|[k' v'] d IH]; simpl.
  - now rewrite String.eqb_refl.
  - destruct (String.eqb k k') eqn:Hk; simpl.
    + now rewrite String.eqb_refl.
    + now rewrite Hk.
Qed.

Lemma dict_get_set_other {V} k k' (v : V) d :
  k' <> k -> dict_get k' (dict_set k v d) = dict_get k' d.
Proof.
  intros Hne. induction d as [|[k0 v0] d IH]; simpl.
  - apply String.eqb_neq in Hne. now rewrite Hne.
  - destruct (String.eqb k k0) eqn:Hk; simpl.
    + apply String.eqb_eq in Hk. subst k0.
      apply String.eqb_neq in Hne. now rewrite Hne.
    + destruct (String.eqb k' k0); [reflexivity|exact IH].
Qed.

Lemma dict_set_absent {V} k (v : V) d :
  dict_has k d = false -> dict_set k v d = d ++ [(k, v)].
Proof.
  unfold dict_has. induction d as [|[k0 v0] d IH]; simpl; [reflexivity|].
  destruct (String.eqb k k0); [discriminate|].
  intros H. now rewrite IH.
Qed.

Lemma dict_keys_set_present {V} k (v : V) d :
  dict_has k d = true -> dict_keys (dict_set k v d) = dict_keys d.
Proof.
  unfold dict_has, dict_keys. induction d as [|[k0 v0] d IH]; simpl.
  - discriminate.
  - destruct (String.eqb k k0) eqn:Hk; simpl.
    + apply String.eqb_eq in Hk. now subst.
    + intros H. now rewrite IH.
Qed.

(** ** The engine *)

Section EngineFacts.

Context {E : Externals}.

Lemma sequential_batches_empty fuel bs ds :
  dataset_len ds = 0%nat -> sequential_batches fuel bs ds = [].
Proof. intros H. destruct fuel; simpl; [reflexivity|]. now rewrite H. Qed.

Lemma predict_no_batch model mt :
  predict_loop model mt [] None = None /\ predict model [] mt = Raise ValueError.
Proof. split; reflexivity. Qed.

Lemma run_engine_empty args ck ds :
  dataset_len ds = 0%nat -> exists e, run_engine args ck ds = Raise e.
Proof.
  intros H. unfold run_engine, DataLoader.
  destruct (batch_size args <=? 0)%Z; simpl.
  - now exists ValueError.
  - rewrite sequential_batches_empty by exact H. now exists ValueError.
Qed.

(** ** [prepare_prediction_data] *)

Lemma torch_tensor_ok rows r : torch_tensor rows = Ok r -> r = rows.
Proof.
  unfold torch_tensor. destruct (rectangular rows); [|discriminate].
  now intros [= <-].
Qed.

Lemma build_dataset_ok features ds :
  build_dataset features = Ok ds -> ds = dataset_of features.
Proof.
  unfold build_dataset. intros H.
  destruct (torch_tensor (map input_ids features)) as [r1|] eqn:H1;
    [|discriminate].
  destruct (torch_tensor (map attention_mask features)) as [r2|] eqn:H2;
    [|discriminate].
  destruct (torch_tensor (map token_type_ids features)) as [r3|] eqn:H3;
    [|discriminate].
  simpl in H. injection H as <-.
  apply torch_tensor_ok in H1, H2, H3. now subst.
Qed.

Lemma build_dataset_rectangular features :
  features_rectangular features = true ->
  build_dataset features = Ok (dataset_of features).
Proof.
  unfold features_rectangular, build_dataset, torch_tensor. intros H.
  apply andb_true_iff in H as [H H3]. apply andb_true_iff in H as [H1 H2].
  now rewrite H1, H2, H3.
Qed.

Lemma dataset_of_len features :
  dataset_len (dataset_of features) = List.length features.
Proof. unfold dataset_len, dataset_of. simpl. apply length_map. Qed.

(** What [prepare_prediction_data] returns, when it returns: the store is
    a dictionary and there are two datasets with one row per key. *)
Lemma prepare_shape store tok msl dss :
  prepare_prediction_data store tok msl = Ok dss ->
  exists d ds0 ds1,
    store = JDict d /\ dss = [ds0; ds1]
    /\ dataset_len ds0 = List.length d /\ dataset_len ds1 = List.length d.
Proof.
  unfold prepare_prediction_data. intros H.
  destruct store as [| | | | | |d]; try discriminate.
  simpl in H.
  match type of H with
  | (rbind (mapM ?f ?keys) _ = _) => destruct (mapM f keys) as [both|] eqn:Hb
  end; [|discriminate].
  apply mapM_ok_length in Hb. unfold dict_keys in Hb.
  rewrite length_map in Hb.
  simpl in H. unfold convert_examples_to_features in H.
  destruct (mapM (convert_example tok msl) (map fst both)) as [f0|] eqn:Hf0;
    [|discriminate].
  simpl in H.
  destruct (build_dataset f0) as [ds0|] eqn:Hd0; [|discriminate].
  simpl in H.
  destruct (mapM (convert_example tok msl) (map snd both)) as [f1|] eqn:Hf1;
    [|discriminate].
  simpl in H.
  destruct (build_dataset f1) as [ds1|] eqn:Hd1; [|discriminate].
  simpl in H. injection H as <-.
  apply build_dataset_ok in Hd0, Hd1. subst ds0 ds1.
  apply mapM_ok_length in Hf0, Hf1. rewrite length_map in Hf0, Hf1.
  exists d, (dataset_of f0), (dataset_of f1).
  rewrite !dataset_of_len. repeat split; congruence.
Qed.

End EngineFacts.

(** ** Loops *)

Section LoopFacts.

Context {E : Externals}.

(** The rule of the loops: [WI] holds of the world at the start and is
    kept by every round, however it ends; [L] relates the position, the
    state and the world for as long as no round raises. *)
Lemma for_enumerate_rule {A St : Type}
    (body : nat -> A -> St -> world -> world * result St)
    (WI : world -> Prop) (L : nat -> St -> world -> Prop) items :
  forall k0,
  (forall j x s w, nth_error items j = Some x -> WI w -> L (k0 + j)%nat s w ->
     WI (fst (body (k0 + j)%nat x s w))
     /\ (forall s', snd (body (k0 + j)%nat x s w) = Ok s' ->
                    L (S (k0 + j)) s' (fst (body (k0 + j)%nat x s w)))) ->
  forall s w, WI w -> L k0 s w ->
    WI (fst (for_enumerate body k0 items s w))
    /\ (forall s', snd (for_enumerate body k0 items s w) = Ok s' ->
          L (k0 + List.length items)%nat s' (fst (for_enumerate body k0 items s w))).
Proof.
  induction items as [|x rest IH]; intros k0 Hstep s w HW HL; simpl.
  - split; [exact HW|]. intros s' [= <-]. now rewrite Nat.add_0_r.
  - destruct (Hstep 0%nat x s w eq_refl HW) as [HW' HL'].
    { now rewrite Nat.add_0_r. }
    rewrite Nat.add_0_r in HW', HL'.
    destruct (body k0 x s w) as [w' [s1|e]] eqn:Hb; simpl in *.
    + specialize (HL' s1 eq_refl).
      rewrite <- Nat.add_succ_comm. apply IH; [|exact HW'|exact HL'].
      intros j y s2 w2 Hj. rewrite Nat.add_succ_comm. now apply (Hstep (S j)).
    + split; [exact HW'|discriminate].
Qed.

Lemma for_enumerate_app {A St : Type}
    (body : nat -> A -> St -> world -> world * result St) xs ys :
  forall k s w,
  for_enumerate body k (xs ++ ys) s w =
  match for_enumerate body k xs s w with
  | (w', Raise e) => (w', Raise e)
  | (w', Ok s') => for_enumerate body (k + List.length xs) ys s' w'
  end.
Proof.
  induction xs as [|x xs IH]; intros k s w; simpl.
  - now rewrite Nat.add_0_r.
  - destruct (body k x s w) as [w' [s1|e]]; [|reflexivity].
    rewrite IH. now rewrite Nat.add_succ_comm.
Qed.

(** ** Calls and uses only grow *)

Lemma from_checkpoint_add_call c w cl a :
  from_checkpoint c w a -> from_checkpoint c (add_call w cl) a.
Proof.
  intros (cl0 & Hn & Hc). exists cl0. split; [|exact Hc].
  simpl. rewrite nth_error_app1; [exact Hn|].
  apply nth_error_Some. congruence.
Qed.

Lemma from_checkpoint_fresh c k i v w :
  from_checkpoint c (add_call w (mkCall c k i v)) (List.length (calls w)).
Proof.
  exists (mkCall c k i v). split; [|reflexivity].
  simpl. rewrite nth_error_app2 by lia. now rewrite Nat.sub_diag.
Qed.

Lemma load_checkpoint_index args c model_path ck :
  load_checkpoint args c model_path = Ok ck ->
  ck_index ck = c /\ metadata ck = basename (dirname model_path).
Proof.
  unfold load_checkpoint. intros H.
  destruct (infer_max_seq_length _); [|discriminate]. simpl in H.
  destruct (tokenizer_from_pretrained _ _ _); [|discriminate]. simpl in H.
  destruct (model_from_pretrained _ _); [|discriminate]. simpl in H.
  injection H as <-. now split.
Qed.

(** The three ways [obtain_preds] can go. *)
Lemma obtain_preds_cases args ck k filename i ds l w :
  (should_compute i filename l = true
   /\ exists e, run_engine args ck ds = Raise e
                /\ obtain_preds args ck k filename i ds l w = (w, Raise e))
  \/ (should_compute i filename l = true
      /\ exists v, run_engine args ck ds = Ok v
           /\ obtain_preds args ck k filename i ds l w =
              (add_call w (mkCall (ck_index ck) k i v),
               Ok (store_in_cache i filename (List.length (calls w))
                     (set_preds l (Some (List.length (calls w)))))))
  \/ (should_compute i filename l = false
      /\ obtain_preds args ck k filename i ds l w =
         (w, Ok (take_from_cache filename l))).
Proof.
  unfold obtain_preds. destruct (should_compute i filename l).
  - destruct (run_engine args ck ds) as [v|e].
    + right; left. split; [reflexivity|]. now exists v.
    + left. split; [reflexivity|]. now exists e.
  - right; right. now split.
Qed.

Lemma store_in_cache_preds i filename a l :
  preds (store_in_cache i filename a l) = preds l.
Proof.
  unfold store_in_cache.
  destruct (i =? 0)%nat, (str_in "arp" filename), (str_in "wmtp" filename);
    reflexivity.
Qed.

(** The world after [direction_step], whatever its result. *)
Lemma direction_step_world args ck k filename i ds s w :
  fst (direction_step args ck k filename i ds s w) =
  match obtain_preds args ck k filename i ds (fst s) w with
  | (w1, Raise _) => w1
  | (w1, Ok l1) => log_use ck k i l1 w1
  end.
Proof.
  unfold direction_step.
  destruct (obtain_preds args ck k filename i ds (fst s) w) as [w1 [l1|e]];
    [|reflexivity].
  now destruct (merge_results _ _ _).
Qed.

Lemma direction_step_locals args ck k filename i ds s w l' store' :
  snd (direction_step args ck k filename i ds s w) = Ok (l', store') ->
  snd (obtain_preds args ck k filename i ds (fst s) w) = Ok l'.
Proof.
  unfold direction_step.
  destruct (obtain_preds args ck k filename i ds (fst s) w) as [w1 [l1|e]];
    simpl; [|discriminate].
  destruct (merge_results _ _ _); simpl; [|discriminate].
  now intros [= <- _].
Qed.

End LoopFacts.

(** ** One file *)

Section FileFacts.

Context {E : Externals}.

(** [file_step] either raises before the loop over the directions, or
    runs that loop over two datasets with one row per key. *)
Lemma file_step_cases args ck k f l w :
  (exists e, file_step args ck k f l w = (w, Raise e))
  \/ (exists d ds0 ds1,
        read_json f w = Ok (JDict d)
        /\ prepare_prediction_data (JDict d) (tokenizer ck) (max_seq_length ck)
           = Ok [ds0; ds1]
        /\ dataset_len ds0 = List.length d /\ dataset_len ds1 = List.length d
        /\ file_step args ck k f l w =
           match for_enumerate (direction_step args ck k (basename f)) 0
                               [ds0; ds1] (l, JDict d) w with
           | (w', Raise e) => (w', Raise e)
           | (w', Ok (l', store')) =>
               match json_dump_error store' with
               | None => (write_json f store' w', Ok l')
               | Some e => (spoil_file f w', Raise e)
               end
           end).
Proof.
  unfold file_step.
  destruct (read_json f w) as [store|e] eqn:Hr; simpl; [|left; now exists e].
  destruct (prepare_prediction_data store (tokenizer ck) (max_seq_length ck))
    as [dss|e] eqn:Hp; simpl; [|left; now exists e].
  destruct (prepare_shape _ _ _ _ Hp) as (d & ds0 & ds1 & -> & -> & H0 & H1).
  right. exists d, ds0, ds1. repeat split; assumption.
Qed.

(** The rule for one file, from a rule for one direction.  [WI] and [L]
    may not depend on the files. *)
Lemma file_step_rule (WI : world -> Prop) (L : nat -> locals -> world -> Prop)
    args ck k f :
  (forall fs' w, WI w -> WI (mkWorld fs' (calls w) (uses w))) ->
  (forall fs' i l w, L i l w -> L i l (mkWorld fs' (calls w) (uses w))) ->
  (forall i ds l store w, WI w -> L i l w ->
     WI (fst (direction_step args ck k (basename f) i ds (l, store) w))
     /\ (forall l' store',
           snd (direction_step args ck k (basename f) i ds (l, store) w)
           = Ok (l', store') ->
           L (S i) l'
             (fst (direction_step args ck k (basename f) i ds (l, store) w)))) ->
  forall l w, WI w -> L 0%nat l w ->
    WI (fst (file_step args ck k f l w))
    /\ (forall l', snd (file_step args ck k f l w) = Ok l' ->
                   L 2%nat l' (fst (file_step args ck k f l w))).
Proof.
  intros HWw HLw Hdir l w HW HL.
  destruct (file_step_cases args ck k f l w)
    as [(e & ->) | (d & ds0 & ds1 & _ & _ & _ & _ & ->)].
  - split; [exact HW|discriminate].
  - destruct (for_enumerate_rule (direction_step args ck k (basename f))
                WI (fun i s w => L i (fst s) w) [ds0; ds1] 0%nat)
      with (s := (l, JDict d)) (w := w) as [HW' HL']; try assumption.
    { intros j ds [l0 s0] w0 _ HW0 HL0. simpl in *.
      destruct (Hdir j ds l0 s0 w0 HW0 HL0) as [H1 H2]. split; [exact H1|].
      intros [l' s'] Hs. simpl. now apply (H2 l' s'). }
    simpl "+"%nat in HL'.
    destruct (for_enumerate _ 0 [ds0; ds1] (l, JDict d) w)
      as [w' [[l' store']|e]]; cbn [fst snd] in *.
    + destruct (json_dump_error store'); cbn [fst snd].
      * split; [now apply HWw|discriminate].
      * split; [now apply HWw|]. intros l'' [= <-].
        apply HLw. now apply (HL' (l', store')).
    + split; [exact HW'|discriminate].
Qed.

End FileFacts.

(** ** No list crosses from one checkpoint to another *)

Section Isolation.

Context {E : Externals}.

Lemma calls_log_use ck k i l w : calls (log_use ck k i l w) = calls w.
Proof. unfold log_use. now destruct (preds l) as [[a|]|]. Qed.

Lemma uses_log_use ck k i l w :
  uses (log_use ck k i l w) =
  uses w ++ match preds l with
            | Some (Some a) => [mkUse (ck_index ck) k i a]
            | _ => []
            end.
Proof.
  unfold log_use. destruct (preds l) as [[a|]|]; simpl;
    [reflexivity | | ]; now rewrite app_nil_r.
Qed.

Lemma from_checkpoint_log_use c ck k i l w a :
  from_checkpoint c w a -> from_checkpoint c (log_use ck k i l w) a.
Proof. unfold from_checkpoint. now rewrite calls_log_use. Qed.

Lemma isolated_add_call w cl :
  checkpoints_isolated w -> checkpoints_isolated (add_call w cl).
Proof. intros H u Hu. apply from_checkpoint_add_call. now apply H. Qed.

Lemma isolated_log_use ck k i l w :
  checkpoints_isolated w -> preds_from (ck_index ck) w l ->
  checkpoints_isolated (log_use ck k i l w).
Proof.
  intros H Hp u Hu. apply from_checkpoint_log_use.
  rewrite uses_log_use in Hu. apply in_app_or in Hu as [Hu|Hu].
  - now apply H.
  - destruct (preds l) as [[a|]|] eqn:Hpl; simpl in Hu; try contradiction.
    destruct Hu as [<-|[]]. simpl. now apply Hp.
Qed.

Lemma caches_from_add_call c w cl l :
  caches_from c w l -> caches_from c (add_call w cl) l.
Proof.
  intros [Ha Hw]. split; intros a Hc; apply from_checkpoint_add_call; auto.
Qed.

Lemma caches_from_log_use c ck k i l0 w l :
  caches_from c w l -> caches_from c (log_use ck k i l0 w) l.
Proof.
  intros [Ha Hw]. split; intros a Hc; apply from_checkpoint_log_use; auto.
Qed.

Lemma preds_from_log_use c ck k i l0 w l :
  preds_from c w l -> preds_from c (log_use ck k i l0 w) l.
Proof. intros H a Ha. apply from_checkpoint_log_use. now apply H. Qed.

(** After the engine has run, [preds] and the caches refer to lists of
    the current checkpoint. *)
Lemma computed_from ck k i filename v l w :
  caches_from (ck_index ck) w l ->
  let w1 := add_call w (mkCall (ck_index ck) k i v) in
  let l1 := store_in_cache i filename (List.length (calls w))
              (set_preds l (Some (List.length (calls w)))) in
  caches_from (ck_index ck) w1 l1 /\ preds_from (ck_index ck) w1 l1.
Proof.
  intros [Ha Hw] w1 l1. split.
  - unfold l1, store_in_cache.
    destruct (i =? 0)%nat, (str_in "arp" filename), (str_in "wmtp" filename);
      split; simpl; intros a Hc;
      try (injection Hc as <-; apply from_checkpoint_fresh);
      apply from_checkpoint_add_call; auto.
  - intros a Hp. unfold l1 in Hp. rewrite store_in_cache_preds in Hp.
    simpl in Hp. injection Hp as <-. apply from_checkpoint_fresh.
Qed.

(** After a cache has been read, likewise, when the file name has a tag
    or [preds] referred to such a list before. *)
Lemma cached_from c filename l w :
  caches_from c w l ->
  has_tag filename = true \/ preds_from c w l ->
  preds_from c w (take_from_cache filename l)
  /\ caches_from c w (take_from_cache filename l).
Proof.
  intros [Ha Hw] Hpre. unfold take_from_cache, has_tag in *.
  destruct (str_in "arp" filename); [|destruct (str_in "wmtp" filename)].
  - split; [|now split]. intros a [= Hc]. now apply Ha.
  - split; [|now split]. intros a [= Hc]. now apply Hw.
  - split; [|now split]. destruct Hpre as [Ht|Hp]; [discriminate|exact Hp].
Qed.

Lemma direction_isolated args ck k filename i ds l store w :
  checkpoints_isolated w ->
  caches_from (ck_index ck) w l ->
  has_tag filename = true \/ preds_from (ck_index ck) w l ->
  checkpoints_isolated
    (fst (direction_step args ck k filename i ds (l, store) w))
  /\ (forall l' store',
        snd (direction_step args ck k filename i ds (l, store) w)
        = Ok (l', store') ->
        caches_from (ck_index ck)
          (fst (direction_step args ck k filename i ds (l, store) w)) l'
        /\ preds_from (ck_index ck)
          (fst (direction_step args ck k filename i ds (l, store) w)) l').
Proof.
  intros HW Hc Hpre. rewrite direction_step_world. cbn [fst snd].
  destruct (obtain_preds_cases args ck k filename i ds l w)
    as [(_ & e & _ & Ho) | [(_ & v & _ & Ho) | (_ & Ho)]].
  - split.
    + now rewrite Ho.
    + intros l' s' Hs. apply direction_step_locals in Hs.
      cbn [fst] in Hs. rewrite Ho in Hs. discriminate.
  - destruct (computed_from ck k i filename v l w Hc) as [Hc1 Hp1].
    split.
    + rewrite Ho. apply isolated_log_use; [|exact Hp1].
      now apply isolated_add_call.
    + intros l' s' Hs. apply direction_step_locals in Hs.
      cbn [fst] in Hs. rewrite Ho in *. injection Hs as <-.
      split; [now apply caches_from_log_use|now apply preds_from_log_use].
  - destruct (cached_from _ filename l w Hc Hpre) as [Hp1 Hc1].
    split.
    + rewrite Ho. now apply isolated_log_use.
    + intros l' s' Hs. apply direction_step_locals in Hs.
      cbn [fst] in Hs. rewrite Ho in *. injection Hs as <-.
      split; [now apply caches_from_log_use|now apply preds_from_log_use].
Qed.

Lemma file_isolated args ck k f l w :
  checkpoints_isolated w ->
  caches_from (ck_index ck) w l ->
  has_tag (basename f) = true \/ preds_from (ck_index ck) w l ->
  checkpoints_isolated (fst (file_step args ck k f l w))
  /\ (forall l', snd (file_step args ck k f l w) = Ok l' ->
        caches_from (ck_index ck) (fst (file_step args ck k f l w)) l'
        /\ preds_from (ck_index ck) (fst (file_step args ck k f l w)) l').
Proof.
  intros HW Hc Hpre.
  destruct (file_step_rule checkpoints_isolated
              (fun i l w => caches_from (ck_index ck) w l
                            /\ (i = 0%nat -> has_tag (basename f) = true
                                             \/ preds_from (ck_index ck) w l)
                            /\ (i <> 0%nat -> preds_from (ck_index ck) w l))
              args ck k f) with (l := l) (w := w) as [H1 H2]; try assumption.
  - intros fs' w0 H. exact H.
  - intros fs' i l0 w0 H. exact H.
  - intros i ds l0 store w0 HW0 (Hc0 & Hi0 & Hi1).
    assert (Hpre0 : has_tag (basename f) = true
                    \/ preds_from (ck_index ck) w0 l0).
    { destruct i; [now apply Hi0|right; now apply Hi1]. }
    destruct (direction_isolated args ck k (basename f) i ds l0 store w0
                HW0 Hc0 Hpre0) as [Ha Hb].
    split; [exact Ha|]. intros l' s' Hs.
    destruct (Hb l' s' Hs) as [Hc' Hp'].
    split; [exact Hc'|]. split; [discriminate|now intros _].
  - split; [exact Hc|]. split; [now intros _|now intros []].
  - split; [exact H1|]. intros l' Hs.
    destruct (H2 l' Hs) as (Hc' & _ & Hp'). split; [exact Hc'|].
    now apply Hp'.
Qed.

End Isolation.

Section IsolationRun.

Context {E : Externals}.

Lemma untagged_not_computed filename l :
  has_tag filename = false ->
  should_compute 0 filename l = false /\ take_from_cache filename l = l.
Proof.
  unfold has_tag, should_compute, take_from_cache. intros H.
  apply orb_false_iff in H as [-> ->]. now split.
Qed.

(** A file without a tag, met while [preds] is unbound, ends the run: at
    the first key if it has one, in the engine otherwise. *)
Lemma untagged_unbound_raises args ck k f l w :
  has_tag (basename f) = false -> preds l = None ->
  exists e, snd (file_step args ck k f l w) = Raise e.
Proof.
  intros Ht Hp.
  destruct (file_step_cases args ck k f l w)
    as [(e & ->) | (d & ds0 & ds1 & _ & _ & _ & Hlen & ->)].
  - now exists e.
  - destruct (untagged_not_computed _ l Ht) as [Hsc Htk].
    cbn [for_enumerate]. unfold direction_step at 1, obtain_preds.
    cbn [fst snd]. rewrite Hsc, Htk.
    unfold log_use. rewrite Hp. unfold merge_results.
    destruct d as [|[key rec] d'].
    + cbn [merge_rows rbind].
      unfold direction_step, obtain_preds. cbn [fst snd].
      replace (should_compute 1 (basename f) l) with true by reflexivity.
      destruct (run_engine_empty args ck ds1 Hlen) as (e & ->).
      now exists e.
    + cbn [merge_rows]. destruct rec; try (now exists AttributeError).
      unfold preds_item at 1. rewrite Hp. cbn [rbind]. now exists NameError.
Qed.

Lemma checkpoint_isolated args input_files c model_path l w :
  checkpoints_isolated w ->
  preds l = None \/ first_tagged input_files = true ->
  checkpoints_isolated
    (fst (checkpoint_step args input_files c model_path l w))
  /\ (forall l',
        snd (checkpoint_step args input_files c model_path l w) = Ok l' ->
        first_tagged input_files = true).
Proof.
  intros HW Hpre. unfold checkpoint_step.
  destruct (load_checkpoint args c model_path) as [ck|e] eqn:Hload;
    [|split; [exact HW|discriminate]].
  split.
  - apply (for_enumerate_rule (file_step args ck) checkpoints_isolated
             (fun k l w => caches_from (ck_index ck) w l
                /\ (k = 0%nat -> first_tagged input_files = true
                                 \/ preds_from (ck_index ck) w l)
                /\ (k <> 0%nat -> preds_from (ck_index ck) w l))
             input_files 0%nat); [|exact HW|].
    + intros j f l0 w0 Hj HW0 (Hc0 & Hj0 & Hj1). cbn [Nat.add] in *.
      assert (Hpre0 : has_tag (basename f) = true
                      \/ preds_from (ck_index ck) w0 l0).
      { destruct j as [|j]; [|right; now apply Hj1].
        destruct (Hj0 eq_refl) as [Hft|Hpf]; [left|now right].
        destruct input_files as [|f0 rest]; [discriminate|].
        injection Hj as ->. exact Hft. }
      destruct (file_isolated args ck j f l0 w0 HW0 Hc0 Hpre0) as [Ha Hb].
      split; [exact Ha|]. intros l' Hs. destruct (Hb l' Hs) as [Hc' Hp'].
      split; [exact Hc'|]. split; [discriminate|now intros _].
    + split; [split; discriminate|]. split; [|now intros []].
      intros _. destruct Hpre as [Hp|Hft]; [right|now left].
      intros a Ha. simpl in Ha. congruence.
  - intros l' Hs. destruct Hpre as [Hp|Hft]; [|exact Hft].
    destruct input_files as [|f rest]; [reflexivity|].
    cbn [first_tagged]. destruct (has_tag (basename f)) eqn:Ht; [reflexivity|].
    exfalso. cbn [for_enumerate] in Hs.
    destruct (untagged_unbound_raises args ck 0 f (reset_caches l) w Ht Hp)
      as (e & He).
    destruct (file_step args ck 0 f (reset_caches l) w) as [w' r].
    cbn [snd] in He. subst r. discriminate.
Qed.

End IsolationRun.

Section IsolationTheorem.

Context {E : Externals}.

(** In every run of [main], finished or ended by a raise, every list
    that is used for a file under a checkpoint was computed under that
    same checkpoint. *)
Lemma main_checkpoints_isolated args input_files model_paths fs0 :
  checkpoints_isolated (fst (main args input_files model_paths fs0)).
Proof.
  unfold main.
  apply (for_enumerate_rule (checkpoint_step args input_files)
           checkpoints_isolated
           (fun _ l _ => preds l = None \/ first_tagged input_files = true)
           model_paths 0%nat).
  - intros c model_path l w _ HW Hpre. cbn [Nat.add].
    destruct (checkpoint_isolated args input_files c model_path l w HW Hpre)
      as [Ha Hb].
    split; [exact Ha|]. intros l' Hs. right. exact (Hb l' Hs).
  - intros u [].
  - now left.
Qed.

End IsolationTheorem.

(** ** The target direction *)

Section TargetDirection.

Context {E : Externals}.

Lemma merge_rows_ext entry item1 item2 d :
  (forall j, item1 j = item2 j) ->
  forall j, merge_rows entry item1 j d = merge_rows entry item2 j d.
Proof.
  intros Hext. induction d as [|[key rec] d IH]; intros j; simpl.
  - reflexivity.
  - destruct rec; try reflexivity. now rewrite Hext, IH.
Qed.

Lemma merge_results_ext entry item1 item2 store :
  (forall j, item1 j = item2 j) ->
  merge_results entry item1 store = merge_results entry item2 store.
Proof.
  intros Hext. destruct store; try reflexivity. simpl.
  now rewrite (merge_rows_ext entry item1 item2 d Hext).
Qed.


Lemma should_compute_target filename l : should_compute 1 filename l = true.
Proof. reflexivity. Qed.




End TargetDirection.

(** ** Reuse between files with the tag wmtp *)

Section CacheReuse.

Context {E : Externals}.

Lemma wmtp_only_flags filename :
  wmtp_only filename = true ->
  str_in "arp" filename = false /\ str_in "wmtp" filename = true.
Proof.
  unfold wmtp_only. intros H. apply andb_true_iff in H as [Hw Ha].
  apply negb_true_iff in Ha. now split.
Qed.

Lemma should_compute_wmtp_only filename l :
  wmtp_only filename = true ->
  should_compute 0 filename l = is_none (wmt_source_cache l).
Proof.
  intros H. destruct (wmtp_only_flags filename H) as [Ha Hw].
  unfold should_compute. now rewrite Ha, Hw.
Qed.

Lemma take_from_cache_wmtp_only filename l :
  wmtp_only filename = true ->
  take_from_cache filename l = set_preds l (wmt_source_cache l).
Proof.
  intros H. destruct (wmtp_only_flags filename H) as [Ha Hw].
  unfold take_from_cache. now rewrite Ha, Hw.
Qed.

Lemma take_from_cache_wmt filename l :
  wmt_source_cache (take_from_cache filename l) = wmt_source_cache l.
Proof.
  unfold take_from_cache.
  now destruct (str_in "arp" filename), (str_in "wmtp" filename).
Qed.

Lemma store_in_cache_wmt i filename a l :
  wmt_source_cache (store_in_cache i filename a l) =
  if ((i =? 0)%nat && wmtp_only filename)%bool then Some a
  else wmt_source_cache l.
Proof.
  unfold store_in_cache, wmtp_only.
  now destruct (i =? 0)%nat, (str_in "arp" filename), (str_in "wmtp" filename).
Qed.

Lemma wmtp_cached_grow input_files c k l l' w w' :
  wmt_source_cache l' = wmt_source_cache l ->
  (forall u, In u (uses w) -> In u (uses w')) ->
  wmtp_cached input_files c k l w -> wmtp_cached input_files c k l' w'.
Proof.
  intros Hl Hu H k1 f1 Hlt Hn Hw.
  destruct (H k1 f1 Hlt Hn Hw) as (a & Ha & Hin).
  exists a. split; [congruence|now apply Hu].
Qed.

Lemma wmtp_cached_succ input_files c k f l w :
  nth_error input_files k = Some f ->
  wmtp_cached input_files c k l w ->
  (wmtp_only (basename f) = true ->
   exists a, wmt_source_cache l = Some a /\ In (mkUse c k 0 a) (uses w)) ->
  wmtp_cached input_files c (S k) l w.
Proof.
  intros Hf Hk Hself k1 f1 Hlt Hn Hw.
  destruct (Nat.eq_dec k1 k) as [->|Hne].
  - rewrite Hf in Hn. injection Hn as <-. now apply Hself.
  - apply (Hk k1 f1); [lia|assumption|assumption].
Qed.

(** With an earlier file of tag wmtp only, the source direction of a
    file of tag wmtp only is not computed. *)
Lemma earlier_wmtp_not_computed input_files c k1 k f1 f l w :
  (k1 < k)%nat -> nth_error input_files k1 = Some f1 ->
  wmtp_only (basename f1) = true -> wmtp_only (basename f) = true ->
  wmtp_cached input_files c k l w ->
  should_compute 0 (basename f) l = false
  /\ exists a, wmt_source_cache l = Some a /\ In (mkUse c k1 0 a) (uses w).
Proof.
  intros Hlt Hn Hw1 Hw Hc. destruct (Hc k1 f1 Hlt Hn Hw1) as (a & Ha & Hin).
  split; [|now exists a].
  rewrite should_compute_wmtp_only by exact Hw. now rewrite Ha.
Qed.

Lemma direction_reuse args input_files ck k f i ds l store w :
  nth_error input_files k = Some f ->
  wmtp_reuse input_files w ->
  wmtp_cached input_files (ck_index ck) k l w ->
  (i <> 0%nat -> wmtp_cached input_files (ck_index ck) (S k) l w) ->
  wmtp_reuse input_files
    (fst (direction_step args ck k (basename f) i ds (l, store) w))
  /\ (forall l' store',
        snd (direction_step args ck k (basename f) i ds (l, store) w)
        = Ok (l', store') ->
        wmtp_cached input_files (ck_index ck) (S k) l'
          (fst (direction_step args ck k (basename f) i ds (l, store) w))).
Proof.
  intros Hf HW Hc Hself. rewrite direction_step_world. cbn [fst snd].
  destruct (obtain_preds_cases args ck k (basename f) i ds l w)
    as [(_ & e & _ & Ho) | [(Hsc & v & _ & Ho) | (Hsc & Ho)]].
  - rewrite Ho. split; [exact HW|].
    intros l' s' Hs. apply direction_step_locals in Hs.
    cbn [fst] in Hs. rewrite Ho in Hs. discriminate.
  - rewrite Ho.
    set (a0 := List.length (calls w)) in *.
    set (l1 := store_in_cache i (basename f) a0 (set_preds l (Some a0))) in *.
    set (w1 := add_call w (mkCall (ck_index ck) k i v)) in *.
    assert (Huses : uses (log_use ck k i l1 w1) =
                    uses w ++ [mkUse (ck_index ck) k i a0]).
    { rewrite uses_log_use. unfold l1. now rewrite store_in_cache_preds. }
    assert (Hcalls : calls (log_use ck k i l1 w1) =
                     calls w ++ [mkCall (ck_index ck) k i v]).
    { now rewrite calls_log_use. }
    split.
    + intros c0 k1 k2 f1 f2 Hlt H1 H2 Hw1 Hw2.
      destruct (HW c0 k1 k2 f1 f2 Hlt H1 H2 Hw1 Hw2) as [Hold Hno].
      split.
      * intros a Hin. rewrite Huses in *.
        apply in_app_or in Hin as [Hin|[Heq|[]]];
          [apply in_or_app; left; now apply Hold|].
        exfalso. injection Heq as <- <- -> _.
        rewrite Hf in H2. injection H2 as <-.
        destruct (earlier_wmtp_not_computed input_files (ck_index ck) k1 k
                    f1 f l w Hlt H1 Hw1 Hw2 Hc) as [Hn _].
        congruence.
      * intros (cl & Hin & Hc0 & Hk0 & Hi0). rewrite Hcalls in Hin.
        apply in_app_or in Hin as [Hin|[<-|[]]].
        -- apply Hno. exists cl. now repeat split.
        -- cbn in Hc0, Hk0, Hi0. subst c0 k2 i.
           rewrite Hf in H2. injection H2 as <-.
           destruct (earlier_wmtp_not_computed input_files (ck_index ck) k1 k
                       f1 f l w Hlt H1 Hw1 Hw2 Hc) as [Hn _].
           congruence.
    + intros l' s' Hs. apply direction_step_locals in Hs.
      cbn [fst] in Hs. rewrite Ho in Hs. cbn [snd] in Hs.
      injection Hs as <-.
      assert (Hwmt : wmt_source_cache l1 =
                     if ((i =? 0)%nat && wmtp_only (basename f))%bool
                     then Some a0 else wmt_source_cache l).
      { unfold l1. now rewrite store_in_cache_wmt. }
      apply (wmtp_cached_succ input_files (ck_index ck) k f); [exact Hf| |].
      * intros k1 f1 Hlt Hn Hw1.
        destruct (Hc k1 f1 Hlt Hn Hw1) as (a & Ha & Hin).
        exists a. split; [|rewrite Huses; apply in_or_app; now left].
        rewrite Hwmt.
        destruct ((i =? 0)%nat && wmtp_only (basename f))%bool eqn:Hb;
          [|exact Ha].
        exfalso. apply andb_true_iff in Hb as [Hi Hw].
        apply Nat.eqb_eq in Hi. subst i.
        rewrite should_compute_wmtp_only, Ha in Hsc by exact Hw.
        discriminate.
      * intros Hw. rewrite Hwmt, Hw, Huses.
        destruct i as [|i]; cbn [Nat.eqb andb].
        -- exists a0. split; [reflexivity|].
           apply in_or_app. right. now left.
        -- destruct (Hself (Nat.neq_succ_0 i) k f (Nat.lt_succ_diag_r k) Hf Hw)
             as (a & Ha & Hin).
           exists a. split; [exact Ha|apply in_or_app; now left].
  - rewrite Ho.
    set (l1 := take_from_cache (basename f) l) in *.
    assert (Hcalls : calls (log_use ck k i l1 w) = calls w)
      by apply calls_log_use.
    assert (Hgrow : forall u, In u (uses w) ->
                              In u (uses (log_use ck k i l1 w))).
    { intros u Hu. rewrite uses_log_use. apply in_or_app. now left. }
    split.
    + intros c0 k1 k2 f1 f2 Hlt H1 H2 Hw1 Hw2.
      destruct (HW c0 k1 k2 f1 f2 Hlt H1 H2 Hw1 Hw2) as [Hold Hno].
      split.
      * intros a Hin. rewrite uses_log_use in Hin.
        apply in_app_or in Hin as [Hin|Hin]; [apply Hgrow; now apply Hold|].
        destruct (preds l1) as [[a'|]|] eqn:Hp; simpl in Hin;
          try contradiction.
        destruct Hin as [Heq|[]]. injection Heq as <- <- -> <-.
        rewrite Hf in H2. injection H2 as <-.
        destruct (earlier_wmtp_not_computed input_files (ck_index ck) k1 k
                    f1 f l w Hlt H1 Hw1 Hw2 Hc) as (_ & a & Ha & Hin).
        unfold l1 in Hp. rewrite take_from_cache_wmtp_only in Hp by exact Hw2.
        cbn in Hp. rewrite Ha in Hp. injection Hp as <-.
        now apply Hgrow.
      * unfold engine_invoked_for. now rewrite Hcalls.
    + intros l' s' Hs. apply direction_step_locals in Hs.
      cbn [fst] in Hs. rewrite Ho in Hs. cbn [snd] in Hs.
      injection Hs as <-.
      apply (wmtp_cached_succ input_files (ck_index ck) k f); [exact Hf| |].
      * apply (wmtp_cached_grow input_files (ck_index ck) k l l1 w);
          [apply take_from_cache_wmt|exact Hgrow|exact Hc].
      * intros Hw. unfold l1 at 1. rewrite take_from_cache_wmt.
        destruct i as [|i].
        -- rewrite should_compute_wmtp_only in Hsc by exact Hw.
           destruct (wmt_source_cache l) as [a|] eqn:Ha; [|discriminate].
           exists a. split; [reflexivity|].
           rewrite uses_log_use. unfold l1.
           rewrite take_from_cache_wmtp_only by exact Hw.
           cbn. rewrite Ha. apply in_or_app. right. now left.
        -- destruct (Hself (Nat.neq_succ_0 i) k f (Nat.lt_succ_diag_r k) Hf Hw)
             as (a & Ha & Hin).
           exists a. split; [exact Ha|now apply Hgrow].
Qed.

End CacheReuse.

Section CacheReuseRun.

Context {E : Externals}.

Lemma file_reuse args input_files ck k f l w :
  nth_error input_files k = Some f ->
  wmtp_reuse input_files w ->
  wmtp_cached input_files (ck_index ck) k l w ->
  wmtp_reuse input_files (fst (file_step args ck k f l w))
  /\ (forall l', snd (file_step args ck k f l w) = Ok l' ->
        wmtp_cached input_files (ck_index ck) (S k) l'
          (fst (file_step args ck k f l w))).
Proof.
  intros Hf HW Hc.
  destruct (file_step_rule (wmtp_reuse input_files)
              (fun i l w =>
                 wmtp_cached input_files (ck_index ck) k l w
                 /\ (i <> 0%nat ->
                     wmtp_cached input_files (ck_index ck) (S k) l w))
              args ck k f) with (l := l) (w := w) as [H1 H2];
    try assumption.
  - intros fs' w0 H. exact H.
  - intros fs' i l0 w0 H. exact H.
  - intros i ds l0 store w0 HW0 [Hc0 Hs0].
    destruct (direction_reuse args input_files ck k f i ds l0 store w0
                Hf HW0 Hc0 Hs0) as [Ha Hb].
    split; [exact Ha|]. intros l' s' Hs. specialize (Hb l' s' Hs).
    split; [|now intros _].
    intros k1 f1 Hlt. apply Hb. lia.
  - split; [exact Hc|now intros []].
  - split; [exact H1|]. intros l' Hs. now apply (H2 l' Hs).
Qed.

Lemma wmtp_reuse_main args input_files model_paths fs0 :
  wmtp_reuse input_files (fst (main args input_files model_paths fs0)).
Proof.
  unfold main.
  apply (for_enumerate_rule (checkpoint_step args input_files)
           (wmtp_reuse input_files) (fun _ _ _ => True) model_paths 0%nat);
    [| |exact I].
  - intros c model_path l w _ HW _. split; [|now intros].
    unfold checkpoint_step.
    destruct (load_checkpoint args (0 + c) model_path) as [ck|e]; [|exact HW].
    apply (for_enumerate_rule (file_step args ck) (wmtp_reuse input_files)
             (fun k l w => wmtp_cached input_files (ck_index ck) k l w)
             input_files 0%nat); [|exact HW|].
    + intros k f l0 w0 Hk HW0 Hc0. cbn [Nat.add] in *.
      now apply file_reuse.
    + intros k1 f1 Hlt. lia.
  - intros c k1 k2 f1 f2 _ _ _ _ _. split.
    + intros a [].
    + intros (cl & [] & _).
Qed.

(** *** A run that finishes has written every direction of every file *)

Lemma direction_step_ok args ck k filename i ds l store w l' store' :
  snd (direction_step args ck k filename i ds (l, store) w) = Ok (l', store') ->
  uses (fst (direction_step args ck k filename i ds (l, store) w)) =
    uses w ++ match preds l' with
              | Some (Some a) => [mkUse (ck_index ck) k i a]
              | _ => []
              end
  /\ (should_compute i filename l = true -> exists a, preds l' = Some (Some a))
  /\ (should_compute i filename l = false -> l' = take_from_cache filename l).
Proof.
  intros Hs. pose proof (direction_step_locals _ _ _ _ _ _ _ _ _ _ Hs) as Hl.
  cbn [fst] in Hl. rewrite direction_step_world. cbn [fst].
  destruct (obtain_preds_cases args ck k filename i ds l w)
    as [(_ & e & _ & Ho) | [(Hsc & v & _ & Ho) | (Hsc & Ho)]];
    rewrite Ho in *; cbn [snd] in Hl.
  - discriminate.
  - injection Hl as <-. rewrite uses_log_use. cbn [uses add_call].
    split; [reflexivity|]. split; [|congruence].
    intros _. rewrite store_in_cache_preds. cbn. eauto.
  - injection Hl as <-. rewrite uses_log_use.
    split; [reflexivity|]. split; [congruence|reflexivity].
Qed.

Lemma tagged_reuse_bound filename l :
  has_tag filename = true -> should_compute 0 filename l = false ->
  exists a, preds (take_from_cache filename l) = Some (Some a).
Proof.
  unfold has_tag, should_compute, take_from_cache. cbn [Nat.eqb orb].
  destruct (str_in "arp" filename); cbn [andb orb].
  - destruct (ar_source_cache l) as [a|]; [intros _ _; now exists a|].
    discriminate.
  - destruct (str_in "wmtp" filename); [|discriminate]. cbn [andb].
    destruct (wmt_source_cache l) as [a|]; [intros _ _; now exists a|].
    discriminate.
Qed.

Lemma file_step_writes args ck k f l w l' :
  snd (file_step args ck k f l w) = Ok l' ->
  preds_usable l ->
  (forall u, In u (uses w) -> In u (uses (fst (file_step args ck k f l w))))
  /\ (forall i, (i < 2)%nat ->
        exists a, In (mkUse (ck_index ck) k i a)
                     (uses (fst (file_step args ck k f l w))))
  /\ exists a, preds l' = Some (Some a).
Proof.
  intros Hs Hpre.
  assert (Hbound : has_tag (basename f) = true
                   \/ exists a, preds l = Some (Some a)).
  { destruct (has_tag (basename f)) eqn:Ht; [now left|right].
    destruct Hpre as [Hn|Hb]; [|exact Hb].
    destruct (untagged_unbound_raises args ck k f l w Ht Hn) as (e & He).
    congruence. }
  destruct (file_step_cases args ck k f l w)
    as [(e & He) | (d & ds0 & ds1 & _ & _ & _ & _ & Hf)];
    [rewrite He in Hs; discriminate|].
  rewrite Hf in *. clear Hf. cbn [for_enumerate] in *.
  destruct (direction_step args ck k (basename f) 0 ds0 (l, JDict d) w)
    as [w1 [[l1 s1]|e]] eqn:H0; [|discriminate].
  destruct (direction_step_ok args ck k (basename f) 0 ds0 l (JDict d) w l1 s1)
    as (Hu0 & Hc0 & Hr0); [now rewrite H0|].
  rewrite H0 in Hu0. cbn [fst] in Hu0.
  destruct (direction_step args ck k (basename f) 1 ds1 (l1, s1) w1)
    as [w2 [[l2 s2]|e]] eqn:H1; [|discriminate].
  destruct (direction_step_ok args ck k (basename f) 1 ds1 l1 s1 w1 l2 s2)
    as (Hu1 & Hc1 & _); [now rewrite H1|].
  rewrite H1 in Hu1. cbn [fst] in Hu1.
  destruct (json_dump_error s2); [discriminate|].
  cbn [fst snd] in *. injection Hs as <-. cbn [uses write_json].
  destruct (Hc1 (should_compute_target _ _)) as (a1 & Ha1).
  rewrite Ha1 in Hu1.
  assert (Hb1 : exists a0, preds l1 = Some (Some a0)).
  { destruct (should_compute 0 (basename f) l) eqn:Hsc; [now apply Hc0|].
    rewrite (Hr0 eq_refl).
    destruct Hbound as [Ht|Hb]; [now apply tagged_reuse_bound|].
    destruct (has_tag (basename f)) eqn:Ht; [now apply tagged_reuse_bound|].
    now rewrite (proj2 (untagged_not_computed _ l Ht)). }
  destruct Hb1 as (a0 & Ha0). rewrite Ha0 in Hu0.
  rewrite Hu1, Hu0. split; [|split].
  - intros u Hu. apply in_or_app. left. apply in_or_app. now left.
  - intros i Hi. destruct i as [|[|i]]; [| |lia].
    + exists a0. apply in_or_app. left. apply in_or_app. right. now left.
    + exists a1. apply in_or_app. right. now left.
  - now exists a1.
Qed.

Lemma finished_run_writes args input_files model_paths fs0 l :
  snd (main args input_files model_paths fs0) = Ok l ->
  forall c k i, (c < List.length model_paths)%nat ->
    (k < List.length input_files)%nat -> (i < 2)%nat ->
    exists a, In (mkUse c k i a)
                 (uses (fst (main args input_files model_paths fs0))).
Proof.
  intros Hs. unfold main in *.
  destruct (for_enumerate_rule (checkpoint_step args input_files)
              (fun _ => True)
              (fun c l w =>
                 preds_usable l
                 /\ forall c' k i, (c' < c)%nat ->
                      (k < List.length input_files)%nat -> (i < 2)%nat ->
                      exists a, In (mkUse c' k i a) (uses w))
              model_paths 0%nat) with (s := initial_locals)
                                      (w := mkWorld fs0 [] []) as [_ H];
    [|exact I| |].
  - intros c model_path l0 w0 _ _ [Hp0 Hu0]. split; [exact I|].
    cbn [Nat.add]. unfold checkpoint_step.
    destruct (load_checkpoint args c model_path) as [ck|e] eqn:Hload;
      [|discriminate].
    apply load_checkpoint_index in Hload as [Hidx _].
    destruct (for_enumerate_rule (file_step args ck) (fun _ => True)
                (fun k l w =>
                   preds_usable l
                   /\ (forall u, In u (uses w0) -> In u (uses w))
                   /\ forall k' i, (k' < k)%nat -> (i < 2)%nat ->
                        exists a, In (mkUse c k' i a) (uses w))
                input_files 0%nat) with (s := reset_caches l0) (w := w0)
      as [_ H]; [|exact I| |].
    + intros k f l1 w1 _ _ (Hp1 & Hg1 & Hu1). split; [exact I|].
      cbn [Nat.add]. intros l' Hs'.
      destruct (file_step_writes args ck k f l1 w1 l' Hs' Hp1)
        as (Hg & Hw & Hb).
      split; [now right|]. split; [intros u Hu; apply Hg; now apply Hg1|].
      intros k' i Hk' Hi. destruct (Nat.eq_dec k' k) as [->|Hne].
      * rewrite <- Hidx. now apply Hw.
      * destruct (Hu1 k' i ltac:(lia) Hi) as (a & Ha).
        exists a. now apply Hg.
    + split; [exact Hp0|]. split; [now intros|]. intros k' i Hk'. lia.
    + intros l' Hs'. destruct (H l' Hs') as (Hp & Hg & Hu).
      cbn [Nat.add] in Hu. split; [exact Hp|].
      intros c' k i Hc' Hk Hi. destruct (Nat.eq_dec c' c) as [->|Hne].
      * now apply Hu.
      * destruct (Hu0 c' k i ltac:(lia) Hk Hi) as (a & Ha).
        exists a. now apply Hg.
  - split; [now left|]. intros c' k i Hc'. lia.
  - intros c k i Hc Hk Hi. destruct (H l Hs) as [_ Hu]. now apply Hu.
Qed.

End CacheReuseRun.

(** ** Checkpoint names *)

Section CheckpointNames.

Context {E : Externals}.

Lemma load_checkpoint_no_pattern args c model_path :
  has_ML_digits (basename (dirname model_path)) = false ->
  exists e, load_checkpoint args c model_path = Raise e.
Proof.
  intros H. destruct (no_pattern_raises _ H) as (e & He).
  exists e. unfold load_checkpoint. now rewrite He.
Qed.

(** C9.  When the name of the directory of a checkpoint has no ML
    followed by a digit, the run ends with a raise at that checkpoint:
    the world is the one left by the checkpoints before it, and no
    checkpoint after it is processed. *)
Theorem malformed_name_aborts args input_files before bad after fs0 :
  has_ML_digits (basename (dirname bad)) = false ->
  (exists e,
     snd (main args input_files (before ++ bad :: after) fs0) = Raise e)
  /\ fst (main args input_files (before ++ bad :: after) fs0)
     = fst (main args input_files before fs0).
Proof.
  intros H. unfold main. rewrite for_enumerate_app.
  destruct (for_enumerate (checkpoint_step args input_files) 0 before
              initial_locals (mkWorld fs0 [] [])) as [w [l|e]]; cbn [fst snd].
  - cbn [for_enumerate]. unfold checkpoint_step.
    destruct (load_checkpoint_no_pattern args (0 + List.length before) bad H)
      as (e & ->).
    cbn [fst snd]. split; [now exists e|reflexivity].
  - split; [now exists e|reflexivity].
Qed.

End CheckpointNames.

(** ** The arguments of the model call *)

(** C5, as the code has it.  For a model type other than bert no tensor
    of segment ids reaches the model; the argument [token_type_ids] is
    left out for distilbert only, and is passed as [None] for every other
    type, among them xlmr, the type that [main] chooses for a name with
    xlm-roberta. *)
Theorem segment_ids_not_passed model_type batch :
  String.eqb model_type "bert" = false ->
  (forall m, dict_get "token_type_ids" (build_inputs model_type batch)
             <> Some (Some m))
  /\ (dict_get "token_type_ids" (build_inputs model_type batch) =
      if String.eqb model_type "distilbert" then None else Some None)
  /\ (forall metadata,
        str_in "xlm-roberta" metadata = true ->
        dict_get "token_type_ids"
                 (build_inputs (infer_model_type metadata) batch) = Some None).
Proof.
  intros Hb.
  assert (Hget : dict_get "token_type_ids" (build_inputs model_type batch) =
                 if String.eqb model_type "distilbert" then None
                 else Some None).
  { unfold build_inputs. cbn [existsb]. rewrite Hb.
    destruct (String.eqb model_type "distilbert"); reflexivity. }
  split; [|split].
  - intros m. rewrite Hget.
    destruct (String.eqb model_type "distilbert"); discriminate.
  - exact Hget.
  - intros metadata Hx. unfold infer_model_type. now rewrite Hx.
Qed.

Lemma segment_ids_not_passed_witness :
  String.eqb "xlmr" "bert" = false
  /\ dict_get "token_type_ids" (build_inputs "xlmr" sample_batch) = Some None.
Proof.
  split; [reflexivity|].
  exact (proj1 (proj2 (segment_ids_not_passed "xlmr" sample_batch eq_refl))).
Defined.

(** C5 as it is stated fails for xlmr: the argument is there, bound to
    [None]. *)
Lemma segment_ids_key_present :
  infer_model_type "xlm-roberta-base_ML128" = "xlmr"
  /\ String.eqb "xlmr" "bert" = false
  /\ dict_get "token_type_ids" (build_inputs "xlmr" sample_batch) <> None.
Proof. repeat split. discriminate. Qed.

(** ** The feature builder *)

Section FeatureBuilder.

Context {E : Externals}.

Lemma mapM_bind_split {A B C} (f : A -> result B) (g : B -> result C) l r :
  mapM (fun x => y <- f x ;; g y) l = Ok r ->
  exists ys, mapM f l = Ok ys /\ mapM g ys = Ok r.
Proof.
  revert r. induction l as [|x l IH]; simpl; intros r H.
  - injection H as <-. now exists [].
  - destruct (f x) as [y|]; [|discriminate]. simpl in H.
    destruct (g y) as [z|] eqn:Hg; [|discriminate]. simpl in H.
    destruct (mapM (fun x => y <- f x ;; g y) l) as [zs|]; [|discriminate].
    simpl in H. injection H as <-.
    destruct (IH zs eq_refl) as (ys & -> & Hys).
    exists (y :: ys). simpl. now rewrite Hg, Hys.
Qed.

Lemma mapM_pair {A B C} (f : A -> result B) (g : A -> result C) l xs ys :
  mapM f l = Ok xs -> mapM g l = Ok ys ->
  exists both,
    mapM (fun x => a <- f x ;; b <- g x ;; Ok (a, b)) l = Ok both
    /\ map fst both = xs /\ map snd both = ys.
Proof.
  revert xs ys. induction l as [|x l IH]; simpl; intros xs ys Hf Hg.
  - injection Hf as <-. injection Hg as <-. now exists [].
  - destruct (f x) as [a|]; [|discriminate]. simpl in Hf.
    destruct (g x) as [b|]; [|discriminate]. simpl in Hg.
    destruct (mapM f l) as [xs'|]; [|discriminate].
    destruct (mapM g l) as [ys'|]; [|discriminate].
    simpl in Hf, Hg. injection Hf as <-. injection Hg as <-.
    destruct (IH xs' ys' eq_refl eq_refl) as (both & -> & <- & <-).
    now exists ((a, b) :: both).
Qed.

(** C7.  When every key has a feature in both directions,
    [prepare_prediction_data] returns exactly two datasets, the one of
    the source pairs first and the one of the target pairs second, and
    row [j] of each is the feature of the [j]-th key of the record. *)
Theorem two_groups_in_key_order d tok msl src tgt :
  mapM (feature_of (JDict d) tok msl "source" "de") (dict_keys d) = Ok src ->
  mapM (feature_of (JDict d) tok msl "target" "en") (dict_keys d) = Ok tgt ->
  features_rectangular src = true ->
  features_rectangular tgt = true ->
  prepare_prediction_data (JDict d) tok msl
  = Ok [dataset_of src; dataset_of tgt]
  /\ (forall j key, nth_error (dict_keys d) j = Some key ->
        exists fs ft,
          feature_of (JDict d) tok msl "source" "de" key = Ok fs
          /\ feature_of (JDict d) tok msl "target" "en" key = Ok ft
          /\ nth_error src j = Some fs /\ nth_error tgt j = Some ft
          /\ nth_error (all_input_ids (dataset_of src)) j = Some (input_ids fs)
          /\ nth_error (all_input_ids (dataset_of tgt)) j = Some (input_ids ft)).
Proof.
  intros Hs Ht Hrs Hrt. split.
  - unfold feature_of in Hs, Ht.
    destruct (mapM_bind_split _ _ _ _ Hs) as (exs & Hexs & Hcs).
    destruct (mapM_bind_split _ _ _ _ Ht) as (ext & Hext & Hct).
    destruct (mapM_pair _ _ _ _ _ Hexs Hext) as (both & Hboth & Hfst & Hsnd).
    unfold prepare_prediction_data. cbn [json_keys rbind].
    rewrite Hboth. cbn [rbind mapM]. rewrite Hfst, Hsnd.
    unfold convert_examples_to_features. rewrite Hcs, Hct. cbn [rbind].
    now rewrite !build_dataset_rectangular by assumption.
  - intros j key Hj.
    destruct (mapM_ok_nth _ _ _ _ _ Hs Hj) as (fs & Hns & Hfs).
    destruct (mapM_ok_nth _ _ _ _ _ Ht Hj) as (ft & Hnt & Hft).
    exists fs, ft. repeat split; try assumption.
    + cbn. now apply map_nth_error.
    + cbn. now apply map_nth_error.
Qed.

Lemma empty_record_file_raises args ck k f l w :
  read_json f w = Ok (JDict []) ->
  is_ok (snd (file_step args ck k f l w)) = false.
Proof.
  intros Hr.
  destruct (file_step_cases args ck k f l w)
    as [(e & ->) | (d & ds0 & ds1 & Hr' & _ & H0 & H1 & ->)];
    [reflexivity|].
  rewrite Hr in Hr'. injection Hr' as <-. cbn [List.length] in H0, H1.
  destruct (run_engine_empty args ck ds0 H0) as (e0 & He0).
  destruct (run_engine_empty args ck ds1 H1) as (e1 & He1).
  cbn [for_enumerate]. unfold direction_step at 1. cbn [fst snd].
  destruct (obtain_preds_cases args ck k (basename f) 0 ds0 l w)
    as [(_ & e & _ & ->) | [(_ & v & Hv & _) | (_ & ->)]];
    [reflexivity|congruence|].
  cbn [merge_results merge_rows rbind].
  unfold direction_step, obtain_preds. cbn [fst snd].
  rewrite should_compute_target, He1. reflexivity.
Qed.

(** C10.  With no batch the loop leaves [preds] at [None] and the softmax
    raises; an empty record gives two datasets without rows, the engine
    raises on both, and a file that holds an empty record ends the run. *)
Theorem empty_record_fails args ck tok msl :
  (forall model mt,
     predict_loop model mt [] None = None
     /\ predict model [] mt = Raise ValueError)
  /\ (exists ds0 ds1,
        prepare_prediction_data (JDict []) tok msl = Ok [ds0; ds1]
        /\ is_ok (run_engine args ck ds0) = false
        /\ is_ok (run_engine args ck ds1) = false)
  /\ (forall k f l w,
        read_json f w = Ok (JDict []) ->
        is_ok (snd (file_step args ck k f l w)) = false).
Proof.
  split; [intros; now split|]. split.
  - exists (dataset_of []), (dataset_of []). split; [reflexivity|].
    destruct (run_engine_empty args ck (dataset_of []) eq_refl) as (e & ->).
    now split.
  - intros k f l w. apply empty_record_file_raises.
Qed.

End FeatureBuilder.

(** ** Merging the results into the records *)

Section Merge.

Context {E : Externals}.

Lemma entry_names_differ metadata :
  entry_name metadata 0 <> entry_name metadata 1.
Proof.
  unfold entry_name. cbn [Nat.eqb].
  induction metadata as [|c m IH]; cbn [append].
  - discriminate.
  - intros [= H]. now apply IH.
Qed.

Lemma dict_has_app_other {V} k k' (v : V) d :
  k <> k' -> dict_has k d = false -> dict_has k (d ++ [(k', v)]) = false.
Proof.
  unfold dict_has. intros Hne.
  induction d as [|[k0 v0] d IH]; simpl.
  - apply String.eqb_neq in Hne. now rewrite Hne.
  - destruct (String.eqb k k0); [discriminate|exact IH].
Qed.

(** One round of lines 225-226: the keys stay, every record is a
    dictionary and gets [entry] set to a number. *)
Lemma merge_rows_ok entry item d :
  forall j d',
  merge_rows entry item j d = Ok d' ->
  Forall2 (fun kv kv' =>
             fst kv' = fst kv
             /\ exists fields x,
                  snd kv = JDict fields
                  /\ snd kv' = JDict (dict_set entry (JFloat x) fields))
          d d'.
Proof.
  induction d as [|[key rec] d IH]; intros j d' H; simpl in H.
  - injection H as <-. constructor.
  - destruct rec as [| | | | | |fields]; try discriminate.
    destruct (item j) as [x|]; [|discriminate]. simpl in H.
    destruct (merge_rows entry item (S j) d) as [rest|] eqn:Hrest;
      [|discriminate].
    simpl in H. injection H as <-. constructor.
    + split; [reflexivity|]. now exists fields, x.
    + now apply (IH (S j)).
Qed.

Lemma direction_step_store args ck k filename i ds l store w l' store' :
  snd (direction_step args ck k filename i ds (l, store) w) = Ok (l', store') ->
  exists item,
    merge_results (entry_name (metadata ck) i) item store = Ok store'.
Proof.
  unfold direction_step. cbn [fst snd].
  destruct (obtain_preds args ck k filename i ds l w) as [w1 [l1|e]];
    cbn [snd]; [|discriminate].
  destruct (merge_results _ _ store) as [s|e] eqn:Hm; cbn [snd];
    [|discriminate].
  intros [= _ <-]. eexists. exact Hm.
Qed.

Lemma merged_twice metadata fields xs xt :
  merged_record metadata fields
    (dict_set (entry_name metadata 1) (JFloat xt)
       (dict_set (entry_name metadata 0) (JFloat xs) fields)).
Proof.
  pose proof (entry_names_differ metadata) as Hne.
  exists xs, xt. repeat split.
  - intros name Hs Ht. now rewrite !dict_get_set_other by assumption.
  - rewrite dict_get_set_other by exact Hne. apply dict_get_set_same.
  - apply dict_get_set_same.
  - intros Hns Hnt.
    rewrite (dict_set_absent (entry_name metadata 0)) by exact Hns.
    rewrite dict_set_absent.
    + now rewrite <- app_assoc.
    + apply dict_has_app_other; [|exact Hnt]. intros Heq. now apply Hne.
Qed.

(** A record that had neither field is merged as the spec words it. *)
Lemma merged_record_additive metadata fields fields' :
  merged_record metadata fields fields' ->
  dict_has (entry_name metadata 0) fields = false ->
  dict_has (entry_name metadata 1) fields = false ->
  purely_additive fields fields'.
Proof.
  intros (xs & xt & _ & _ & _ & Happ) Hs Ht.
  rewrite (Happ Hs Ht). split.
  - intros name v. clear. induction fields as [|[k0 v0] fields IH]; simpl.
    + discriminate.
    + destruct (String.eqb name k0); [trivial|exact IH].
  - rewrite length_app. reflexivity.
Qed.

(** C8, as the code has it.  When a file has been processed under a
    checkpoint, it holds the same keys in the same order; in every record
    the two fields named after the checkpoint hold numbers, every field of
    another name is as it was, and a record that had neither of the two
    fields has them appended, so that it has exactly two fields more. *)
Theorem merge_sets_two_fields args ck k f l w w' l' d :
  read_json f w = Ok (JDict d) ->
  file_step args ck k f l w = (w', Ok l') ->
  exists d',
    read_json f w' = Ok (JDict d')
    /\ Forall2 (fun kv kv' =>
                  fst kv' = fst kv
                  /\ exists fields fields',
                       snd kv = JDict fields /\ snd kv' = JDict fields'
                       /\ merged_record (metadata ck) fields fields')
               d d'.
Proof.
  intros Hr Hstep.
  destruct (file_step_cases args ck k f l w)
    as [(e & He) | (d0 & ds0 & ds1 & Hr' & _ & _ & _ & Hf)];
    [congruence|].
  rewrite Hr in Hr'. injection Hr' as <-.
  rewrite Hf in Hstep. clear Hf. cbn [for_enumerate] in Hstep.
  destruct (direction_step args ck k (basename f) 0 ds0 (l, JDict d) w)
    as [w1 [[l1 s1]|e]] eqn:H0; [|discriminate].
  destruct (direction_step args ck k (basename f) 1 ds1 (l1, s1) w1)
    as [w2 [[l2 s2]|e]] eqn:H1; [|discriminate].
  destruct (json_dump_error s2); [discriminate|].
  injection Hstep as <- <-.
  destruct (direction_step_store args ck k (basename f) 0 ds0 l (JDict d) w
              l1 s1) as (item0 & Hm0); [now rewrite H0|].
  destruct (direction_step_store args ck k (basename f) 1 ds1 l1 s1 w1
              l2 s2) as (item1 & Hm1); [now rewrite H1|].
  cbn [merge_results] in Hm0.
  destruct (merge_rows _ item0 0 d) as [d1|] eqn:Hd1; [|discriminate].
  cbn [rbind] in Hm0. injection Hm0 as <-.
  cbn [merge_results] in Hm1.
  destruct (merge_rows _ item1 0 d1) as [d2|] eqn:Hd2; [|discriminate].
  cbn [rbind] in Hm1. injection Hm1 as <-.
  exists d2. split.
  - unfold read_json, write_json. cbn [fs]. now rewrite dict_get_set_same.
  - apply merge_rows_ok in Hd1, Hd2. clear - Hd1 Hd2.
    revert d2 Hd2. induction Hd1 as [|[k0 r0] [k1 r1] d d1 H01 Hd1 IH];
      intros d2 Hd2; inversion Hd2 as [|? [k2 r2] ? d2' H12 Hd2']; subst.
    + constructor.
    + constructor; [|now apply IH].
      cbn [fst snd] in *.
      destruct H01 as (<- & fields & xs & -> & ->).
      destruct H12 as (-> & fields1 & xt & [= <-] & ->).
      split; [reflexivity|].
      exists fields, (dict_set (entry_name (metadata ck) 1) (JFloat xt)
                        (dict_set (entry_name (metadata ck) 0) (JFloat xs)
                           fields)).
      split; [reflexivity|]. split; [reflexivity|]. apply merged_twice.
Qed.

End Merge.

(** ** Runs of the small instance *)

Ltac in_cases H :=
  vm_compute in H;
  repeat match type of H with
         | _ \/ _ => destruct H as [H|H]
         | False => destruct H
         end.

(** C2 as it is stated fails for names that have the tag arp as well.
    In the first run the engine runs for the source direction of the
    second file although both names contain wmtp; in the second run the
    third file gets the list of the arp cache, which is not the list
    written for the second file, and the two files end with different
    values in the source field of the checkpoint. *)
Lemma wmtp_tag_alone_not_enough :
  (str_in "wmtp" (basename "d/arp_wmtp_a.json") = true
   /\ str_in "wmtp" (basename "d/wmtp_b.json") = true
   /\ engine_invoked_for (fst both_tags_run) 0 1 0
   /\ ~ source_served_from (fst both_tags_run) 0 0 1)
  /\ (str_in "wmtp" (basename "d/wmtp_a.json") = true
      /\ str_in "wmtp" (basename "d/arp_wmtp_b.json") = true
      /\ In (mkUse 0 2 0 0) (uses (fst arp_first_run))
      /\ ~ In (mkUse 0 1 0 0) (uses (fst arp_first_run))
      /\ ~ source_served_from (fst arp_first_run) 0 1 2
      /\ stored_column (fst arp_first_run) "d/wmtp_a.json" "bert_ML8_source"
         = Some [Some (JFloat 1375%Z); Some (JFloat 1376%Z)]
      /\ stored_column (fst arp_first_run) "d/arp_wmtp_b.json"
                       "bert_ML8_source"
         = Some [Some (JFloat 1381%Z); Some (JFloat 1382%Z)]).
Proof.
  assert (Hinv : engine_invoked_for (fst both_tags_run) 0 1 0).
  { exists (@mkCall sample_externals 0 1 0 [1375%Z; 1376%Z]).
    split; [vm_compute; tauto|now repeat split]. }
  assert (Hnin : ~ In (mkUse 0 1 0 0)
                      (uses (fst arp_first_run))).
  { intros H. in_cases H; discriminate. }
  assert (Hin : In (mkUse 0 2 0 0)
                   (uses (fst arp_first_run))).
  { vm_compute. tauto. }
  repeat split; try assumption; try (vm_compute; reflexivity).
  - intros [_ Hno]. now apply Hno.
  - intros [Hserved _]. apply Hnin. now apply Hserved.
Qed.

(** In that run the second file does get the list of the first. *)
Example wmtp_run_served :
  In (mkUse 0 0 0 0) (uses (fst wmtp_run))
  /\ In (mkUse 0 1 0 0) (uses (fst wmtp_run))
  /\ is_ok (snd wmtp_run) = true.
Proof. vm_compute. tauto. Qed.

(** C1 fails on the code.  A file without a tag that comes second gets,
    for its source direction, the list computed for the target direction
    of the file before it, and the engine does not run; a file without a
    tag that comes first ends the run on the unbound [preds]. *)
Theorem untagged_source_not_computed :
  has_tag (basename "d/plain.json") = false
  /\ In (mkUse 0 1 0 1) (uses (fst untagged_run))
  /\ (exists cl, nth_error (calls (fst untagged_run)) 1 = Some cl
                 /\ call_at 0 0 1 cl)
  /\ ~ engine_invoked_for (fst untagged_run) 0 1 0
  /\ ~ computed_fresh (fst untagged_run) 0 1 0
  /\ snd untagged_alone_run = Raise NameError.
Proof.
  assert (Hin : In (mkUse 0 1 0 1)
                   (uses (fst untagged_run))).
  { vm_compute. tauto. }
  repeat split; try assumption.
  - eexists. split; [reflexivity|now repeat split].
  - intros (cl & H & Hc & Hk & Hi). in_cases H; subst cl; discriminate.
  - intros Hfresh. destruct (Hfresh 1%nat Hin) as (cl & Hn & Hc & Hk & Hi).
    vm_compute in Hn. injection Hn as <-. discriminate.
Qed.

(** What is stored for the file without a tag: its source fields hold
    the target results of the other file. *)
Example untagged_run_stored :
  exists r0 r1 fields0,
    read_json "d/plain.json" (fst untagged_run) = Ok (JDict [r0; r1])
    /\ snd r0 = JDict fields0
    /\ dict_get "bert_ML8_source" fields0 = Some (JFloat 1373%Z)
    /\ nth_error (calls (fst untagged_run)) 1
       = Some (@mkCall sample_externals 0 0 1 [1373%Z; 1377%Z]).
Proof. do 3 eexists. vm_compute. repeat split. Qed.

Lemma malformed_name_aborts_witness :
  has_ML_digits (basename (dirname "m/bert-base/ckpt")) = false
  /\ (exists e, snd malformed_run = Raise e)
  /\ fst malformed_run = fst (sample_main ["d/wmtp_a.json"] []
                                [("d/wmtp_a.json", Some sample_store_a)]).
Proof.
  split; [reflexivity|].
  exact (@malformed_name_aborts sample_externals sample_args
           ["d/wmtp_a.json"] [] "m/bert-base/ckpt" ["m/bert_ML8/ckpt"]
           [("d/wmtp_a.json", Some sample_store_a)] eq_refl).
Defined.

Lemma two_groups_in_key_order_witness :
  @prepare_prediction_data sample_externals sample_store_a tt 8%Z
  = Ok [dataset_of [mkInputFeatures [2; 3]%Z [1; 1]%Z [0; 1]%Z 1%Z;
                    mkInputFeatures [4; 2]%Z [1; 1]%Z [0; 1]%Z 1%Z];
        dataset_of [mkInputFeatures [1; 2]%Z [1; 1]%Z [0; 1]%Z 1%Z;
                    mkInputFeatures [3; 4]%Z [1; 1]%Z [0; 1]%Z 1%Z]].
Proof.
  exact (proj1 (@two_groups_in_key_order sample_externals
                  [("0", sample_record "ab" "abc" "x" "xy");
                   ("1", sample_record "abcd" "ab" "xyz" "xyzw")]
                  tt 8%Z _ _ eq_refl eq_refl eq_refl eq_refl)).
Defined.

(** C8 as it is stated fails when a record already has a field of the
    checkpoint, as after an earlier run or with two checkpoints in
    directories of one name: the field is overwritten and one field is
    added, not two. *)
Lemma rerun_overwrites_field :
  exists w' l' fields fields',
    @file_step sample_externals sample_args sample_checkpoint 0
               "d/wmtp_a.json" initial_locals (sample_world sample_store_rerun)
    = (w', Ok l')
    /\ read_json "d/wmtp_a.json" (sample_world sample_store_rerun)
       = Ok (JDict [("0", JDict fields)])
    /\ read_json "d/wmtp_a.json" w' = Ok (JDict [("0", JDict fields')])
    /\ dict_get "bert_ML8_source" fields = Some (JFloat 7%Z)
    /\ dict_get "bert_ML8_source" fields' = Some (JFloat 5%Z)
    /\ ~ purely_additive fields fields'.
Proof.
  do 4 eexists.
  split; [vm_compute; reflexivity|].
  split; [vm_compute; reflexivity|].
  split; [vm_compute; reflexivity|].
  split; [reflexivity|]. split; [reflexivity|].
  intros [_ Hlen]. vm_compute in Hlen. discriminate.
Qed.

Lemma merge_sets_two_fields_witness :
  read_json "d/wmtp_a.json" (sample_world sample_store_rerun)
  = Ok sample_store_rerun
  /\ exists d',
       read_json "d/wmtp_a.json"
         (fst (@file_step sample_externals sample_args sample_checkpoint 0
                 "d/wmtp_a.json" initial_locals
                 (sample_world sample_store_rerun)))
       = Ok (JDict d')
       /\ Forall2 (fun kv kv' =>
                     fst kv' = fst kv
                     /\ exists fields fields',
                          snd kv = JDict fields /\ snd kv' = JDict fields'
                          /\ @merged_record sample_externals "bert_ML8"
                                            fields fields')
            [("0", JDict [("sentence_original",
                           JDict [("source", JStr "ab"); ("target", JStr "x")]);
                          ("sentence_paraphrase",
                           JDict [("source", JStr "abc");
                                  ("target", JStr "xy")]);
                          ("gold_label", JInt 1);
                          ("bert_ML8_source", JFloat 7%Z)])]
            d'.
Proof.
  split; [reflexivity|].
  apply (@merge_sets_two_fields sample_externals sample_args sample_checkpoint
           0%nat "d/wmtp_a.json" initial_locals
           (sample_world sample_store_rerun) _
           (mkLocals (Some (Some 1%nat)) (Some 0%nat) None));
    [reflexivity|vm_compute; reflexivity].
Defined.

(** ** The guarantee of the engine *)

Section EngineGuarantee.

Context {E : Externals}.

(** C4 fails on the code for a group without pairs: what
    [prepare_prediction_data] makes of an empty record has no rows, and
    the engine raises on it instead of returning a vector of length 0. *)
Theorem engine_fails_on_empty_group args ck tok msl :
  exists ds0 ds1,
    prepare_prediction_data (JDict []) tok msl = Ok [ds0; ds1]
    /\ dataset_len ds0 = 0%nat /\ dataset_len ds1 = 0%nat
    /\ ~ engine_returns_vector args ck ds0
    /\ ~ engine_returns_vector args ck ds1.
Proof.
  exists (dataset_of []), (dataset_of []).
  split; [reflexivity|]. split; [reflexivity|]. split; [reflexivity|].
  assert (H : ~ engine_returns_vector args ck (dataset_of [])).
  { intros (v & Hv & _).
    destruct (run_engine_empty args ck (dataset_of []) eq_refl) as (e & He).
    congruence. }
  now split.
Qed.

Lemma sequential_batches_cover bs :
  (0 < bs)%nat ->
  forall fuel ds, (dataset_len ds <= fuel)%nat ->
    concat (map batch0 (sequential_batches fuel bs ds)) = all_input_ids ds.
Proof.
  intros Hbs. induction fuel as [|fuel IH]; intros ds Hlen.
  - unfold dataset_len in Hlen. simpl.
    destruct (all_input_ids ds); [reflexivity|simpl in Hlen; lia].
  - simpl. destruct (dataset_len ds) as [|n] eqn:Hn.
    + unfold dataset_len in Hn.
      destruct (all_input_ids ds); [reflexivity|discriminate].
    + simpl. rewrite IH.
      * simpl. apply firstn_skipn.
      * unfold dataset_len in *. simpl. rewrite length_skipn. lia.
Qed.

Lemma predict_loop_some model mt batches p :
  predict_loop model mt batches (Some p) =
  Some (p ++ concat (map (fun b => forward model (build_inputs mt b)) batches)).
Proof.
  revert p. induction batches as [|b rest IH]; intros p; simpl.
  - now rewrite app_nil_r.
  - rewrite IH. now rewrite <- app_assoc.
Qed.

Lemma predict_loop_first model mt b rest :
  predict_loop model mt (b :: rest) None =
  Some (concat (map (fun b => forward model (build_inputs mt b)) (b :: rest))).
Proof. simpl. apply predict_loop_some. Qed.

Lemma mapM_total {A B} (f : A -> result B) l :
  (forall x, In x l -> exists y, f x = Ok y) -> exists r, mapM f l = Ok r.
Proof.
  induction l as [|x l IH]; intros H; simpl.
  - now exists [].
  - destruct (H x (or_introl eq_refl)) as (y & ->).
    destruct IH as (r & ->); [intros z Hz; apply H; now right|].
    now exists (y :: r).
Qed.

Lemma mapM_ok_in {A B} (f : A -> result B) l r y :
  mapM f l = Ok r -> In y r -> exists x, In x l /\ f x = Ok y.
Proof.
  revert r. induction l as [|x l IH]; simpl; intros r H Hy.
  - injection H as <-. destruct Hy.
  - destruct (f x) as [y0|] eqn:Hf; [|discriminate]. simpl in H.
    destruct (mapM f l) as [ys|]; [|discriminate]. simpl in H.
    injection H as <-. destruct Hy as [<-|Hy].
    + exists x. split; [now left|exact Hf].
    + destruct (IH ys eq_refl Hy) as (x' & Hx' & Hf').
      exists x'. split; [now right|exact Hf'].
Qed.

Lemma length_concat_map {A B C} (f : A -> list B) (g : A -> list C) l :
  (forall x, List.length (f x) = List.length (g x)) ->
  List.length (concat (map f l)) = List.length (concat (map g l)).
Proof.
  intros H. induction l as [|x l IH]; simpl; [reflexivity|].
  now rewrite !length_app, H, IH.
Qed.

(** For a group with at least one pair the engine returns one
    probability per pair, when the classifier returns one row of logits
    per row of a batch and the softmax of a row has a second entry. *)
Lemma engine_vector_length args ck ds :
  (0 < batch_size args)%Z ->
  dataset_len ds <> 0%nat ->
  (forall b, List.length (forward (model ck) (build_inputs (model_type ck) b))
             = List.length (batch0 b)) ->
  (forall b row, In row (forward (model ck) (build_inputs (model_type ck) b)) ->
                 nth_error (softmax row) 1 <> None) ->
  engine_returns_vector args ck ds.
Proof.
  intros Hbs Hne Hrows Hcols. unfold engine_returns_vector, run_engine, DataLoader.
  destruct (batch_size args <=? 0)%Z eqn:Hle; [apply Z.leb_le in Hle; lia|].
  cbn [rbind].
  assert (Hcover := sequential_batches_cover (Z.to_nat (batch_size args))
                      ltac:(lia) (dataset_len ds) ds (Nat.le_refl _)).
  destruct (sequential_batches (dataset_len ds) (Z.to_nat (batch_size args)) ds)
    as [|b rest] eqn:Hb.
  { exfalso. apply Hne. unfold dataset_len. now rewrite <- Hcover. }
  unfold predict. rewrite predict_loop_first. unfold softmax_column1.
  set (logits := fun b => forward (model ck) (build_inputs (model_type ck) b)).
  destruct (mapM_total
              (fun row => match nth_error (softmax row) 1 with
                          | Some x => Ok x
                          | None => Raise IndexError
                          end)
              (concat (map logits (b :: rest)))) as (v & Hv).
  { intros row Hin. apply in_concat in Hin as (rows & Hrs & Hin).
    apply in_map_iff in Hrs as (b' & <- & _).
    specialize (Hcols b' row Hin).
    destruct (nth_error (softmax row) 1) as [x|]; [now exists x|congruence]. }
  exists v. split; [exact Hv|].
  apply mapM_ok_length in Hv. rewrite Hv.
  rewrite (length_concat_map logits batch0) by exact Hrows.
  unfold dataset_len. now rewrite <- Hcover.
Qed.

End EngineGuarantee.

(** ** The softmax over the reals *)

Section RealSoftmax.

Local Open Scope R_scope.

Lemma Rsum_nonneg l : (forall x, In x l -> 0 <= x) -> 0 <= Rsum l.
Proof.
  induction l as [|x l IH]; intros H; simpl; [lra|].
  assert (0 <= x) by (apply H; now left).
  assert (0 <= Rsum l) by (apply IH; intros y Hy; apply H; now right).
  lra.
Qed.

Lemma Rsum_ge_member l e :
  (forall x, In x l -> 0 <= x) -> In e l -> e <= Rsum l.
Proof.
  induction l as [|x l IH]; intros H He; [destruct He|].
  simpl. assert (Hx : 0 <= x) by (apply H; now left).
  assert (Hl : forall y, In y l -> 0 <= y) by (intros y Hy; apply H; now right).
  destruct He as [->|He].
  - pose proof (Rsum_nonneg l Hl). lra.
  - pose proof (IH Hl He). lra.
Qed.

Lemma softmax_R_length row :
  List.length (softmax_R row) = List.length row.
Proof. unfold softmax_R. now rewrite !length_map. Qed.

(** Every entry of the softmax of a row is a probability. *)
Lemma softmax_R_range row p : In p (softmax_R row) -> 0 <= p <= 1.
Proof.
  unfold softmax_R.
  set (es := map (fun x => exp (x - Rmax_list row)) row).
  intros Hp. apply in_map_iff in Hp as (e & <- & He).
  assert (Hpos : forall x, In x es -> 0 < x).
  { intros x Hx. apply in_map_iff in Hx as (y & <- & _). apply exp_pos. }
  assert (Hnn : forall x, In x es -> 0 <= x).
  { intros x Hx. apply Rlt_le. now apply Hpos. }
  pose proof (Hpos e He) as He0.
  pose proof (Rsum_ge_member es e Hnn He) as Hle.
  assert (Hs : 0 < Rsum es) by lra.
  pose proof (Rinv_0_lt_compat _ Hs) as Hinv.
  unfold Rdiv. split.
  - apply Rmult_le_pos; lra.
  - replace 1 with (Rsum es * / Rsum es) by (apply Rinv_r; lra).
    apply Rmult_le_compat_r; lra.
Qed.

(** For two classes the two probabilities sum to 1. *)
Lemma softmax_R_two_classes a b :
  exists p0 p1,
    softmax_R [a; b] = [p0; p1]
    /\ nth_error (softmax_R [a; b]) 1 = Some p1
    /\ p0 + p1 = 1 /\ 0 <= p1 <= 1.
Proof.
  eexists. eexists. split; [reflexivity|]. split; [reflexivity|].
  split.
  - unfold Rsum. cbn [map fold_right].
    pose proof (exp_pos (a - Rmax_list [a; b])).
    pose proof (exp_pos (b - Rmax_list [a; b])).
    field. lra.
  - apply (softmax_R_range [a; b]). right. now left.
Qed.

End RealSoftmax.

Section RealEngine.

Variables (Tok Mod : Type).
Variable str : json R -> string.
Variable conv : Tok -> Z -> InputExample R -> result InputFeatures.
Variable fwd : Mod -> list (string * option tensor) -> list (list R).
Variable load_tok : string -> string -> bool -> result Tok.
Variable load_mod : string -> string -> result Mod.
Variable dump_error : json R -> option exn.

Local Abbreviation RE :=
  (@real_externals Tok Mod str conv fwd load_tok load_mod dump_error).

(** With real logits, a classifier that returns one row of two logits
    per row of a batch, and a group with at least one pair, the engine
    returns one value per pair, each between 0 and 1. *)
Lemma real_engine_guarantee (args : arguments) (ck : @checkpoint RE)
    (ds : TensorDataset) :
  (0 < batch_size args)%Z ->
  dataset_len ds <> 0%nat ->
  (forall b, List.length (fwd (model ck) (build_inputs (model_type ck) b))
             = List.length (batch0 b)) ->
  (forall b row, In row (fwd (model ck) (build_inputs (model_type ck) b)) ->
                 List.length row = 2%nat) ->
  exists v,
    @run_engine RE args ck ds = Ok v
    /\ List.length v = dataset_len ds
    /\ Forall (fun p => 0 <= p <= 1)%R v.
Proof.
  intros Hbs Hne Hrows Hcols.
  destruct (@engine_vector_length RE args ck ds Hbs Hne Hrows)
    as (v & Hv & Hlen).
  { intros b row Hin. change (@softmax RE row) with (softmax_R row).
    apply nth_error_Some. rewrite softmax_R_length, (Hcols b row Hin). lia. }
  exists v. split; [exact Hv|]. split; [exact Hlen|].
  apply Forall_forall. intros p Hp.
  unfold run_engine in Hv.
  destruct (DataLoader ds (batch_size args)) as [batches|]; [|discriminate].
  cbn [rbind] in Hv. unfold predict, softmax_column1 in Hv.
  destruct (predict_loop _ _ batches None) as [rows|]; [|discriminate].
  destruct (mapM_ok_in _ _ _ p Hv Hp) as (row & _ & Hrow).
  cbv beta in Hrow. change (@softmax RE row) with (softmax_R row) in Hrow.
  match type of Hrow with
  | match ?t with _ => _ end = _ => destruct t as [x|] eqn:Hx
  end; [|discriminate].
  injection Hrow as <-. apply (softmax_R_range row).
  now apply nth_error_In with (n := 1%nat).
Qed.

End RealEngine.

(** * Further properties of the code *)

(** ** The sequence length is read at the leftmost ML *)

Lemma prefix_ML c c2 t :
  prefix "ML" (String c (String c2 t))
  = (Ascii.eqb c "M" && Ascii.eqb c2 "L")%bool.
Proof.
  cbn [prefix].
  destruct (ascii_dec "M" c) as [<-|Hc].
  - destruct (ascii_dec "L" c2) as [<-|Hc2]; [now destruct t|].
    cbn. symmetry. apply Ascii.eqb_neq. congruence.
  - symmetry. apply andb_false_iff. left. apply Ascii.eqb_neq. congruence.
Qed.

Lemma str_in_cons needle c hay :
  str_in needle (String c hay) = false ->
  prefix needle (String c hay) = false /\ str_in needle hay = false.
Proof.
  change (str_in needle (String c hay))
    with (if prefix needle (String c hay) then true else str_in needle hay).
  destruct (prefix needle (String c hay)); [discriminate|now split].
Qed.

Lemma re_search_leftmost a b :
  str_in "ML" a = false ->
  re_search_ML (a ++ "ML" ++ b) = Some (take_digits b).
Proof.
  induction a as [|c a IH]; intros H.
  - reflexivity.
  - apply str_in_cons in H as [Hp Hin]. specialize (IH Hin).
    cbn [append re_search_ML]. destruct a as [|c2 a'].
    + cbn [append]. cbn [append] in IH.
      replace (Ascii.eqb c "M" && Ascii.eqb "M" "L")%bool with false
        by (now rewrite andb_false_r).
      exact IH.
    + cbn [append]. rewrite prefix_ML in Hp. rewrite Hp. exact IH.
Qed.

Lemma int_of_digits_nonneg s acc :
  (0 <= acc)%Z -> (0 <= int_of_digits_acc acc s)%Z.
Proof.
  revert acc. induction s as [|c s IH]; intros acc H;
    cbn [int_of_digits_acc]; [exact H|].
  apply IH. unfold digit_value.
  pose proof (Nat2Z.is_nonneg (nat_of_ascii c - 48)). lia.
Qed.

(** The sequence length comes from the first ML of the name: the digits
    that follow it are read, and digits after a later ML are not looked
    at, so a name whose first ML has no digit behind it raises even when
    a later ML has some. *)
Theorem seq_length_from_first_ML a b :
  str_in "ML" a = false ->
  infer_max_seq_length (a ++ "ML" ++ b) = py_int (take_digits b)
  /\ (match b with
      | String d _ => is_digit d = false
      | EmptyString => True
      end ->
      infer_max_seq_length (a ++ "ML" ++ b) = Raise ValueError).
Proof.
  intros H. unfold infer_max_seq_length.
  rewrite (re_search_leftmost a b H). split; [reflexivity|].
  intros Hb. now rewrite (take_digits_nondigit b Hb).
Qed.

Lemma seq_length_from_first_ML_witness :
  str_in "ML" "X" = false
  /\ infer_max_seq_length "XML_ML128" = Raise ValueError.
Proof.
  split; [reflexivity|].
  exact (proj2 (seq_length_from_first_ML "X" "_ML128" eq_refl) eq_refl).
Defined.

(** A sequence length that is returned is not negative, and the name then
    has ML followed by a digit. *)
Theorem seq_length_sound metadata n :
  infer_max_seq_length metadata = Ok n ->
  (0 <= n)%Z /\ has_ML_digits metadata = true.
Proof.
  intros H. split.
  - unfold infer_max_seq_length, py_int in H.
    destruct (re_search_ML metadata) as [[|c s]|]; try discriminate.
    injection H as <-. apply (int_of_digits_nonneg (String c s) 0%Z). lia.
  - destruct (has_ML_digits metadata) eqn:Hm; [reflexivity|].
    destruct (no_pattern_raises metadata Hm) as (e & He). congruence.
Qed.

Lemma seq_length_sound_witness :
  infer_max_seq_length "bert-base_ML128_B32" = Ok 128%Z
  /\ (0 <= 128)%Z /\ has_ML_digits "bert-base_ML128_B32" = true.
Proof.
  split; [reflexivity|].
  exact (seq_length_sound "bert-base_ML128_B32" 128%Z eq_refl).
Defined.

(** ** The name of a checkpoint and the names of its fields *)

Lemma no_slash_no_split s : str_in "/" s = false -> split_last_slash s = None.
Proof.
  induction s as [|c s IH]; intros H; [reflexivity|].
  apply str_in_cons in H as [Hp Hin]. cbn [split_last_slash].
  rewrite (IH Hin). cbn [prefix] in Hp.
  destruct (ascii_dec "/" c) as [<-|Hc]; [now destruct s|].
  replace (Ascii.eqb c "/") with false; [reflexivity|].
  symmetry. apply Ascii.eqb_neq. congruence.
Qed.

Lemma split_at_last_slash x t :
  split_last_slash t = None ->
  split_last_slash (x ++ "/" ++ t) = Some ((x ++ "/")%string, t).
Proof.
  intros Ht. induction x as [|c x IH]; cbn [append split_last_slash].
  - now rewrite Ht.
  - cbn [append] in IH. now rewrite IH.
Qed.

Lemma rstrip_trailing_slash x : rstrip_slash (x ++ "/") = rstrip_slash x.
Proof.
  induction x as [|c x IH]; [reflexivity|].
  cbn [append rstrip_slash]. now rewrite IH.
Qed.

Lemma rstrip_no_trailing_slash x name :
  str_in "/" name = false -> String.eqb name "" = false ->
  rstrip_slash (x ++ name) = (x ++ name)%string.
Proof.
  intros Hs Hne. induction x as [|c x IH].
  - cbn [append]. clear Hne. induction name as [|c n IHn]; [reflexivity|].
    apply str_in_cons in Hs as [Hp Hin]. cbn [rstrip_slash].
    rewrite (IHn Hin). destruct n; [|reflexivity].
    cbn [prefix] in Hp. destruct (ascii_dec "/" c) as [<-|Hc];
      [discriminate|].
    replace (Ascii.eqb c "/") with false; [reflexivity|].
    symmetry. apply Ascii.eqb_neq. congruence.
  - cbn [append rstrip_slash]. rewrite IH.
    destruct (x ++ name)%string eqn:Hx; [|reflexivity].
    destruct x; [|discriminate]. cbn [append] in Hx. subst name.
    discriminate.
Qed.

Lemma string_app_assoc (a b c : string) :
  ((a ++ b) ++ c = a ++ (b ++ c))%string.
Proof. induction a as [|x a IH]; cbn [append]; [reflexivity|now rewrite IH]. Qed.

(** Line 175: for a checkpoint path that ends in a directory name, a
    slash and a last component, the metadata is that directory name. *)
Theorem metadata_is_parent_directory a name b :
  str_in "/" name = false ->
  str_in "/" b = false ->
  String.eqb name "" = false ->
  basename (dirname (a ++ "/" ++ name ++ "/" ++ b)) = name.
Proof.
  intros Hn Hb Hne.
  assert (Hd : dirname (a ++ "/" ++ name ++ "/" ++ b)
               = (a ++ "/" ++ name)%string).
  { unfold dirname.
    replace (a ++ "/" ++ name ++ "/" ++ b)%string
      with ((a ++ "/" ++ name) ++ "/" ++ b)%string
      by (now rewrite !string_app_assoc).
    rewrite (split_at_last_slash _ b (no_slash_no_split b Hb)).
    rewrite rstrip_trailing_slash.
    replace (a ++ "/" ++ name)%string with ((a ++ "/") ++ name)%string
      by (now rewrite string_app_assoc).
    rewrite (rstrip_no_trailing_slash _ name Hn Hne).
    destruct ((a ++ "/") ++ name)%string eqn:Hx; [|reflexivity].
    destruct a; discriminate. }
  rewrite Hd. unfold basename.
  now rewrite (split_at_last_slash a name (no_slash_no_split name Hn)).
Qed.

Lemma metadata_is_parent_directory_witness :
  str_in "/" "bert_ML8" = false /\ str_in "/" "ckpt" = false
  /\ String.eqb "bert_ML8" "" = false
  /\ basename (dirname "models/bert_ML8/ckpt") = "bert_ML8".
Proof.
  repeat (split; [reflexivity|]).
  exact (metadata_is_parent_directory "models" "bert_ML8" "ckpt"
           eq_refl eq_refl eq_refl).
Defined.

Lemma string_length_app (a b : string) :
  String.length (a ++ b) = (String.length a + String.length b)%nat.
Proof. induction a as [|x a IH]; cbn; [reflexivity|now rewrite IH]. Qed.

Lemma app_same_length_inj (m m' s s' : string) :
  (m ++ s = m' ++ s')%string -> String.length s = String.length s' ->
  m = m' /\ s = s'.
Proof.
  revert m'. induction m as [|c m IH]; intros [|c' m'] H Hl; cbn [append] in H.
  - now split.
  - exfalso. subst s. cbn in Hl. rewrite string_length_app in Hl. lia.
  - exfalso. subst s'. cbn in Hl. rewrite string_length_app in Hl. lia.
  - injection H as -> H. destruct (IH m' H Hl) as [-> ->]. now split.
Qed.

(** Lines 223-224: two field names are equal exactly when the metadata
    are equal and the directions are both the source or both not; the
    results of checkpoints with different metadata never share a field. *)
Theorem entry_names_collide metadata metadata' i i' :
  entry_name metadata i = entry_name metadata' i'
  <-> metadata = metadata' /\ (i =? 0)%nat = (i' =? 0)%nat.
Proof.
  unfold entry_name. split.
  - intros H.
    apply app_same_length_inj in H as [Hm Hs].
    + split; [exact Hm|].
      destruct (i =? 0)%nat, (i' =? 0)%nat; try reflexivity; discriminate.
    + now destruct (i =? 0)%nat, (i' =? 0)%nat.
  - intros [-> ->]. reflexivity.
Qed.

(** ** Merging needs one value per key *)

Section MergeBounds.

Context {E : Externals}.

Lemma merge_rows_enough entry v d :
  all_dicts d = true ->
  forall j, (j + List.length d <= List.length v)%nat ->
    is_ok (merge_rows entry (list_item v) j d) = true.
Proof.
  induction d as [|[key rec] d IH]; intros Hd j Hlen; [reflexivity|].
  cbn [all_dicts forallb snd] in Hd. apply andb_true_iff in Hd as [Hrec Hd].
  destruct rec; try discriminate. cbn [merge_rows List.length] in *.
  unfold list_item at 1.
  destruct (nth_error v j) as [x|] eqn:Hx.
  - cbn [rbind]. specialize (IH Hd (S j) ltac:(lia)).
    destruct (merge_rows entry (list_item v) (S j) d); [reflexivity|].
    discriminate.
  - apply nth_error_None in Hx. lia.
Qed.

Lemma merge_rows_short entry v d :
  all_dicts d = true ->
  forall j, (j <= List.length v)%nat -> (List.length v < j + List.length d)%nat ->
    merge_rows entry (list_item v) j d = Raise IndexError.
Proof.
  induction d as [|[key rec] d IH]; intros Hd j Hj Hlen;
    [cbn in Hlen; lia|].
  cbn [all_dicts forallb snd] in Hd. apply andb_true_iff in Hd as [Hrec Hd].
  destruct rec; try discriminate. cbn [merge_rows List.length] in *.
  unfold list_item at 1.
  destruct (nth_error v j) as [x|] eqn:Hx; [|reflexivity].
  cbn [rbind].
  assert (Hlt : (j < List.length v)%nat).
  { apply nth_error_Some. congruence. }
  now rewrite (IH Hd (S j) ltac:(lia) ltac:(lia)).
Qed.

(** Lines 225-226: with records that are dictionaries, the merge of a
    list goes through when the list has at least as many entries as the
    corpus has keys (further entries are not looked at), and raises an
    [IndexError] when it has fewer. *)
Theorem merge_needs_a_value_per_key entry v d :
  all_dicts d = true ->
  ((List.length d <= List.length v)%nat ->
   is_ok (merge_results entry (list_item v) (JDict d)) = true)
  /\ ((List.length v < List.length d)%nat ->
      merge_results entry (list_item v) (JDict d) = Raise IndexError).
Proof.
  intros Hd. cbn [merge_results]. split; intros Hlen.
  - pose proof (merge_rows_enough entry v d Hd 0%nat Hlen) as H.
    destruct (merge_rows entry (list_item v) 0 d); [reflexivity|discriminate].
  - now rewrite (merge_rows_short entry v d Hd 0%nat ltac:(lia) Hlen).
Qed.

(** Lines 216-226: when the source direction is served from a list that
    has fewer entries than the file has keys, the step raises an
    [IndexError]. *)
Theorem short_cached_list_raises args ck k filename i ds l d w a cl :
  should_compute i filename l = false ->
  preds (take_from_cache filename l) = Some (Some a) ->
  nth_error (calls w) a = Some cl ->
  all_dicts d = true ->
  (List.length (c_result cl) < List.length d)%nat ->
  direction_step args ck k filename i ds (l, JDict d) w
  = (add_use w (mkUse (ck_index ck) k i a), Raise IndexError).
Proof.
  intros Hsc Hp Hcl Hd Hlen. unfold direction_step, obtain_preds.
  cbn [fst snd]. rewrite Hsc. unfold log_use. rewrite Hp.
  rewrite (merge_results_ext _ _ (list_item (c_result cl))).
  - cbn [merge_results].
    now rewrite (merge_rows_short _ _ d Hd 0%nat ltac:(lia) Hlen).
  - intros j. unfold preds_item. rewrite Hp. cbn [calls add_use].
    now rewrite Hcl.
Qed.

End MergeBounds.

Lemma merge_needs_a_value_per_key_witness :
  @all_dicts sample_externals
    [("0", sample_record "ab" "abc" "x" "xy");
     ("1", sample_record "abcd" "ab" "xyz" "xyzw")] = true
  /\ @merge_results sample_externals "m_source"
       (@list_item sample_externals [5%Z]) sample_store_a
     = Raise IndexError.
Proof.
  split; [reflexivity|].
  apply (proj2 (@merge_needs_a_value_per_key sample_externals "m_source"
                  [5%Z]
                  [("0", sample_record "ab" "abc" "x" "xy");
                   ("1", sample_record "abcd" "ab" "xyz" "xyzw")] eq_refl)).
  cbn. lia.
Defined.

Lemma short_cached_list_raises_witness :
  @direction_step sample_externals sample_args sample_checkpoint 1
    "wmtp_b.json" 0 (dataset_of [])
    (mkLocals None (Some 0%nat) None, sample_store_a)
    (@mkWorld sample_externals [] [@mkCall sample_externals 0 0 0 [5%Z]] [])
  = (@mkWorld sample_externals [] [@mkCall sample_externals 0 0 0 [5%Z]]
       [mkUse 0 1 0 0], Raise IndexError).
Proof.
  apply (@short_cached_list_raises sample_externals sample_args
           sample_checkpoint 1%nat "wmtp_b.json" 0%nat (dataset_of [])
           (mkLocals None (Some 0%nat) None) _
           (@mkWorld sample_externals [] [@mkCall sample_externals 0 0 0 [5%Z]]
              [])
           0%nat (@mkCall sample_externals 0 0 0 [5%Z]));
    first [reflexivity | cbn; lia].
Defined.

(** ** What a file step does to the files *)

Section FileFrame.

Context {E : Externals}.

Lemma direction_step_fs args ck k filename i ds s w :
  fs (fst (direction_step args ck k filename i ds s w)) = fs w.
Proof.
  rewrite direction_step_world.
  destruct (obtain_preds_cases args ck k filename i ds (fst s) w)
    as [(_ & e & _ & ->) | [(_ & v & _ & ->) | (_ & ->)]];
    try reflexivity; unfold log_use;
    match goal with |- context [preds ?l] => destruct (preds l) as [[?|]|] end;
    reflexivity.
Qed.

Lemma dict_has_set {V} k k' (v : V) d :
  dict_has k (dict_set k' v d) = (String.eqb k k' || dict_has k d)%bool.
Proof.
  unfold dict_has. destruct (String.eqb k k') eqn:Hk.
  - apply String.eqb_eq in Hk. subst. now rewrite dict_get_set_same.
  - rewrite dict_get_set_other; [reflexivity|]. now apply String.eqb_neq.
Qed.

(** What a file step that returns has done: the file holds the corpus it
    held, with both fields of the checkpoint set in every record, and no
    other file has changed. *)
Lemma file_step_result args ck k f l w w' l' :
  file_step args ck k f l w = (w', Ok l') ->
  exists d d',
    read_json f w = Ok (JDict d)
    /\ fs w' = dict_set f (Some (JDict d')) (fs w)
    /\ Forall2 (fun kv kv' =>
                  fst kv' = fst kv
                  /\ exists fields xs xt,
                       snd kv = JDict fields
                       /\ snd kv' =
                          JDict (dict_set (entry_name (metadata ck) 1)
                                   (JFloat xt)
                                   (dict_set (entry_name (metadata ck) 0)
                                      (JFloat xs) fields)))
               d d'.
Proof.
  intros Hstep.
  destruct (file_step_cases args ck k f l w)
    as [(e & He) | (d & ds0 & ds1 & Hr & _ & _ & _ & Hf)];
    [congruence|].
  rewrite Hf in Hstep. clear Hf. cbn [for_enumerate] in Hstep.
  pose proof (direction_step_fs args ck k (basename f) 0 ds0 (l, JDict d) w)
    as Hfs0.
  destruct (direction_step args ck k (basename f) 0 ds0 (l, JDict d) w)
    as [w1 [[l1 s1]|e]] eqn:H0; [|discriminate].
  pose proof (direction_step_fs args ck k (basename f) 1 ds1 (l1, s1) w1)
    as Hfs1.
  destruct (direction_step args ck k (basename f) 1 ds1 (l1, s1) w1)
    as [w2 [[l2 s2]|e]] eqn:H1; [|discriminate].
  destruct (json_dump_error s2); [discriminate|].
  injection Hstep as <- <-. cbn [fst] in Hfs0, Hfs1.
  destruct (direction_step_store args ck k (basename f) 0 ds0 l (JDict d) w
              l1 s1) as (item0 & Hm0); [now rewrite H0|].
  destruct (direction_step_store args ck k (basename f) 1 ds1 l1 s1 w1
              l2 s2) as (item1 & Hm1); [now rewrite H1|].
  cbn [merge_results] in Hm0.
  destruct (merge_rows _ item0 0 d) as [d1|] eqn:Hd1; [|discriminate].
  cbn [rbind] in Hm0. injection Hm0 as <-.
  cbn [merge_results] in Hm1.
  destruct (merge_rows _ item1 0 d1) as [d2|] eqn:Hd2; [|discriminate].
  cbn [rbind] in Hm1. injection Hm1 as <-.
  exists d, d2. split; [exact Hr|]. split.
  - cbn [fs write_json]. now rewrite Hfs1, Hfs0.
  - apply merge_rows_ok in Hd1, Hd2. clear - Hd1 Hd2.
    revert d2 Hd2. induction Hd1 as [|[k0 r0] [k1 r1] d d1 H01 Hd1 IH];
      intros d2 Hd2; inversion Hd2 as [|? [k2 r2] ? d2' H12 Hd2']; subst.
    + constructor.
    + constructor; [|now apply IH].
      cbn [fst snd] in *.
      destruct H01 as (<- & fields & xs & -> & ->).
      destruct H12 as (-> & fields1 & xt & [= <-] & ->).
      split; [reflexivity|]. now exists fields, xs, xt.
Qed.

Lemma file_step_raise_fs args ck k f l w e :
  snd (file_step args ck k f l w) = Raise e ->
  fs (fst (file_step args ck k f l w)) = fs w
  \/ fs (fst (file_step args ck k f l w)) = dict_set f None (fs w).
Proof.
  intros Hs.
  destruct (file_step_cases args ck k f l w)
    as [(e' & ->) | (d & ds0 & ds1 & _ & _ & _ & _ & Hf)]; [now left|].
  rewrite Hf in *. clear Hf.
  destruct (for_enumerate_rule (direction_step args ck k (basename f))
              (fun w' => fs w' = fs w) (fun _ _ _ => True) [ds0; ds1] 0%nat)
    with (s := (l, JDict d)) (w := w) as [H _]; try easy.
  { intros j x s0 w0 _ Hw0 _. split; [|easy].
    now rewrite direction_step_fs. }
  destruct (for_enumerate _ 0 [ds0; ds1] (l, JDict d) w)
    as [w' [[l' s']|e']]; cbn [fst] in H; [|now left].
  destruct (json_dump_error s'); [|discriminate].
  right. cbn [fst fs spoil_file]. now rewrite H.
Qed.

Lemma obtain_preds_uses args ck k filename i ds l w :
  uses (fst (obtain_preds args ck k filename i ds l w)) = uses w.
Proof.
  destruct (obtain_preds_cases args ck k filename i ds l w)
    as [(_ & e & _ & ->) | [(_ & v & _ & ->) | (_ & ->)]]; reflexivity.
Qed.

Lemma direction_step_calls_grow args ck k filename i ds s w a cl :
  nth_error (calls w) a = Some cl ->
  nth_error (calls (fst (direction_step args ck k filename i ds s w))) a
  = Some cl.
Proof.
  intros Hn. rewrite direction_step_world.
  destruct (obtain_preds_cases args ck k filename i ds (fst s) w)
    as [(_ & e & _ & ->) | [(_ & v & _ & ->) | (_ & ->)]];
    rewrite ?calls_log_use; try exact Hn.
  cbn [calls add_call]. rewrite nth_error_app1; [exact Hn|].
  apply nth_error_Some. congruence.
Qed.

Lemma merge_nonempty_reads_first entry item d store' :
  d <> [] ->
  merge_results entry item (JDict d) = Ok store' ->
  exists x, item 0%nat = Ok x.
Proof.
  intros Hd H. destruct d as [|[key rec] d']; [contradiction|].
  cbn [merge_results merge_rows] in H.
  destruct rec; try discriminate.
  destruct (item 0%nat) as [x|]; [now exists x|discriminate].
Qed.

(** What a direction step that returns has merged into a corpus with at
    least one key: the list that [preds] refers to after the step, which
    is the list of the use that the step records. *)
Lemma direction_step_merged args ck k filename i ds l d w l' store' :
  d <> [] ->
  snd (direction_step args ck k filename i ds (l, JDict d) w)
  = Ok (l', store') ->
  exists a cl,
    preds l' = Some (Some a)
    /\ uses (fst (direction_step args ck k filename i ds (l, JDict d) w))
       = uses w ++ [mkUse (ck_index ck) k i a]
    /\ nth_error
         (calls (fst (direction_step args ck k filename i ds (l, JDict d) w)))
         a = Some cl
    /\ merge_results (entry_name (metadata ck) i) (list_item (c_result cl))
                     (JDict d) = Ok store'.
Proof.
  intros Hd Hs. rewrite direction_step_world.
  pose proof (obtain_preds_uses args ck k filename i ds l w) as Hu.
  unfold direction_step in Hs. cbn [fst snd] in *.
  destruct (obtain_preds args ck k filename i ds l w) as [w1 [l1|e]];
    cbn [fst snd] in *; [|discriminate].
  destruct (merge_results (entry_name (metadata ck) i)
              (preds_item (log_use ck k i l1 w1) l1) (JDict d))
    as [s|e] eqn:Hm; cbn [snd] in Hs; [|discriminate].
  injection Hs as <- <-.
  destruct (merge_nonempty_reads_first _ _ d s Hd Hm) as (x & Hx).
  unfold preds_item in Hx.
  destruct (preds l1) as [[a|]|] eqn:Hp; try discriminate.
  destruct (nth_error (calls (log_use ck k i l1 w1)) a) as [cl|] eqn:Hcl;
    [|discriminate].
  exists a, cl. split; [reflexivity|]. split; [|split; [exact Hcl|]].
  - rewrite uses_log_use, Hp, Hu. reflexivity.
  - rewrite <- Hm. apply merge_results_ext. intros j.
    unfold preds_item. now rewrite Hp, Hcl.
Qed.

Lemma merge_rows_length entry item d :
  forall j d', merge_rows entry item j d = Ok d' ->
               List.length d' = List.length d.
Proof.
  intros j d' H. apply merge_rows_ok in H.
  induction H; cbn; [reflexivity|now f_equal].
Qed.

(** What a file step that returns has done: it has recorded one use per
    direction, and the file holds the corpus it held with the two lists
    of these uses merged into it, the source one first. *)
Lemma file_step_written args ck k f l w w' l' :
  file_step args ck k f l w = (w', Ok l') ->
  exists d d1 d' a0 a1 cl0 cl1,
    read_json f w = Ok (JDict d)
    /\ fs w' = dict_set f (Some (JDict d')) (fs w)
    /\ uses w' = uses w ++ [mkUse (ck_index ck) k 0 a0;
                            mkUse (ck_index ck) k 1 a1]
    /\ (forall a cl, nth_error (calls w) a = Some cl ->
                     nth_error (calls w') a = Some cl)
    /\ nth_error (calls w') a0 = Some cl0
    /\ nth_error (calls w') a1 = Some cl1
    /\ merge_rows (entry_name (metadata ck) 0) (list_item (c_result cl0)) 0 d
       = Ok d1
    /\ merge_rows (entry_name (metadata ck) 1) (list_item (c_result cl1)) 0 d1
       = Ok d'.
Proof.
  intros Hstep.
  destruct (file_step_cases args ck k f l w)
    as [(e & He) | (d & ds0 & ds1 & Hr & _ & _ & Hlen & Hf)];
    [congruence|].
  rewrite Hf in Hstep. clear Hf. cbn [for_enumerate] in Hstep.
  pose proof (direction_step_fs args ck k (basename f) 0 ds0 (l, JDict d) w)
    as Hfs0.
  pose proof (fun a cl => direction_step_calls_grow args ck k (basename f) 0
                            ds0 (l, JDict d) w a cl) as Hg0.
  destruct (direction_step args ck k (basename f) 0 ds0 (l, JDict d) w)
    as [w1 [[l1 s1]|e]] eqn:H0; [|discriminate].
  pose proof (direction_step_fs args ck k (basename f) 1 ds1 (l1, s1) w1)
    as Hfs1.
  pose proof (fun a cl => direction_step_calls_grow args ck k (basename f) 1
                            ds1 (l1, s1) w1 a cl) as Hg1.
  destruct (direction_step args ck k (basename f) 1 ds1 (l1, s1) w1)
    as [w2 [[l2 s2]|e]] eqn:H1; [|discriminate].
  destruct (json_dump_error s2); [discriminate|].
  injection Hstep as <- <-. cbn [fst] in Hfs0, Hfs1, Hg0, Hg1.
  assert (Hd : d <> []).
  { intros ->. cbn [List.length] in Hlen.
    destruct (run_engine_empty args ck ds1 Hlen) as (e & He).
    assert (Hs1 : snd (direction_step args ck k (basename f) 1 ds1 (l1, s1) w1)
                  = Ok (l2, s2)) by now rewrite H1.
    apply direction_step_locals in Hs1. cbn [fst] in Hs1.
    unfold obtain_preds in Hs1.
    rewrite should_compute_target, He in Hs1. discriminate. }
  destruct (direction_step_merged args ck k (basename f) 0 ds0 l d w l1 s1 Hd)
    as (a0 & cl0 & _ & Hu0 & Hc0 & Hm0); [now rewrite H0|].
  rewrite H0 in Hu0, Hc0. cbn [fst] in Hu0, Hc0.
  cbn [merge_results] in Hm0.
  destruct (merge_rows _ (list_item (c_result cl0)) 0 d) as [d1|] eqn:Hd1;
    [|discriminate].
  cbn [rbind] in Hm0. injection Hm0 as <-.
  assert (Hd1ne : d1 <> []).
  { intros ->. apply merge_rows_length in Hd1. destruct d; [now apply Hd|].
    discriminate. }
  destruct (direction_step_merged args ck k (basename f) 1 ds1 l1 d1 w1 l2 s2
              Hd1ne) as (a1 & cl1 & _ & Hu1 & Hc1 & Hm1); [now rewrite H1|].
  rewrite H1 in Hu1, Hc1. cbn [fst] in Hu1, Hc1.
  cbn [merge_results] in Hm1.
  destruct (merge_rows _ (list_item (c_result cl1)) 0 d1) as [d2|] eqn:Hd2;
    [|discriminate].
  cbn [rbind] in Hm1. injection Hm1 as <-.
  exists d, d1, d2, a0, a1, cl0, cl1.
  split; [exact Hr|]. split; [cbn [fs write_json]; now rewrite Hfs1, Hfs0|].
  split; [cbn [uses write_json]; rewrite Hu1, Hu0; now rewrite <- app_assoc|].
  split; [intros a cl Hn; cbn [calls write_json]; now apply Hg1, Hg0|].
  split; [cbn [calls write_json]; now apply Hg1|].
  split; [exact Hc1|]. now split.
Qed.

Lemma file_step_other_path args ck k f l w p :
  p <> f ->
  dict_get p (fs (fst (file_step args ck k f l w))) = dict_get p (fs w).
Proof.
  intros Hp.
  destruct (file_step args ck k f l w) as [w' [l'|e]] eqn:Hstep; cbn [fst].
  - destruct (file_step_result args ck k f l w w' l' Hstep)
      as (d & d' & _ & -> & _).
    now apply dict_get_set_other.
  - pose proof (file_step_raise_fs args ck k f l w e) as H.
    rewrite Hstep in H. cbn [fst snd] in H.
    destruct (H eq_refl) as [->| ->]; [reflexivity|].
    now apply dict_get_set_other.
Qed.


End FileFrame.

(** ** What a run does to the files *)

Section RunFrame.

Context {E : Externals}.

(** The rule for a whole run, from a rule for one file step. *)
Lemma run_file_rule (WI : world -> Prop) args input_files :
  (forall ck k f l w, nth_error input_files k = Some f -> WI w ->
     WI (fst (file_step args ck k f l w))) ->
  forall model_paths fs0,
    WI (mkWorld fs0 [] []) ->
    WI (fst (main args input_files model_paths fs0)).
Proof.
  intros Hfile model_paths fs0 H0. unfold main.
  apply (for_enumerate_rule (checkpoint_step args input_files) WI
           (fun _ _ _ => True) model_paths 0%nat); [|exact H0|exact I].
  intros c model_path l w _ HW _. split; [|now intros].
  unfold checkpoint_step.
  destruct (load_checkpoint args (0 + c) model_path) as [ck|e]; [|exact HW].
  apply (for_enumerate_rule (file_step args ck) WI (fun _ _ _ => True)
           input_files 0%nat); [|exact HW|exact I].
  intros k f l0 w0 Hk HW0 _. split; [|now intros].
  now apply Hfile.
Qed.

(** A run reads and writes the input files only: a path that is not among
    them holds at the end what it held at the start, whether the run
    finishes or raises. *)
Theorem only_input_files_touched args input_files model_paths fs0 p :
  existsb (String.eqb p) input_files = false ->
  dict_get p (fs (fst (main args input_files model_paths fs0)))
  = dict_get p fs0.
Proof.
  intros Hp.
  apply (run_file_rule (fun w => dict_get p (fs w) = dict_get p fs0));
    [|reflexivity].
  intros ck k f l w Hk HW. rewrite file_step_other_path; [exact HW|].
  intros ->. apply nth_error_In in Hk.
  assert (Hex : existsb (String.eqb f) input_files = true).
  { apply existsb_exists. exists f. split; [exact Hk|apply String.eqb_refl]. }
  congruence.
Qed.

End RunFrame.

Lemma only_input_files_touched_witness :
  existsb (String.eqb "d/other.json") ["d/wmtp_a.json"] = false
  /\ dict_get "d/other.json"
       (fs (fst (sample_main ["d/wmtp_a.json"] ["m/bert_ML8/ckpt"]
                   [("d/wmtp_a.json", Some sample_store_a);
                    ("d/other.json", Some sample_store_b)])))
     = Some (Some sample_store_b).
Proof.
  split; [reflexivity|].
  exact (@only_input_files_touched sample_externals sample_args
           ["d/wmtp_a.json"] ["m/bert_ML8/ckpt"]
           [("d/wmtp_a.json", Some sample_store_a);
            ("d/other.json", Some sample_store_b)]
           "d/other.json" eq_refl).
Defined.

(** ** A run keeps the sentences and the labels *)

Section RunKeeps.

Context {E : Externals}.









End RunKeeps.

(** ** What a finished run has written *)

Section RunResults.

Context {E : Externals}.

Lemma file_step_new_results args ck k f l w w' l' :
  file_step args ck k f l w = (w', Ok l') ->
  file_has_results w' f (metadata ck).
Proof.
  intros Hstep.
  destruct (file_step_result args ck k f l w w' l' Hstep)
    as (d & d' & _ & Hfs & Hall).
  exists d'. split; [rewrite Hfs; apply dict_get_set_same|].
  clear - Hall. induction Hall as [|kv kv' d d' [_ Hrec] Hall IH];
    constructor; [|exact IH].
  destruct Hrec as (fields & xs & xt & _ & ->).
  eexists. split; [reflexivity|].
  rewrite !dict_has_set, !String.eqb_refl. split; [|reflexivity].
  apply orb_true_r.
Qed.

Lemma file_step_keeps_results args ck k f l w w' l' p m :
  file_step args ck k f l w = (w', Ok l') ->
  file_has_results w p m -> file_has_results w' p m.
Proof.
  intros Hstep (d0 & Hget & Hall0).
  destruct (String.eqb p f) eqn:Hpf.
  - apply String.eqb_eq in Hpf. subst p.
    destruct (file_step_result args ck k f l w w' l' Hstep)
      as (d & d' & Hr & Hfs & Hall).
    unfold read_json in Hr. rewrite Hget in Hr. injection Hr as <-.
    exists d'. split; [rewrite Hfs; apply dict_get_set_same|].
    clear - Hall Hall0. induction Hall as [|kv kv' d d' [_ Hrec] Hall IH];
      constructor.
    + inversion Hall0 as [|? ? (fields0 & Hf0 & Hs & Ht) _]; subst.
      destruct Hrec as (fields & xs & xt & Hf & ->).
      rewrite Hf0 in Hf. injection Hf as <-.
      eexists. split; [reflexivity|].
      rewrite !dict_has_set, Hs, Ht. now rewrite !orb_true_r.
    + apply IH. now inversion Hall0.
  - apply String.eqb_neq in Hpf. exists d0. split; [|exact Hall0].
    pose proof (file_step_other_path args ck k f l w p Hpf) as H.
    rewrite Hstep in H. cbn [fst] in H. congruence.
Qed.

(** When the run finishes, every record of every input file holds, for
    every checkpoint, both fields named after that checkpoint. *)
Theorem finished_run_has_all_results args input_files model_paths fs0 l :
  snd (main args input_files model_paths fs0) = Ok l ->
  forall c model_path k f,
    nth_error model_paths c = Some model_path ->
    nth_error input_files k = Some f ->
    file_has_results (fst (main args input_files model_paths fs0)) f
                     (basename (dirname model_path)).
Proof.
  intros Hs. unfold main in *.
  destruct (for_enumerate_rule (checkpoint_step args input_files)
              (fun _ => True)
              (fun c l w =>
                 forall c' model_path k f, (c' < c)%nat ->
                   nth_error model_paths c' = Some model_path ->
                   nth_error input_files k = Some f ->
                   file_has_results w f (basename (dirname model_path)))
              model_paths 0%nat) with (s := initial_locals)
                                      (w := mkWorld fs0 [] []) as [_ H];
    [|exact I| |].
  - intros c model_path l0 w0 Hc _ Hprev. split; [exact I|].
    cbn [Nat.add] in *. unfold checkpoint_step.
    destruct (load_checkpoint args c model_path) as [ck|e] eqn:Hload;
      [|discriminate].
    apply load_checkpoint_index in Hload as [_ Hmeta].
    destruct (for_enumerate_rule (file_step args ck) (fun _ => True)
                (fun k l w =>
                   (forall p m, file_has_results w0 p m ->
                                file_has_results w p m)
                   /\ forall k' f, (k' < k)%nat ->
                        nth_error input_files k' = Some f ->
                        file_has_results w f (metadata ck))
                input_files 0%nat) with (s := reset_caches l0) (w := w0)
      as [_ H]; [|exact I| |].
    + intros k f l1 w1 Hk _ (Hmono & Hdone). split; [exact I|].
      cbn [Nat.add] in *. intros l' Hs'.
      destruct (file_step args ck k f l1 w1) as [w' r] eqn:Hstep.
      cbn [fst snd] in *. subst r. split.
      * intros p m Hp.
        apply (file_step_keeps_results args ck k f l1 w1 w' l' p m Hstep).
        now apply Hmono.
      * intros k' f' Hk' Hf'. destruct (Nat.eq_dec k' k) as [->|Hne].
        -- replace f' with f by congruence.
           now apply (file_step_new_results args ck k f l1 w1 w' l').
        -- apply (file_step_keeps_results args ck k f l1 w1 w' l' _ _ Hstep).
           apply (Hdone k' f'); [lia|exact Hf'].
    + split; [now intros|]. intros k' f' Hk'. lia.
    + intros l' Hs'. destruct (H l' Hs') as [Hmono Hdone].
      intros c' path' k f Hc' Hp' Hf.
      destruct (Nat.eq_dec c' c) as [->|Hne].
      * replace path' with model_path by congruence. rewrite <- Hmeta.
        apply (Hdone k f); [|exact Hf].
        apply nth_error_Some. congruence.
      * apply Hmono. apply (Hprev c' path' k f); [lia|exact Hp'|exact Hf].
  - intros c' path' k f Hc'. lia.
  - intros c model_path k f Hc Hf. apply (H l Hs c model_path k f);
      [|exact Hc|exact Hf].
    cbn [Nat.add]. apply nth_error_Some. congruence.
Qed.

End RunResults.

Lemma finished_run_has_all_results_witness :
  is_ok (snd wmtp_run) = true
  /\ file_has_results (fst wmtp_run) "d/wmtp_b.json" "bert_ML8".
Proof.
  split; [reflexivity|].
  exact (@finished_run_has_all_results sample_externals sample_args
           ["d/wmtp_a.json"; "d/wmtp_b.json"] ["m/bert_ML8/ckpt"]
           [("d/wmtp_a.json", Some sample_store_a);
            ("d/wmtp_b.json", Some sample_store_b)]
           (mkLocals (Some (Some 2%nat)) (Some 0%nat) None) eq_refl
           0%nat "m/bert_ML8/ckpt" 1%nat "d/wmtp_b.json" eq_refl eq_refl).
Defined.

(** ** Files without a tag *)

Section Untagged.

Context {E : Externals}.

Lemma untagged_unbound_aborts args ck k f l w :
  has_tag (basename f) = false -> preds l = None ->
  exists e, file_step args ck k f l w = (w, Raise e).
Proof.
  intros Ht Hp.
  destruct (file_step_cases args ck k f l w)
    as [(e & ->) | (d & ds0 & ds1 & _ & _ & _ & Hlen & ->)].
  - now exists e.
  - destruct (untagged_not_computed _ l Ht) as [Hsc Htk].
    cbn [for_enumerate]. unfold direction_step at 1, obtain_preds.
    cbn [fst snd]. rewrite Hsc, Htk.
    unfold log_use. rewrite Hp. unfold merge_results.
    destruct d as [|[key rec] d'].
    + cbn [merge_rows rbind].
      unfold direction_step, obtain_preds. cbn [fst snd].
      replace (should_compute 1 (basename f) l) with true by reflexivity.
      destruct (run_engine_empty args ck ds1 Hlen) as (e & ->).
      now exists e.
    + cbn [merge_rows]. destruct rec; try (now exists AttributeError).
      unfold preds_item at 1. rewrite Hp. cbn [rbind]. now exists NameError.
Qed.

(** When the first input file has neither tag in its name, a run with at
    least one checkpoint raises before anything is computed or written:
    [preds] is still unbound when line 226 reads it (or, for a file
    without keys, the engine raises on the empty group). *)
Theorem untagged_first_file_aborts args f rest model_path model_paths fs0 :
  has_tag (basename f) = false ->
  exists e,
    main args (f :: rest) (model_path :: model_paths) fs0
    = (mkWorld fs0 [] [], Raise e).
Proof.
  intros Ht. unfold main. cbn [for_enumerate]. unfold checkpoint_step.
  destruct (load_checkpoint args 0 model_path) as [ck|e]; [|now exists e].
  cbn [for_enumerate].
  destruct (untagged_unbound_aborts args ck 0 f (reset_caches initial_locals)
              (mkWorld fs0 [] []) Ht eq_refl) as (e & ->).
  now exists e.
Qed.

End Untagged.

Lemma untagged_first_file_aborts_witness :
  has_tag (basename "d/plain.json") = false
  /\ exists e,
       untagged_alone_run
       = (@mkWorld sample_externals
            [("d/plain.json", Some sample_store_b)] [] [], Raise e).
Proof.
  split; [reflexivity|].
  exact (@untagged_first_file_aborts sample_externals sample_args
           "d/plain.json" [] "m/bert_ML8/ckpt" []
           [("d/plain.json", Some sample_store_b)] eq_refl).
Defined.

Section UntaggedStale.

Context {E : Externals}.

Lemma preds_at_add_call c k i l w cl :
  preds_at c k i l w -> preds_at c k i l (add_call w cl).
Proof.
  intros (a & cl0 & Hp & Hn & Hat). exists a, cl0.
  split; [exact Hp|]. split; [|exact Hat].
  cbn [calls add_call]. rewrite nth_error_app1; [exact Hn|].
  apply nth_error_Some. congruence.
Qed.

Lemma nth_error_calls_add w cl a cl0 :
  nth_error (calls w) a = Some cl0 ->
  nth_error (calls (add_call w cl)) a = Some cl0.
Proof.
  intros Hn. cbn [calls add_call]. rewrite nth_error_app1; [exact Hn|].
  apply nth_error_Some. congruence.
Qed.

Lemma direction_stale args input_files ck k f i ds l store w :
  nth_error input_files k = Some f ->
  untagged_stale input_files w ->
  (i = 0%nat -> forall k', k = S k' -> preds_at (ck_index ck) k' 1 l w) ->
  untagged_stale input_files
    (fst (direction_step args ck k (basename f) i ds (l, store) w))
  /\ (forall l' store',
        snd (direction_step args ck k (basename f) i ds (l, store) w)
        = Ok (l', store') ->
        i = 1%nat ->
        preds_at (ck_index ck) k 1 l'
          (fst (direction_step args ck k (basename f) i ds (l, store) w))).
Proof.
  intros Hf HW Hpre. rewrite direction_step_world. cbn [fst snd].
  destruct (obtain_preds_cases args ck k (basename f) i ds l w)
    as [(_ & e & _ & Ho) | [(Hsc & v & _ & Ho) | (Hsc & Ho)]].
  - rewrite Ho. split; [exact HW|].
    intros l' s' Hs. apply direction_step_locals in Hs.
    cbn [fst] in Hs. rewrite Ho in Hs. discriminate.
  - rewrite Ho.
    set (a0 := List.length (calls w)) in *.
    set (l1 := store_in_cache i (basename f) a0 (set_preds l (Some a0))) in *.
    set (cl := mkCall (ck_index ck) k i v) in *.
    assert (Hp1 : preds l1 = Some (Some a0)).
    { unfold l1. now rewrite store_in_cache_preds. }
    assert (Hnew : nth_error (calls (add_call w cl)) a0 = Some cl).
    { cbn [calls add_call]. rewrite nth_error_app2 by (unfold a0; lia).
      unfold a0. now rewrite Nat.sub_diag. }
    split.
    + intros c0 k0 f0 Hf0 Ht0. destruct (HW c0 k0 f0 Hf0 Ht0) as [Hold Hno].
      assert (Hnot : ~ (c0 = ck_index ck /\ S k0 = k /\ i = 0%nat)).
      { intros (-> & <- & ->). rewrite Hf in Hf0. injection Hf0 as <-.
        rewrite (proj1 (untagged_not_computed _ l Ht0)) in Hsc.
        discriminate. }
      split.
      * intros a Hin. rewrite uses_log_use, Hp1 in Hin.
        rewrite calls_log_use.
        apply in_app_or in Hin as [Hin|[Heq|[]]].
        -- destruct (Hold a Hin) as (cl0 & Hn & Hat). exists cl0.
           split; [now apply nth_error_calls_add|exact Hat].
        -- exfalso. injection Heq as Hc0 Hk0 Hi0 _. apply Hnot.
           now repeat split.
      * intros (cl0 & Hin & Hc0 & Hk0 & Hi0). rewrite calls_log_use in Hin.
        cbn [calls add_call] in Hin.
        apply in_app_or in Hin as [Hin|[<-|[]]].
        -- apply Hno. exists cl0. now repeat split.
        -- cbn in Hc0, Hk0, Hi0. apply Hnot. now repeat split.
    + intros l' s' Hs Hi. apply direction_step_locals in Hs.
      cbn [fst] in Hs. rewrite Ho in Hs. cbn [snd] in Hs.
      injection Hs as <-. subst i.
      exists a0, cl. split; [exact Hp1|]. rewrite calls_log_use.
      split; [exact Hnew|now repeat split].
  - rewrite Ho.
    set (l1 := take_from_cache (basename f) l) in *.
    split.
    + intros c0 k0 f0 Hf0 Ht0. destruct (HW c0 k0 f0 Hf0 Ht0) as [Hold Hno].
      split.
      * intros a Hin. rewrite uses_log_use in Hin. rewrite calls_log_use.
        apply in_app_or in Hin as [Hin|Hin]; [now apply Hold|].
        destruct (preds l1) as [[a'|]|] eqn:Hp; cbn in Hin;
          try contradiction.
        destruct Hin as [Heq|[]]. injection Heq as Hc0 Hk0 Hi0 Ha0.
        subst c0 k i a'.
        rewrite Hf in Hf0. injection Hf0 as <-.
        unfold l1 in Hp.
        rewrite (proj2 (untagged_not_computed _ l Ht0)) in Hp.
        destruct (Hpre eq_refl k0 eq_refl) as (a1 & cl & Hpa & Hn & Hat).
        rewrite Hpa in Hp. injection Hp as <-. now exists cl.
      * unfold engine_invoked_for. now rewrite calls_log_use.
    + intros l' s' Hs Hi. exfalso. subst i.
      now rewrite should_compute_target in Hsc.
Qed.

Lemma file_stale args input_files ck k f l w :
  nth_error input_files k = Some f ->
  untagged_stale input_files w ->
  (forall k', k = S k' -> preds_at (ck_index ck) k' 1 l w) ->
  untagged_stale input_files (fst (file_step args ck k f l w))
  /\ (forall l', snd (file_step args ck k f l w) = Ok l' ->
        preds_at (ck_index ck) k 1 l' (fst (file_step args ck k f l w))).
Proof.
  intros Hf HW Hpre.
  destruct (file_step_rule (untagged_stale input_files)
              (fun i l w =>
                 (i = 0%nat -> forall k', k = S k' ->
                               preds_at (ck_index ck) k' 1 l w)
                 /\ (i = 2%nat -> preds_at (ck_index ck) k 1 l w))
              args ck k f) with (l := l) (w := w) as [H1 H2];
    try assumption.
  - intros fs' w0 H. exact H.
  - intros fs' i l0 w0 H. exact H.
  - intros i ds l0 store w0 HW0 [Hi0 _].
    destruct (direction_stale args input_files ck k f i ds l0 store w0
                Hf HW0 Hi0) as [Ha Hb].
    split; [exact Ha|]. intros l' s' Hs. split; [discriminate|].
    intros [= ->]. now apply (Hb l' s').
  - split; [now intros _|discriminate].
  - split; [exact H1|]. intros l' Hs. now apply (H2 l' Hs).
Qed.

(** In every run, a file without a tag that is not the first input file
    is served, for its source direction, from the list that was computed
    for the target direction of the file before it under the same
    checkpoint, and the engine does not run for its source direction. *)
Lemma main_untagged_stale args input_files model_paths fs0 :
  untagged_stale input_files (fst (main args input_files model_paths fs0)).
Proof.
  unfold main.
  apply (for_enumerate_rule (checkpoint_step args input_files)
           (untagged_stale input_files) (fun _ _ _ => True)
           model_paths 0%nat); [| |exact I].
  - intros c model_path l w _ HW _. split; [|now intros].
    unfold checkpoint_step.
    destruct (load_checkpoint args (0 + c) model_path) as [ck|e]; [|exact HW].
    apply (for_enumerate_rule (file_step args ck)
             (untagged_stale input_files)
             (fun k l w => forall k', k = S k' ->
                                      preds_at (ck_index ck) k' 1 l w)
             input_files 0%nat); [|exact HW|discriminate].
    intros k f l0 w0 Hk HW0 Hp0. cbn [Nat.add] in *.
    destruct (file_stale args input_files ck k f l0 w0 Hk HW0 Hp0)
      as [Ha Hb].
    split; [exact Ha|]. intros l' Hs k' [= <-]. now apply Hb.
  - intros c k f _ _. split.
    + intros a [].
    + intros (cl & [] & _).
Qed.

End UntaggedStale.

(** ** What the files hold for each recorded use *)

Section WrittenValues.

Context {E : Externals}.

Lemma merge_rows_nth entry v d :
  forall j0 d', merge_rows entry (list_item v) j0 d = Ok d' ->
  forall j kv', nth_error d' j = Some kv' ->
    exists key fields x,
      nth_error d j = Some (key, JDict fields)
      /\ nth_error v (j0 + j) = Some x
      /\ kv' = (key, JDict (dict_set entry (JFloat x) fields)).
Proof.
  induction d as [|[key rec] d IH]; intros j0 d' H j kv' Hj; simpl in H.
  - injection H as <-. destruct j; discriminate.
  - destruct rec as [| | | | | |fields]; try discriminate.
    unfold list_item at 1 in H.
    destruct (nth_error v j0) as [x|] eqn:Hx; [|discriminate].
    cbn [rbind] in H.
    destruct (merge_rows entry (list_item v) (S j0) d) as [rest|] eqn:Hrest;
      [|discriminate].
    cbn [rbind] in H. injection H as <-. destruct j as [|j]; cbn in Hj.
    + injection Hj as <-. exists key, fields, x.
      rewrite Nat.add_0_r. now repeat split.
    + destruct (IH (S j0) rest Hrest j kv' Hj) as (key' & fields' & x' & H1 & H2 & H3).
      exists key', fields', x'. cbn [nth_error].
      split; [exact H1|]. split; [|exact H3].
      now rewrite <- Nat.add_succ_comm.
Qed.

Lemma Forall2_nth_right {A B} (R : A -> B -> Prop) l l' :
  Forall2 R l l' ->
  forall j y, nth_error l' j = Some y ->
              exists x, nth_error l j = Some x /\ R x y.
Proof.
  induction 1 as [|x y l l' Hxy H IH]; intros j z Hj.
  - destruct j; discriminate.
  - destruct j as [|j]; cbn in Hj.
    + injection Hj as <-. now exists x.
    + now apply IH.
Qed.

Lemma entry_name_other_metadata m m' i i' :
  m <> m' -> entry_name m i <> entry_name m' i'.
Proof.
  intros Hm Heq. unfold entry_name in Heq.
  apply app_same_length_inj in Heq as [Heq _]; [contradiction|].
  now destruct (i =? 0)%nat, (i' =? 0)%nat.
Qed.

(** The two lists that a file step has merged are held by the file. *)
Lemma merged_lists_held args ck k f l w w' l' :
  file_step args ck k f l w = (w', Ok l') ->
  exists a0 a1 cl0 cl1,
    uses w' = uses w ++ [mkUse (ck_index ck) k 0 a0;
                         mkUse (ck_index ck) k 1 a1]
    /\ nth_error (calls w') a0 = Some cl0
    /\ nth_error (calls w') a1 = Some cl1
    /\ field_holds w' f (metadata ck) 0 (c_result cl0)
    /\ field_holds w' f (metadata ck) 1 (c_result cl1).
Proof.
  intros Hstep.
  destruct (file_step_written args ck k f l w w' l' Hstep)
    as (d & d1 & d' & a0 & a1 & cl0 & cl1
        & _ & Hfs & Hu & _ & Hc0 & Hc1 & Hm0 & Hm1).
  exists a0, a1, cl0, cl1.
  split; [exact Hu|]. split; [exact Hc0|]. split; [exact Hc1|].
  assert (Hrec : forall j kv', nth_error d' j = Some kv' ->
            exists key fields x0 x1,
              nth_error (c_result cl0) j = Some x0
              /\ nth_error (c_result cl1) j = Some x1
              /\ kv' = (key, JDict (dict_set (entry_name (metadata ck) 1)
                                      (JFloat x1)
                                      (dict_set (entry_name (metadata ck) 0)
                                         (JFloat x0) fields)))).
  { intros j kv' Hj.
    destruct (merge_rows_nth _ _ d1 0%nat d' Hm1 j kv' Hj)
      as (key & fields1 & x1 & Hd1 & Hx1 & ->).
    destruct (merge_rows_nth _ _ d 0%nat d1 Hm0 j _ Hd1)
      as (key0 & fields & x0 & _ & Hx0 & Heq).
    injection Heq as -> ->. now exists key0, fields, x0, x1. }
  pose proof (entry_names_differ (metadata ck)) as Hne.
  split; exists d'; (split; [rewrite Hfs; apply dict_get_set_same|]);
    intros j kv' Hj;
    destruct (Hrec j kv' Hj) as (key & fields & x0 & x1 & Hx0 & Hx1 & ->);
    eexists; [exists x0|exists x1]; (split; [reflexivity|]);
    (split; [assumption|]); cbn [snd].
  - rewrite dict_get_set_other by exact Hne. apply dict_get_set_same.
  - apply dict_get_set_same.
Qed.

(** A later file step keeps what a file holds for a list, when it is for
    another file or under a checkpoint of another metadata. *)
Lemma field_holds_kept args ck k f l w w' l' p m i v :
  file_step args ck k f l w = (w', Ok l') ->
  p <> f \/ m <> metadata ck ->
  field_holds w p m i v -> field_holds w' p m i v.
Proof.
  intros Hstep Hor (d0 & Hget & Hall).
  destruct (String.eqb p f) eqn:Hpf.
  - apply String.eqb_eq in Hpf. subst p.
    destruct Hor as [Hp|Hm]; [contradiction|].
    destruct (file_step_result args ck k f l w w' l' Hstep)
      as (d & d' & Hr & Hfs & HF).
    unfold read_json in Hr. rewrite Hget in Hr. injection Hr as <-.
    exists d'. split; [rewrite Hfs; apply dict_get_set_same|].
    intros j kv' Hj.
    destruct (Forall2_nth_right _ _ _ HF j kv' Hj)
      as (kv & Hkv & _ & fields & xs & xt & Hf0 & Hf1).
    destruct (Hall j kv Hkv) as (fields0 & x & Hf0' & Hx & Hg).
    rewrite Hf0 in Hf0'. injection Hf0' as <-.
    eexists. exists x. split; [exact Hf1|]. split; [exact Hx|].
    rewrite !dict_get_set_other by now apply entry_name_other_metadata.
    exact Hg.
  - apply String.eqb_neq in Hpf. exists d0. split; [|exact Hall].
    rewrite <- Hget.
    pose proof (file_step_other_path args ck k f l w p Hpf) as H.
    now rewrite Hstep in H.
Qed.

Lemma NoDup_nth_same {A} (l : list A) i j x :
  NoDup l -> nth_error l i = Some x -> nth_error l j = Some x -> i = j.
Proof.
  intros Hnd Hi Hj.
  apply (proj1 (NoDup_nth_error l) Hnd).
  - apply nth_error_Some. congruence.
  - congruence.
Qed.

Lemma file_step_uses_written args input_files model_paths ck c k f model_path
    l w w' l' :
  NoDup input_files -> NoDup (map metadata_of model_paths) ->
  nth_error model_paths c = Some model_path ->
  ck_index ck = c -> metadata ck = metadata_of model_path ->
  nth_error input_files k = Some f ->
  uses_written input_files model_paths c k w ->
  file_step args ck k f l w = (w', Ok l') ->
  uses_written input_files model_paths c (S k) w'.
Proof.
  intros Hndf Hndm Hpath Hidx Hmeta Hf [HT HF] Hstep.
  destruct (merged_lists_held args ck k f l w w' l' Hstep)
    as (a0 & a1 & cl0 & cl1 & Hu & Hc0 & Hc1 & Hh0 & Hh1).
  destruct (file_step_written args ck k f l w w' l' Hstep)
    as (_ & _ & _ & _ & _ & _ & _ & _ & _ & _ & Hgrow & _).
  rewrite Hidx in Hu. split.
  - intros u Hin. rewrite Hu in Hin.
    apply in_app_or in Hin as [Hin|[<-|[<-|[]]]]; cbn.
    + destruct (HT u Hin) as [Hlt|[Heq Hlt]]; [now left|right; lia].
    + right. lia.
    + right. lia.
  - intros c' path' k' f' i a Hp' Hf' Hin. rewrite Hu in Hin.
    apply in_app_or in Hin as [Hin|Hnew].
    + destruct (HF c' path' k' f' i a Hp' Hf' Hin) as (cl & Hcl & Hh).
      exists cl. split; [now apply Hgrow|].
      apply (field_holds_kept args ck k f l w w' l' _ _ _ _ Hstep);
        [|exact Hh].
      destruct (HT _ Hin) as [Hlt|[Heq Hlt]]; cbn in *.
      * right. rewrite Hmeta. intros Heq.
        assert (c' = c); [|lia].
        apply (NoDup_nth_same (map metadata_of model_paths) c' c
                 (metadata_of path') Hndm).
        -- now apply map_nth_error.
        -- rewrite Heq. now apply map_nth_error.
      * left. intros ->.
        assert (k' = k) by (apply (NoDup_nth_same input_files k' k f Hndf);
                            assumption).
        lia.
    + assert (Hck : c' = c /\ k' = k
                    /\ ((i = 0%nat /\ a = a0) \/ (i = 1%nat /\ a = a1))).
      { destruct Hnew as [Heq|[Heq|[]]]; injection Heq as <- <- <- <-;
          repeat split; auto. }
      destruct Hck as (-> & -> & Hia).
      replace path' with model_path by congruence.
      replace f' with f by congruence.
      rewrite <- Hmeta.
      destruct Hia as [[-> ->]|[-> ->]]; [now exists cl0|now exists cl1].
Qed.

(** In a run that finishes, with input paths that are pairwise different
    and checkpoints whose metadata are pairwise different, every file
    holds at the end, for every recorded use, the list of that use in the
    field of the checkpoint and direction of the use. *)
Lemma finished_run_fields args input_files model_paths fs0 l :
  NoDup input_files -> NoDup (map metadata_of model_paths) ->
  snd (main args input_files model_paths fs0) = Ok l ->
  forall c model_path k f i a,
    nth_error model_paths c = Some model_path ->
    nth_error input_files k = Some f ->
    In (mkUse c k i a) (uses (fst (main args input_files model_paths fs0))) ->
    exists cl,
      nth_error (calls (fst (main args input_files model_paths fs0))) a
      = Some cl
      /\ field_holds (fst (main args input_files model_paths fs0)) f
                     (metadata_of model_path) i (c_result cl).
Proof.
  intros Hndf Hndm Hs. unfold main in *.
  destruct (for_enumerate_rule (checkpoint_step args input_files)
              (fun _ => True)
              (fun c _ w => uses_written input_files model_paths c 0 w)
              model_paths 0%nat) with (s := initial_locals)
                                      (w := mkWorld fs0 [] []) as [_ H];
    [|exact I| |].
  - intros c model_path l0 w0 Hc _ Hinv. split; [exact I|].
    cbn [Nat.add] in *. unfold checkpoint_step.
    destruct (load_checkpoint args c model_path) as [ck|e] eqn:Hload;
      [|discriminate].
    apply load_checkpoint_index in Hload as [Hidx Hmeta].
    destruct (for_enumerate_rule (file_step args ck) (fun _ => True)
                (fun k _ w => uses_written input_files model_paths c k w)
                input_files 0%nat) with (s := reset_caches l0) (w := w0)
      as [_ H]; [|exact I|exact Hinv|].
    + intros k f l1 w1 Hk _ Hinv1. split; [exact I|].
      cbn [Nat.add] in *. intros l' Hs'.
      destruct (file_step args ck k f l1 w1) as [w' r] eqn:Hstep.
      cbn [fst snd] in *. subst r.
      now apply (file_step_uses_written args input_files model_paths ck c k f
                   model_path l1 w1 w' l').
    + intros l' Hs'. destruct (H l' Hs') as [HT HF]. split; [|exact HF].
      intros u Hu. destruct (HT u Hu) as [Hlt|[Heq _]]; left; lia.
  - split; [intros u []|]. intros c' p' k' f' i a _ _ [].
  - destruct (H l Hs) as [_ HF]. exact HF.
Qed.

End WrittenValues.

(** ** Where the list of the wmtp cache comes from *)

Section WmtpOrigin.

Context {E : Externals}.

Lemma wmtp_origin_grow input_files c k k' w w' a :
  (forall a0 cl, nth_error (calls w) a0 = Some cl ->
                 nth_error (calls w') a0 = Some cl) ->
  (k <= k')%nat ->
  wmtp_origin input_files c k w a -> wmtp_origin input_files c k' w' a.
Proof.
  intros Hg Hle (cl & k0 & f0 & Hn & Hc & Hk & Hf & Hw).
  exists cl, k0, f0. split; [now apply Hg|]. split; [exact Hc|].
  split; [lia|]. now split.
Qed.

Lemma direction_origin args input_files ck k f i ds l store w :
  nth_error input_files k = Some f ->
  wmtp_sources_traced input_files w ->
  wmtp_cache_traced input_files (ck_index ck) k l w ->
  wmtp_sources_traced input_files
    (fst (direction_step args ck k (basename f) i ds (l, store) w))
  /\ (forall l' store',
        snd (direction_step args ck k (basename f) i ds (l, store) w)
        = Ok (l', store') ->
        wmtp_cache_traced input_files (ck_index ck) k l'
          (fst (direction_step args ck k (basename f) i ds (l, store) w))).
Proof.
  intros Hf HW Hc. rewrite direction_step_world. cbn [fst snd].
  destruct (obtain_preds_cases args ck k (basename f) i ds l w)
    as [(_ & e & _ & Ho) | [(Hsc & v & _ & Ho) | (Hsc & Ho)]].
  - rewrite Ho. split; [exact HW|].
    intros l' s' Hs. apply direction_step_locals in Hs.
    cbn [fst] in Hs. rewrite Ho in Hs. discriminate.
  - rewrite Ho.
    set (a0 := List.length (calls w)) in *.
    set (l1 := store_in_cache i (basename f) a0 (set_preds l (Some a0))) in *.
    set (w1 := add_call w (mkCall (ck_index ck) k i v)) in *.
    assert (Huses : uses (log_use ck k i l1 w1) =
                    uses w ++ [mkUse (ck_index ck) k i a0]).
    { rewrite uses_log_use. unfold l1. now rewrite store_in_cache_preds. }
    assert (Hcalls : calls (log_use ck k i l1 w1) =
                     calls w ++ [mkCall (ck_index ck) k i v]).
    { now rewrite calls_log_use. }
    assert (Hgrow : forall a cl, nth_error (calls w) a = Some cl ->
              nth_error (calls (log_use ck k i l1 w1)) a = Some cl).
    { intros a cl Ha. rewrite Hcalls, nth_error_app1; [exact Ha|].
      apply nth_error_Some. congruence. }
    assert (Hnew : i = 0%nat -> wmtp_only (basename f) = true ->
              wmtp_origin input_files (ck_index ck) k
                          (log_use ck k i l1 w1) a0).
    { intros Hi Hw. exists (mkCall (ck_index ck) k i v), k, f.
      split.
      { rewrite Hcalls, nth_error_app2 by (unfold a0; lia).
        unfold a0. now rewrite Nat.sub_diag. }
      split; [now repeat split|]. split; [lia|]. now split. }
    split.
    + intros c0 k0 f0 a Hn Hw Hin. rewrite Huses in Hin.
      apply in_app_or in Hin as [Hin|[Heq|[]]].
      * apply (wmtp_origin_grow input_files c0 k0 k0 w); [exact Hgrow|lia|].
        now apply (HW c0 k0 f0 a).
      * injection Heq as Hc0 Hk0 Hi0 Ha0. subst c0 k0 a.
        rewrite Hf in Hn. injection Hn as Hn. subst f0.
        now apply Hnew.
    + intros l' s' Hs. apply direction_step_locals in Hs.
      cbn [fst] in Hs. rewrite Ho in Hs. cbn [snd] in Hs.
      injection Hs as Hs. subst l'.
      intros a Ha. unfold l1 in Ha. rewrite store_in_cache_wmt in Ha.
      destruct ((i =? 0)%nat && wmtp_only (basename f))%bool eqn:Hb.
      * injection Ha as Ha. subst a.
        apply andb_true_iff in Hb as [Hi Hw].
        apply Nat.eqb_eq in Hi. now apply Hnew.
      * apply (wmtp_origin_grow input_files (ck_index ck) k k w);
          [exact Hgrow|lia|]. now apply Hc.
  - rewrite Ho.
    set (l1 := take_from_cache (basename f) l) in *.
    assert (Hgrow : forall a cl, nth_error (calls w) a = Some cl ->
              nth_error (calls (log_use ck k i l1 w)) a = Some cl).
    { intros a cl Ha. now rewrite calls_log_use. }
    split.
    + intros c0 k0 f0 a Hn Hw Hin. rewrite uses_log_use in Hin.
      apply in_app_or in Hin as [Hin|Hin].
      * apply (wmtp_origin_grow input_files c0 k0 k0 w); [exact Hgrow|lia|].
        now apply (HW c0 k0 f0 a).
      * destruct (preds l1) as [[a'|]|] eqn:Hp; simpl in Hin;
          try contradiction.
        destruct Hin as [Heq|[]].
        injection Heq as Hc0 Hk0 Hi0 Ha0. subst c0 k0 a' i.
        rewrite Hf in Hn. injection Hn as Hn. subst f0.
        unfold l1 in Hp. rewrite take_from_cache_wmtp_only in Hp by exact Hw.
        cbn in Hp. injection Hp as Hp.
        apply (wmtp_origin_grow input_files (ck_index ck) k k w);
          [exact Hgrow|lia|]. now apply Hc.
    + intros l' s' Hs. apply direction_step_locals in Hs.
      cbn [fst] in Hs. rewrite Ho in Hs. cbn [snd] in Hs.
      injection Hs as Hs. subst l'.
      intros a Ha. unfold l1 in Ha. rewrite take_from_cache_wmt in Ha.
      apply (wmtp_origin_grow input_files (ck_index ck) k k w);
        [exact Hgrow|lia|]. now apply Hc.
Qed.

Lemma file_origin args input_files ck k f l w :
  nth_error input_files k = Some f ->
  wmtp_sources_traced input_files w ->
  wmtp_cache_traced input_files (ck_index ck) k l w ->
  wmtp_sources_traced input_files (fst (file_step args ck k f l w))
  /\ (forall l', snd (file_step args ck k f l w) = Ok l' ->
        wmtp_cache_traced input_files (ck_index ck) (S k) l'
          (fst (file_step args ck k f l w))).
Proof.
  intros Hf HW Hc.
  destruct (file_step_rule (wmtp_sources_traced input_files)
              (fun _ l w => wmtp_cache_traced input_files (ck_index ck) k l w)
              args ck k f) with (l := l) (w := w) as [H1 H2];
    try assumption.
  - intros fs' w0 H. exact H.
  - intros fs' i l0 w0 H. exact H.
  - intros i ds l0 store w0 HW0 Hc0.
    now apply direction_origin.
  - split; [exact H1|]. intros l' Hs a Ha.
    apply (wmtp_origin_grow input_files (ck_index ck) k (S k)
             (fst (file_step args ck k f l w)));
      [now intros|lia|]. now apply (H2 l' Hs).
Qed.

Lemma main_sources_traced args input_files model_paths fs0 :
  wmtp_sources_traced input_files
    (fst (main args input_files model_paths fs0)).
Proof.
  unfold main.
  apply (for_enumerate_rule (checkpoint_step args input_files)
           (wmtp_sources_traced input_files) (fun _ _ _ => True)
           model_paths 0%nat); [| |exact I].
  - intros c model_path l w _ HW _. split; [|now intros].
    unfold checkpoint_step.
    destruct (load_checkpoint args (0 + c) model_path) as [ck|e]; [|exact HW].
    apply (for_enumerate_rule (file_step args ck)
             (wmtp_sources_traced input_files)
             (fun k l w => wmtp_cache_traced input_files (ck_index ck) k l w)
             input_files 0%nat); [|exact HW|].
    + intros k f l0 w0 Hk HW0 Hc0. cbn [Nat.add] in *.
      now apply file_origin.
    + intros a Ha. discriminate.
  - intros c k f a _ _ [].
Qed.

End WmtpOrigin.

(** ** The cache of the tag wmtp, and the checkpoints *)

Section CacheTheorems.

Context {E : Externals}.

(** A direction that returns has merged, into the corpus, the entries of
    the very list that it has recorded as used. *)
Lemma direction_merges_recorded args ck k filename i ds l d w l' store' :
  d <> [] ->
  snd (direction_step args ck k filename i ds (l, JDict d) w)
  = Ok (l', store') ->
  exists a cl,
    uses (fst (direction_step args ck k filename i ds (l, JDict d) w))
    = uses w ++ [mkUse (ck_index ck) k i a]
    /\ nth_error
         (calls (fst (direction_step args ck k filename i ds (l, JDict d) w)))
         a = Some cl
    /\ merge_results (entry_name (metadata ck) i) (list_item (c_result cl))
                     (JDict d) = Ok store'.
Proof.
  intros Hd Hs.
  destruct (direction_step_merged args ck k filename i ds l d w l' store'
              Hd Hs) as (a & cl & _ & Hu & Hc & Hm).
  now exists a, cl.
Qed.

(** C2, for files that have the tag wmtp and not the tag arp.  In every
    run of [main], for two such files, under any one checkpoint, the list
    used for the source direction of the later file is the list used for
    the source direction of the earlier one, and the engine does not run
    for the source direction of the later file.  Every direction that
    returns has merged into the corpus the entries of the list that it
    records as used.  In a run that finishes, with input paths that are
    pairwise different and checkpoints of pairwise different metadata,
    both files hold at the end, in the source field of the checkpoint,
    for every key the entry of one and the same list; that list is the
    result of the engine's run, under that checkpoint, for the source
    direction of the first file of the run that has the tag wmtp only. *)
Theorem wmtp_cache_reuse args input_files model_paths fs0 c k1 k2 f1 f2 :
  (k1 < k2)%nat ->
  nth_error input_files k1 = Some f1 ->
  nth_error input_files k2 = Some f2 ->
  wmtp_only (basename f1) = true ->
  wmtp_only (basename f2) = true ->
  source_served_from (fst (main args input_files model_paths fs0)) c k1 k2
  /\ (forall l, snd (main args input_files model_paths fs0) = Ok l ->
        (c < List.length model_paths)%nat ->
        exists a,
          In (mkUse c k1 0 a)
             (uses (fst (main args input_files model_paths fs0)))
          /\ In (mkUse c k2 0 a)
                (uses (fst (main args input_files model_paths fs0))))
  /\ (forall ck k filename i ds l d w l' store',
        d <> [] ->
        snd (direction_step args ck k filename i ds (l, JDict d) w)
        = Ok (l', store') ->
        exists a cl,
          uses (fst (direction_step args ck k filename i ds (l, JDict d) w))
          = uses w ++ [mkUse (ck_index ck) k i a]
          /\ nth_error
               (calls (fst (direction_step args ck k filename i ds
                              (l, JDict d) w))) a = Some cl
          /\ merge_results (entry_name (metadata ck) i)
                           (list_item (c_result cl)) (JDict d) = Ok store')
  /\ (forall l model_path,
        snd (main args input_files model_paths fs0) = Ok l ->
        NoDup input_files -> NoDup (map metadata_of model_paths) ->
        nth_error model_paths c = Some model_path ->
        exists a cl k0 f0,
          In (mkUse c k1 0 a)
             (uses (fst (main args input_files model_paths fs0)))
          /\ In (mkUse c k2 0 a)
                (uses (fst (main args input_files model_paths fs0)))
          /\ nth_error (calls (fst (main args input_files model_paths fs0))) a
             = Some cl
          /\ call_at c k0 0 cl
          /\ (k0 <= k1)%nat
          /\ nth_error input_files k0 = Some f0
          /\ wmtp_only (basename f0) = true
          /\ (forall k' f', (k' < k0)%nat ->
                nth_error input_files k' = Some f' ->
                wmtp_only (basename f') = false)
          /\ field_holds (fst (main args input_files model_paths fs0)) f1
                         (metadata_of model_path) 0 (c_result cl)
          /\ field_holds (fst (main args input_files model_paths fs0)) f2
                         (metadata_of model_path) 0 (c_result cl)).
Proof.
  intros Hlt H1 H2 Hw1 Hw2.
  pose proof (wmtp_reuse_main args input_files model_paths fs0) as Hreuse.
  pose proof (Hreuse c k1 k2 f1 f2 Hlt H1 H2 Hw1 Hw2) as Hserved.
  assert (Hboth : forall l,
            snd (main args input_files model_paths fs0) = Ok l ->
            (c < List.length model_paths)%nat ->
            exists a,
              In (mkUse c k1 0 a)
                 (uses (fst (main args input_files model_paths fs0)))
              /\ In (mkUse c k2 0 a)
                    (uses (fst (main args input_files model_paths fs0)))).
  { intros l Hs Hc.
    assert (Hk2 : (k2 < List.length input_files)%nat).
    { apply nth_error_Some. congruence. }
    destruct (finished_run_writes args input_files model_paths fs0 l Hs
                c k2 0%nat Hc Hk2 ltac:(lia)) as (a & Ha).
    exists a. split; [|exact Ha]. now apply (proj1 Hserved). }
  split; [exact Hserved|]. split; [exact Hboth|].
  split; [apply direction_merges_recorded|].
  intros l model_path Hs Hndf Hndm Hpath.
  assert (Hc : (c < List.length model_paths)%nat).
  { apply nth_error_Some. congruence. }
  destruct (Hboth l Hs Hc) as (a & Hu1 & Hu2).
  destruct (main_sources_traced args input_files model_paths fs0
              c k1 f1 a H1 Hw1 Hu1)
    as (cl & k0 & f0 & Hcl & Hat & Hle & Hf0 & Hw0).
  destruct (finished_run_fields args input_files model_paths fs0 l
              Hndf Hndm Hs c model_path k1 f1 0%nat a Hpath H1 Hu1)
    as (cl1 & Hcl1 & Hh1).
  destruct (finished_run_fields args input_files model_paths fs0 l
              Hndf Hndm Hs c model_path k2 f2 0%nat a Hpath H2 Hu2)
    as (cl2 & Hcl2 & Hh2).
  assert (cl1 = cl) by congruence. assert (cl2 = cl) by congruence.
  subst cl1 cl2.
  exists a, cl, k0, f0. repeat (split; [assumption|]).
  split; [|now split].
  intros k' f' Hk' Hf'.
  destruct (wmtp_only (basename f')) eqn:Hw'; [exfalso|reflexivity].
  destruct (Hreuse c k' k0 f' f0 Hk' Hf' Hf0 Hw' Hw0) as [_ Hno].
  apply Hno. exists cl. split; [|exact Hat].
  now apply (nth_error_In _ a).
Qed.

(** C3.  Each checkpoint starts its loop over the files from empty
    caches, whatever the caches held before, and in every run of [main],
    finished or ended by a raise, every list that is used for a file
    under a checkpoint was computed under that same checkpoint.  Every
    direction that returns has merged into the corpus the entries of the
    list that it records as used.  In a run that finishes, with input
    paths that are pairwise different and checkpoints of pairwise
    different metadata, every file holds at the end, in each of the two
    fields of each checkpoint, for every key the entry of a list that
    the engine computed under that checkpoint. *)
Theorem cache_isolation args input_files model_paths fs0 :
  (forall c model_path l w,
     checkpoint_step args input_files c model_path l w =
     checkpoint_step args input_files c model_path
                     (mkLocals (preds l) None None) w)
  /\ checkpoints_isolated (fst (main args input_files model_paths fs0))
  /\ (forall ck k filename i ds l d w l' store',
        d <> [] ->
        snd (direction_step args ck k filename i ds (l, JDict d) w)
        = Ok (l', store') ->
        exists a cl,
          uses (fst (direction_step args ck k filename i ds (l, JDict d) w))
          = uses w ++ [mkUse (ck_index ck) k i a]
          /\ nth_error
               (calls (fst (direction_step args ck k filename i ds
                              (l, JDict d) w))) a = Some cl
          /\ merge_results (entry_name (metadata ck) i)
                           (list_item (c_result cl)) (JDict d) = Ok store')
  /\ (forall l,
        snd (main args input_files model_paths fs0) = Ok l ->
        NoDup input_files -> NoDup (map metadata_of model_paths) ->
        forall c model_path k f i,
          nth_error model_paths c = Some model_path ->
          nth_error input_files k = Some f ->
          (i < 2)%nat ->
          exists a cl,
            In (mkUse c k i a)
               (uses (fst (main args input_files model_paths fs0)))
            /\ nth_error (calls (fst (main args input_files model_paths fs0)))
                         a = Some cl
            /\ c_ckpt cl = c
            /\ field_holds (fst (main args input_files model_paths fs0)) f
                           (metadata_of model_path) i (c_result cl)).
Proof.
  pose proof (main_checkpoints_isolated args input_files model_paths fs0)
    as Hiso.
  split; [reflexivity|]. split; [exact Hiso|].
  split; [apply direction_merges_recorded|].
  intros l Hs Hndf Hndm c model_path k f i Hpath Hf Hi.
  assert (Hc : (c < List.length model_paths)%nat).
  { apply nth_error_Some. congruence. }
  assert (Hk : (k < List.length input_files)%nat).
  { apply nth_error_Some. congruence. }
  destruct (finished_run_writes args input_files model_paths fs0 l Hs
              c k i Hc Hk Hi) as (a & Hu).
  destruct (finished_run_fields args input_files model_paths fs0 l
              Hndf Hndm Hs c model_path k f i a Hpath Hf Hu)
    as (cl & Hcl & Hh).
  destruct (Hiso _ Hu) as (cl' & Hcl' & Hck). cbn in Hcl', Hck.
  assert (cl' = cl) by congruence. subst cl'.
  now exists a, cl.
Qed.

End CacheTheorems.

Lemma wmtp_cache_reuse_witness :
  (0 < 1)%nat
  /\ nth_error ["d/wmtp_a.json"; "d/wmtp_b.json"] 0 = Some "d/wmtp_a.json"
  /\ nth_error ["d/wmtp_a.json"; "d/wmtp_b.json"] 1 = Some "d/wmtp_b.json"
  /\ wmtp_only (basename "d/wmtp_a.json") = true
  /\ wmtp_only (basename "d/wmtp_b.json") = true
  /\ source_served_from (fst wmtp_run) 0 0 1
  /\ (NoDup ["d/wmtp_a.json"; "d/wmtp_b.json"] ->
      NoDup (map metadata_of ["m/bert_ML8/ckpt"]) ->
      exists a cl,
        In (mkUse 0 0 0 a) (uses (fst wmtp_run))
        /\ In (mkUse 0 1 0 a) (uses (fst wmtp_run))
        /\ nth_error (calls (fst wmtp_run)) a = Some cl
        /\ call_at 0 0 0 cl
        /\ field_holds (fst wmtp_run) "d/wmtp_a.json" "bert_ML8" 0
                       (c_result cl)
        /\ field_holds (fst wmtp_run) "d/wmtp_b.json" "bert_ML8" 0
                       (c_result cl)).
Proof.
  repeat (split; [first [lia | reflexivity]|]).
  pose proof (@wmtp_cache_reuse sample_externals sample_args
                ["d/wmtp_a.json"; "d/wmtp_b.json"] ["m/bert_ML8/ckpt"]
                [("d/wmtp_a.json", Some sample_store_a);
                 ("d/wmtp_b.json", Some sample_store_b)]
                0%nat 0%nat 1%nat "d/wmtp_a.json" "d/wmtp_b.json"
                ltac:(lia) eq_refl eq_refl eq_refl eq_refl)
    as (Hserved & _ & _ & Hfiles).
  split; [exact Hserved|].
  intros Hndf Hndm.
  destruct (Hfiles (mkLocals (Some (Some 2)) (Some 0) None) "m/bert_ML8/ckpt"
              ltac:(vm_compute; reflexivity) Hndf Hndm eq_refl)
    as (a & cl & k0 & f0 & Hu1 & Hu2 & Hcl & Hat & Hle & _ & _ & _ & Hh1 & Hh2).
  exists a, cl. repeat (split; [assumption|]).
  assert (k0 = 0%nat) by lia. subst k0.
  split; [exact Hat|]. split; [exact Hh1|exact Hh2].
Defined.

(** Two checkpoints over two files with the tag wmtp only: under the
    second checkpoint the second file holds a list computed under the
    second checkpoint. *)
Lemma cache_isolation_witness :
  NoDup ["d/wmtp_a.json"; "d/wmtp_b.json"]
  /\ NoDup (map metadata_of ["m/bert_ML8/ckpt"; "m/bert_ML9/ckpt"])
  /\ checkpoints_isolated (fst two_checkpoint_run)
  /\ exists a cl,
       In (mkUse 1 1 0 a) (uses (fst two_checkpoint_run))
       /\ nth_error (calls (fst two_checkpoint_run)) a = Some cl
       /\ c_ckpt cl = 1%nat
       /\ field_holds (fst two_checkpoint_run) "d/wmtp_b.json" "bert_ML9" 0
                      (c_result cl).
Proof.
  assert (Hndf : NoDup ["d/wmtp_a.json"; "d/wmtp_b.json"]).
  { repeat constructor; simpl; intuition discriminate. }
  assert (Hndm : NoDup (map metadata_of
                          ["m/bert_ML8/ckpt"; "m/bert_ML9/ckpt"])).
  { repeat constructor; simpl; intuition discriminate. }
  split; [exact Hndf|]. split; [exact Hndm|].
  pose proof (@cache_isolation sample_externals sample_args
                ["d/wmtp_a.json"; "d/wmtp_b.json"]
                ["m/bert_ML8/ckpt"; "m/bert_ML9/ckpt"]
                [("d/wmtp_a.json", Some sample_store_a);
                 ("d/wmtp_b.json", Some sample_store_b)])
    as (_ & Hiso & _ & Hfiles).
  split; [exact Hiso|].
  exact (Hfiles (mkLocals (Some (Some 5)) (Some 3) None)
           ltac:(vm_compute; reflexivity) Hndf Hndm
           1%nat "m/bert_ML9/ckpt" 1%nat "d/wmtp_b.json" 0%nat
           eq_refl eq_refl ltac:(lia)).
Defined.

(** ** A file without a tag, and what it ends up holding *)

Section UntaggedValues.

Context {E : Externals}.

(** In every run, a file without a tag that is not the first input file
    gets, for its source direction, the list that was computed for the
    target direction of the file before it under the same checkpoint, and
    the engine does not run for its source direction.  In a run that
    finishes, with input paths that are pairwise different and
    checkpoints of pairwise different metadata, the file holds at the
    end, in the source field of the checkpoint, for every key the entry
    of that list of the file before it. *)
Theorem untagged_file_gets_previous_target
    args input_files model_paths fs0 c k f :
  nth_error input_files (S k) = Some f ->
  has_tag (basename f) = false ->
  (forall a,
     In (mkUse c (S k) 0 a)
        (uses (fst (main args input_files model_paths fs0))) ->
     exists cl,
       nth_error (calls (fst (main args input_files model_paths fs0))) a
       = Some cl
       /\ call_at c k 1 cl)
  /\ ~ engine_invoked_for (fst (main args input_files model_paths fs0))
                          c (S k) 0
  /\ (forall l model_path,
        snd (main args input_files model_paths fs0) = Ok l ->
        NoDup input_files -> NoDup (map metadata_of model_paths) ->
        nth_error model_paths c = Some model_path ->
        exists a cl,
          In (mkUse c (S k) 0 a)
             (uses (fst (main args input_files model_paths fs0)))
          /\ nth_error (calls (fst (main args input_files model_paths fs0))) a
             = Some cl
          /\ call_at c k 1 cl
          /\ field_holds (fst (main args input_files model_paths fs0)) f
                         (metadata_of model_path) 0 (c_result cl)).
Proof.
  intros Hf Ht.
  destruct (main_untagged_stale args input_files model_paths fs0 c k f Hf Ht)
    as [Hfrom Hno].
  split; [exact Hfrom|]. split; [exact Hno|].
  intros l model_path Hs Hndf Hndm Hpath.
  assert (Hc : (c < List.length model_paths)%nat).
  { apply nth_error_Some. congruence. }
  assert (Hk : (S k < List.length input_files)%nat).
  { apply nth_error_Some. congruence. }
  destruct (finished_run_writes args input_files model_paths fs0 l Hs
              c (S k) 0%nat Hc Hk ltac:(lia)) as (a & Hu).
  destruct (Hfrom a Hu) as (cl & Hcl & Hat).
  destruct (finished_run_fields args input_files model_paths fs0 l
              Hndf Hndm Hs c model_path (S k) f 0%nat a Hpath Hf Hu)
    as (cl' & Hcl' & Hh).
  assert (cl' = cl) by congruence. subst cl'.
  now exists a, cl.
Qed.

End UntaggedValues.

Lemma untagged_file_gets_previous_target_witness :
  nth_error ["d/wmtp_a.json"; "d/plain.json"] 1 = Some "d/plain.json"
  /\ has_tag (basename "d/plain.json") = false
  /\ In (mkUse 0 1 0 1) (uses (fst untagged_run))
  /\ ~ engine_invoked_for (fst untagged_run) 0 1 0
  /\ stored_column (fst untagged_run) "d/plain.json" "bert_ML8_source"
     = Some [Some (JFloat 1373%Z); Some (JFloat 1377%Z)].
Proof.
  split; [reflexivity|]. split; [reflexivity|].
  split; [vm_compute; tauto|].
  split; [|vm_compute; reflexivity].
  exact (proj1 (proj2
           (@untagged_file_gets_previous_target sample_externals
              sample_args ["d/wmtp_a.json"; "d/plain.json"]
              ["m/bert_ML8/ckpt"]
              [("d/wmtp_a.json", Some sample_store_a);
               ("d/plain.json", Some sample_store_b)]
              0%nat 0%nat "d/plain.json" eq_refl eq_refl))).
Defined.
